(** * delphi-epidata: query engine, security layer and versioned stores

    A shallow embedding of [src/server/_query.py] and
    [src/server/_security.py], together with models of the signal database,
    the nowcast endpoint and the hospitalization acquisition pipeline, whose
    production code lives outside the files at hand and is therefore modelled
    from the written specification.

    Python values are embedded as inductive types, exceptions as an explicit
    [result], dictionaries as [gmap]s and mutated dictionaries by state
    passing. *)

From stdpp Require Import base option list gmap strings pretty sorting.
From Stdlib Require Import ZArith Lia Ascii.

Open Scope string_scope.
Open Scope list_scope.
Open Scope Z_scope.

(** ** Python exceptions and results *)

Module Py.

Inductive exn : Type :=
| TypeError
| ValueError
| IndexError
| OverflowError
| Unauthorized
| IntegrityError
| ZeroDivisionError.

Inductive result (A : Type) : Type :=
| Ok (a : A)
| Raise (e : exn).

Arguments Ok {A} a.
Arguments Raise {A} e.

Definition is_ok {A} (r : result A) : bool :=
  match r with Ok _ => true | Raise _ => false end.

Definition rbind {A B} (r : result A) (k : A → result B) : result B :=
  match r with Ok a => k a | Raise e => Raise e end.

Definition rmap {A B} (f : A → B) (r : result A) : result B :=
  rbind r (λ a, Ok (f a)).

(** *** Floats and the true division of integers

    A finite [float] is the number [mantissa * 2 ^ exponent]. *)
Record double : Type := {
  mantissa : Z;
  exponent : Z
}.

(** [2 ^ e] for [0 <= e], and 1 below: the integer factor of a binary
    exponent. *)
Definition pow2 (e : Z) : Z := 2 ^ Z.max 0 e.

(** The integer nearest to [n / d], for [0 <= n] and [0 < d]; half-way
    between two integers the even one is taken. *)
Definition round_half_even (n d : Z) : Z :=
  let q := n / d in
  let r := n mod d in
  if 2 * r <? d then q
  else if d <? 2 * r then q + 1
  else if Z.even q then q else q + 1.

(** The integer part of the binary logarithm of [n / d], for [0 < n] and
    [0 < d]. *)
Definition quotient_exponent (n d : Z) : Z :=
  let k := Z.log2 n - Z.log2 d in
  if n * pow2 (- k) <? d * pow2 k then k - 1 else k.

(** [a / b] on two [int]s: the quotient rounded to the nearest float of 53
    significant bits (exponent not below -1074), half-way cases to the even
    mantissa; a quotient that rounds to [2 ^ 1024] or more is too large for
    a float. *)
Definition int_truediv (a b : Z) : result double :=
  if b =? 0 then Raise ZeroDivisionError
  else if a =? 0 then Ok {| mantissa := 0; exponent := 0 |}
  else
    let n := Z.abs a in
    let d := Z.abs b in
    let e := Z.max (quotient_exponent n d - 52) (-1074) in
    let m := round_half_even (n * pow2 (- e)) (d * pow2 e) in
    if 2 ^ 1024 <=? m * pow2 e then Raise OverflowError
    else Ok {| mantissa := Z.sgn a * Z.sgn b * m; exponent := e |}.

(** [int(x)] on a float: truncation towards zero. *)
Definition int_of_double (x : double) : Z :=
  Z.quot (mantissa x * pow2 (exponent x)) (pow2 (- exponent x)).

(** [s[n:]] on a string. *)
Fixpoint string_drop (n : nat) (s : string) : string :=
  match n, s with
  | O, _ => s
  | S _, EmptyString => EmptyString
  | S n', String _ s' => string_drop n' s'
  end.

(** [s.startswith(p)]. *)
Definition startswith (s p : string) : bool := String.prefix p s.

(** [sep.join(l)]. *)
Definition join (sep : string) (l : list string) : string := String.concat sep l.

(** Truthiness of a [str]: only the empty string is falsy. *)
Definition truthy_str (s : string) : bool :=
  match s with EmptyString => false | String _ _ => true end.

(** [str(i)] for a non-negative index, as interpolated by an f-string. *)
Definition str_of_nat (i : nat) : string := pretty i.

(** ["{:0Wd}".format(n)] for [0 <= n]: decimal digits, left-padded with
    zeros up to width [W]. *)
Definition zero_pad (width : nat) (n : Z) : string :=
  let digits := pretty n in
  String.concat "" (replicate (width - String.length digits) "0") +:+ digits.

(** No character of [s] is an underscore. *)
Fixpoint no_underscore (s : string) : Prop :=
  match s with
  | EmptyString => True
  | String c s' => c ≠ "_"%char ∧ no_underscore s'
  end.

End Py.

Import Py.

(** ** The query engine, [src/server/_query.py] *)

Module Query.

(** Filter values are strings or integers
    ([Union[Tuple[str, str], str, Tuple[int, int], int]]). *)
Inductive atom : Type :=
| AStr (s : string)
| AInt (z : Z).

(** A filter value is a scalar, or a list/tuple (the [isinstance] test of
    [to_condition]); a tuple is kept as the list of its items so that a
    tuple that is too short fails where the source indexes it. *)
Inductive filter_value : Type :=
| Scalar (a : atom)
| Tuple (items : list atom).

(** The bind-parameter dictionary [params: Dict[str, Any]]. *)
Abbreviation params := (gmap string atom).

(** Code that mutates [params] and may raise: the dictionary is threaded
    through, and survives an exception the way the shared Python object
    does. *)
Definition M (A : Type) : Type := params → result A * params.

Definition ret {A} (a : A) : M A := λ p, (Ok a, p).

Definition bind {A B} (m : M A) (k : A → M B) : M B :=
  λ p, match m p with
       | (Ok a, p') => k a p'
       | (Raise e, p') => (Raise e, p')
       end.

Definition lift {A} (r : result A) : M A := λ p, (r, p).

(** [params[key] = v] *)
Definition setitem (key : string) (v : atom) : M unit :=
  λ p, (Ok tt, <[key := v]> p).

(** [value[i]] on a tuple *)
Definition getitem (items : list atom) (i : nat) : result atom :=
  match items !! i with
  | Some a => Ok a
  | None => Raise IndexError
  end.

Notation "'do' x <- m ; k" := (bind m (λ x, k))
  (at level 10, x name, m at level 100, k at level 200).
Notation "'do_' m ; k" := (bind m (λ _, k))
  (at level 10, m at level 100, k at level 200).

(** [date_string]: [year = int(value / 10000) % 10000],
    [month = int(value / 100) % 100], [day = value % 100]. [value / 10000]
    is the true division of two [int]s, which rounds to a float and raises
    [OverflowError] when the quotient is too large for one; [int] truncates
    the float towards zero; [%] with a positive divisor is [Z.modulo]. *)
Definition date_parts (value : Z) : result (Z * Z * Z) :=
  rbind (int_truediv value 10000) (λ by_10000,
  rbind (int_truediv value 100) (λ by_100,
    let year := int_of_double by_10000 mod 10000 in
    let month := int_of_double by_100 mod 100 in
    let day := value mod 100 in
    Ok (year, month, day))).

Definition date_string (value : Z) : result string :=
  rmap (λ '(year, month, day),
          zero_pad 4 year +:+ "-" +:+ zero_pad 2 month +:+ "-" +:+ zero_pad 2 day)
       (date_parts value).

(** A formatter maps a filter atom to the bound value and may raise. *)
Definition formatter := atom → result atom.

(** The default [lambda x: x]. *)
Definition identity : formatter := λ x, Ok x.

(** [date_string] used as a formatter: dividing a [str] raises. *)
Definition date_formatter : formatter := λ x,
  match x with
  | AInt z => rmap AStr (date_string z)
  | AStr _ => Raise TypeError
  end.

Definition to_condition (field : string) (value : filter_value)
    (param_key : string) (fmt : formatter) : M string :=
  match value with
  | Tuple items =>
      do v0 <- lift (getitem items 0);
      do f0 <- lift (fmt v0);
      do_ setitem param_key f0;
      do v1 <- lift (getitem items 1);
      do f1 <- lift (fmt v1);
      do_ setitem (param_key +:+ "_2") f1;
      ret (field +:+ " BETWEEN :" +:+ param_key +:+ " AND :" +:+ param_key +:+ "_2")
  | Scalar a =>
      do f <- lift (fmt a);
      do_ setitem param_key f;
      ret (field +:+ " = :" +:+ param_key)
  end.

(** The list comprehension over [enumerate(values)], from index [i] on. *)
Fixpoint conditions_from (field : string) (i : nat) (values : list filter_value)
    (param_key : string) (fmt : formatter) : M (list string) :=
  match values with
  | [] => ret []
  | v :: rest =>
      do c <- to_condition field v (param_key +:+ "_" +:+ str_of_nat i) fmt;
      do cs <- conditions_from field (S i) rest param_key fmt;
      ret (c :: cs)
  end.

Definition filter_values (field : string) (values : list filter_value)
    (param_key : string) (fmt : formatter) : M string :=
  do conditions <- conditions_from field 0 values param_key fmt;
  ret ("(" +:+ join " OR " conditions +:+ ")").

Definition filter_strings (field : string) (values : list filter_value)
    (param_key : string) : M string :=
  filter_values field values param_key identity.

Definition filter_integers (field : string) (values : list filter_value)
    (param_key : string) : M string :=
  filter_values field values param_key identity.

Definition filter_dates (field : string) (values : list filter_value)
    (param_key : string) : M string :=
  filter_values field values param_key date_formatter.

(** *** Result rows *)

(** A cell of a raw result row: [None], an [int], a [float] or a [str].
    The type [F] stands for Python's floats; the conversions between
    numbers and strings that [int()] and [float()] perform on values other
    than [None] are those of the interpreter and are taken as given. *)
Inductive cell (F : Type) : Type :=
| CNone
| CInt (z : Z)
| CFloat (x : F)
| CStr (s : string).

Arguments CNone {F}.
Arguments CInt {F} z.
Arguments CFloat {F} x.
Arguments CStr {F} s.

(** Truthiness of an [Optional[Sequence[str]]]: [None] and the empty
    sequence are falsy. *)
Definition truthy_seq {A} (o : option (list A)) : bool :=
  match o with
  | Some (_ :: _) => true
  | _ => false
  end.

(** The conversions of the interpreter that [int()] and [float()] apply to
    strings and numbers: they may raise ([ValueError] on a malformed
    literal, [OverflowError] on an infinity). *)
Class Conversions (F : Type) : Type := {
  int_of_str : string → result Z;
  int_of_float : F → result Z;
  float_of_int : Z → result F;
  float_of_str : string → result F
}.

Section ParseRow.

Context `{Conversions F}.

(** [int(x)]: a [TypeError] on [None]. *)
Definition py_int (c : cell F) : result (cell F) :=
  match c with
  | CNone => Raise TypeError
  | CInt z => Ok (CInt z)
  | CFloat x => rmap CInt (int_of_float x)
  | CStr s => rmap CInt (int_of_str s)
  end.

(** [float(x)]: a [TypeError] on [None]. *)
Definition py_float (c : cell F) : result (cell F) :=
  match c with
  | CNone => Raise TypeError
  | CInt z => rmap CFloat (float_of_int z)
  | CFloat x => Ok (CFloat x)
  | CStr s => rmap CFloat (float_of_str s)
  end.

(** [row.get(f)] *)
Definition row_get (row : gmap string (cell F)) (f : string) : cell F :=
  default CNone (row !! f).

(** [f in row] *)
Definition row_contains (row : gmap string (cell F)) (f : string) : bool :=
  bool_decide (is_Some (row !! f)).

(** [for f in fields_string: parsed[f] = row.get(f)] *)
Fixpoint store_strings (row : gmap string (cell F)) (fields : list string)
    (parsed : gmap string (cell F)) : gmap string (cell F) :=
  match fields with
  | [] => parsed
  | f :: rest => store_strings row rest (<[f := row_get row f]> parsed)
  end.

(** [for f in fields: parsed[f] = coerce(row.get(f)) if f in row else None] *)
Fixpoint store_coerced (coerce : cell F → result (cell F))
    (row : gmap string (cell F)) (fields : list string)
    (parsed : gmap string (cell F)) : result (gmap string (cell F)) :=
  match fields with
  | [] => Ok parsed
  | f :: rest =>
      rbind (if row_contains row f then coerce (row_get row f) else Ok CNone)
        (λ v, store_coerced coerce row rest (<[f := v]> parsed))
  end.

Definition parse_row (row : gmap string (cell F))
    (fields_string fields_int fields_float : option (list string))
    : result (gmap string (cell F)) :=
  let parsed := ∅ in
  let parsed :=
    if truthy_seq fields_string
    then store_strings row (default [] fields_string) parsed
    else parsed in
  rbind (if truthy_seq fields_int
         then store_coerced py_int row (default [] fields_int) parsed
         else Ok parsed)
    (λ parsed,
      if truthy_seq fields_float
      then store_coerced py_float row (default [] fields_float) parsed
      else Ok parsed).

End ParseRow.

End Query.

(** *** What a filter clause should look like

    The clause and the bind parameters of [filter_values] written the way
    the specification words them, to be compared with the code. *)

Module QuerySpec.

Import Query.

(** The bind-parameter name of the value at index [i]. *)
Definition spec_param (param_key : string) (i : nat) : string :=
  param_key +:+ "_" +:+ str_of_nat i.

(** One predicate per value: equality for a scalar, an inclusive range for
    a pair. *)
Definition spec_predicate (field name : string) (v : filter_value) : string :=
  match v with
  | Scalar _ => field +:+ " = :" +:+ name
  | Tuple _ => field +:+ " BETWEEN :" +:+ name +:+ " AND :" +:+ name +:+ "_2"
  end.

(** The names a value binds: one for a scalar, two for a pair. *)
Definition spec_names (name : string) (v : filter_value) : list string :=
  match v with
  | Scalar _ => [name]
  | Tuple _ => [name; name +:+ "_2"]
  end.

(** The values bound, before formatting, in the order of [spec_names]. *)
Definition spec_atoms (v : filter_value) : list atom :=
  match v with
  | Scalar a => [a]
  | Tuple items => items
  end.

(** A value is a scalar or a pair. *)
Definition scalar_or_pair (v : filter_value) : bool :=
  match v with
  | Scalar _ => true
  | Tuple [_; _] => true
  | Tuple _ => false
  end.

Definition spec_predicates_from (field : string) (i : nat)
    (values : list filter_value) (param_key : string) : list string :=
  imap (λ j v, spec_predicate field (spec_param param_key (i + j)%nat) v) values.

Definition spec_names_from (i : nat) (values : list filter_value)
    (param_key : string) : list string :=
  concat (imap (λ j v, spec_names (spec_param param_key (i + j)%nat) v) values).

(** The predicates OR-combined in one pair of parentheses. *)
Definition spec_clause (field : string) (values : list filter_value)
    (param_key : string) : string :=
  "(" +:+ join " OR " (spec_predicates_from field 0 values param_key) +:+ ")".

(** All names one call generates. *)
Definition generated_names (values : list filter_value) (param_key : string)
    : list string :=
  spec_names_from 0 values param_key.

(** All values one call binds, unformatted. *)
Definition bound_atoms (values : list filter_value) : list atom :=
  concat (map spec_atoms values).

(** [extends a b]: [b] is [a] followed by nothing, or by a suffix that begins
    with an underscore. Two [param_key]s related this way can generate the
    same name. *)
Definition extends (a b : string) : Prop :=
  b = a ∨ ∃ t, b = a +:+ "_" +:+ t.

End QuerySpec.

(** ** The security layer, [src/server/_security.py] *)

Module Security.

(** A [datetime.date] is its proleptic Gregorian ordinal
    ([date.toordinal()]), from 1 (0001-01-01) to 3652059 (9999-12-31);
    dates compare as their ordinals. *)
Definition date_min : Z := 1.
Definition date_max : Z := 3652059.

(** [d - timedelta(days=n)]: an [OverflowError] outside the range of
    dates. *)
Definition date_minus_days (d n : Z) : result Z :=
  let o := d - n in
  if (date_min <=? o) && (o <=? date_max) then Ok o else Raise OverflowError.

(** [request.authorization]: the parsed credentials, both optional. *)
Record Authorization : Type := {
  username : option string;
  password : option string
}.

(** What the module reads of [flask.request]: [request.values] as the list
    of its (name, value) pairs, the first pair of a name being the one
    [request.values[name]] returns; [request.authorization];
    [request.headers.get("Authorization")]; [request.path]. *)
Record Request : Type := {
  values : list (string * string);
  authorization : option Authorization;
  header_Authorization : option string;
  path : string
}.

(** [n in request.values] and [request.values[n]] in one lookup. *)
Fixpoint values_get (n : string) (vs : list (string * string)) : option string :=
  match vs with
  | [] => None
  | (k, v) :: rest => if bool_decide (k = n) then Some v else values_get n rest
  end.

(** [for n in names: if n in request.values: return request.values[n]] *)
Fixpoint first_present (names : list string) (vs : list (string * string))
    : option string :=
  match names with
  | [] => None
  | n :: rest =>
      match values_get n vs with
      | Some v => Some v
      | None => first_present rest vs
      end
  end.

(** The bearer branch of [resolve_auth_token]. *)
Definition bearer_token (r : Request) : option string :=
  match header_Authorization r with
  | Some auth_header =>
      if truthy_str auth_header && startswith auth_header "Bearer "
      then Some (string_drop (String.length "Bearer ") auth_header)
      else None
  | None => None
  end.

Definition resolve_auth_token (r : Request) : option string :=
  match first_present ["auth"; "api_key"; "token"] (values r) with
  | Some v => Some v
  | None =>
      match authorization r with
      | Some a =>
          if bool_decide (username a = Some "epidata")
          then password a
          else bearer_token r
      | None => bearer_token r
      end
  end.

Section Server.

(** [User] and [UserRole] live in [admin.models], [URL_PREFIX] and
    [API_KEY_REQUIRED_STARTING_AT] in [_config]; they are taken as given.
    A [User] object is truthy, [None] is the anonymous caller. *)
Context {User : Type}.
Variable find_user : option string → option User.
Variable has_role : User → string → bool.
Variable URL_PREFIX : string.
Variable API_KEY_REQUIRED_STARTING_AT : Z.

(** The two module-level constants, computed when the module is loaded. *)
Definition API_KEY_HARD_WARNING : result Z :=
  date_minus_days API_KEY_REQUIRED_STARTING_AT 14.

Definition API_KEY_SOFT_WARNING : result Z :=
  rbind API_KEY_HARD_WARNING (λ hard, date_minus_days hard 14).

(** The loaded module: both constants evaluated. *)
Record loaded : Type := {
  hard_warning : Z;
  soft_warning : Z
}.

Definition load : result loaded :=
  rbind API_KEY_HARD_WARNING (λ hard,
  rbind API_KEY_SOFT_WARNING (λ soft,
    Ok {| hard_warning := hard; soft_warning := soft |})).

(** The request context: the request and [flask.g], of which only the
    [user] attribute matters ([None] when ["user" not in g]). *)
Record context : Type := {
  request : Request;
  g_user : option (option User)
}.

Definition _get_current_user (c : context) : option User * context :=
  match g_user c with
  | None =>
      let api_key := resolve_auth_token (request c) in
      let u := find_user api_key in
      (u, {| request := request c; g_user := Some u |})
  | Some u => (u, c)
  end.

(** [not current_user] *)
Definition not_user (u : option User) : bool :=
  match u with Some _ => false | None => true end.

Definition show_soft_api_key_warning (m : loaded) (today : Z) (c : context)
    : bool * context :=
  let n := today in
  let (u, c) := _get_current_user c in
  (not_user u && ((soft_warning m <=? n) && (n <? hard_warning m)), c).

Definition show_hard_api_key_warning (m : loaded) (today : Z) (c : context)
    : bool * context :=
  let n := today in
  let (u, c) := _get_current_user c in
  (not_user u && ((hard_warning m <=? n) && (n <? API_KEY_REQUIRED_STARTING_AT)), c).

Definition require_api_key (today : Z) : bool :=
  let n := today in
  API_KEY_REQUIRED_STARTING_AT <=? n.

Definition _is_public_route (r : Request) : bool :=
  let public_routes_list := ["lib"; "admin"; "version"] in
  existsb (λ route, startswith (path r) (URL_PREFIX +:+ "/" +:+ route))
    public_routes_list.

(** A view function runs in the request context and returns a response or
    raises. *)
Definition view (A : Type) : Type := context → result A * context.

Definition require_role {A} (required_role : string) (f : view A) : view A :=
  if negb (truthy_str required_role) then f
  else λ c,
    let (u, c) := _get_current_user c in
    match u with
    | None => (Raise Unauthorized, c)
    | Some user =>
        if negb (has_role user required_role)
        then (Raise Unauthorized, c)
        else f c
    end.

End Server.

Arguments context : clear implicits.
Arguments view : clear implicits.

End Security.

(** ** The covidcast signal database

    [acquisition/covidcast/database.py] is exercised by
    [integrations/acquisition/covidcast/test_db.py] but is not among the
    files at hand; the store is modelled from the specification. *)

Module SignalDb.

(** Modelled from the spec: the severities of the structured logger of the
    missing [database.py], lowest first; [CRITICAL] is the highest. *)
Inductive severity : Type :=
| DEBUG
| INFO
| WARNING
| ERROR
| CRITICAL.

Definition severity_rank (s : severity) : nat :=
  match s with
  | DEBUG => 0 | INFO => 1 | WARNING => 2 | ERROR => 3 | CRITICAL => 4
  end%nat.

Section Store.

(** The type of the measured quantities (value, standard error, sample
    size). *)
Context {V : Type}.

(** Modelled from the spec: the record [CovidcastRow] of the missing
    [database.py], with the natural key (source, signal, time_type,
    time_value, geo_type, geo_value), the three measured quantities with
    their missing-value codes, the issue and the lag, in the order in which
    the test builds one. *)
Record CovidcastRow : Type := {
  source : string;
  signal : string;
  time_type : string;
  geo_type : string;
  time_value : Z;
  geo_value : string;
  value : V;
  stderr : V;
  sample_size : V;
  missing_value : Z;
  missing_stderr : Z;
  missing_sample_size : Z;
  issue : Z;
  lag : Z
}.

(** Modelled from the spec: the columns that Latest and History of the
    missing [database.py] store as they come: all of a row but the text of
    its source, signal and geography, which the dimension tables hold. *)
Record Columns : Type := {
  c_time_type : string;
  c_time_value : Z;
  c_value : V;
  c_stderr : V;
  c_sample_size : V;
  c_missing_value : Z;
  c_missing_stderr : Z;
  c_missing_sample_size : Z;
  c_issue : Z;
  c_lag : Z
}.

Definition columns_of (r : CovidcastRow) : Columns := {|
  c_time_type := time_type r;
  c_time_value := time_value r;
  c_value := value r;
  c_stderr := stderr r;
  c_sample_size := sample_size r;
  c_missing_value := missing_value r;
  c_missing_stderr := missing_stderr r;
  c_missing_sample_size := missing_sample_size r;
  c_issue := issue r;
  c_lag := lag r
|}.

(** Modelled from the spec: a row of the load table of the missing
    [database.py]: the row with its auto-incremented surrogate id. *)
Record LoadRow : Type := {
  load_id : nat;
  load_row : CovidcastRow
}.

(** Modelled from the spec: a row of [signal_latest] or [signal_history]
    of the missing [database.py]: the surrogate id, the two dimension keys
    and the remaining columns. *)
Record StoredRow : Type := {
  signal_data_id : nat;
  signal_key_id : nat;
  geo_key_id : nat;
  columns : Columns
}.

(** Modelled from the spec: the tables of the missing [database.py]. A
    dimension table is the list of its entries, the key id of an entry
    being its position; [auto_increment] is the counter that feeds the
    surrogate ids of the load table. *)
Record Database : Type := {
  signal_load : list LoadRow;
  signal_latest : list StoredRow;
  signal_history : list StoredRow;
  signal_dim : list (string * string);
  geo_dim : list (string * string);
  auto_increment : nat
}.

Definition empty_database : Database := {|
  signal_load := [];
  signal_latest := [];
  signal_history := [];
  signal_dim := [];
  geo_dim := [];
  auto_increment := 1
|}.

(** Modelled from the spec: the lookup in a dimension table of the missing
    [database.py]: the position of an entry. *)
Fixpoint dim_index (k : string * string) (dim : list (string * string))
    : option nat :=
  match dim with
  | [] => None
  | k' :: rest =>
      if bool_decide (k' = k) then Some O else S <$> dim_index k rest
  end.

(** Modelled from the spec: the idempotent lookup of a dimension entry,
    appended when it is not there yet. *)
Definition resolve_dim (k : string * string) (dim : list (string * string))
    : nat * list (string * string) :=
  match dim_index k dim with
  | Some i => (i, dim)
  | None => (length dim, dim ++ [k])
  end.

(** Modelled from the spec: the natural key as the tables of the missing
    [database.py] store it: dimension keys, time type and time value. *)
Definition stored_key (s : StoredRow) : nat * nat * string * Z :=
  (signal_key_id s, geo_key_id s,
   c_time_type (columns s), c_time_value (columns s)).

Definition stored_issue (s : StoredRow) : Z := c_issue (columns s).

Definition same_key (a b : StoredRow) : bool :=
  bool_decide (stored_key a = stored_key b).

Definition same_key_issue (a b : StoredRow) : bool :=
  same_key a b && bool_decide (stored_issue a = stored_issue b).

(** Modelled from the spec: step 2 of the missing
    [insert_or_update_batch]: each row enters the load table with a fresh
    surrogate id. *)
Fixpoint load_rows (rows : list CovidcastRow) (db : Database) : Database :=
  match rows with
  | [] => db
  | r :: rest =>
      load_rows rest {|
        signal_load := signal_load db ++
          [{| load_id := auto_increment db; load_row := r |}];
        signal_latest := signal_latest db;
        signal_history := signal_history db;
        signal_dim := signal_dim db;
        geo_dim := geo_dim db;
        auto_increment := S (auto_increment db)
      |}
  end.

(** Modelled from the spec: step 3 of the missing
    [insert_or_update_batch]: the dimension entries of every loaded row are
    resolved or created; the rows come back with their dimension keys. *)
Fixpoint resolve_dims (loaded : list LoadRow)
    (sdim gdim : list (string * string))
    : list StoredRow * list (string * string) * list (string * string) :=
  match loaded with
  | [] => ([], sdim, gdim)
  | l :: rest =>
      let r := load_row l in
      let (sk, sdim) := resolve_dim (source r, signal r) sdim in
      let (gk, gdim) := resolve_dim (geo_type r, geo_value r) gdim in
      let '(resolved, sdim, gdim) := resolve_dims rest sdim gdim in
      ({| signal_data_id := load_id l; signal_key_id := sk;
          geo_key_id := gk; columns := columns_of r |} :: resolved,
       sdim, gdim)
  end.

(** Modelled from the spec: step 4 of the missing
    [insert_or_update_batch] for one row: appended to History unless a row
    of the same natural key and issue is there, which is left as it is. *)
Definition history_step (history : list StoredRow) (s : StoredRow)
    : list StoredRow :=
  if existsb (same_key_issue s) history then history else history ++ [s].

(** Modelled from the spec: step 5 of the missing
    [insert_or_update_batch] for one row: installed in Latest when the
    natural key is new, replaces the Latest row of a lower issue, and is
    ignored otherwise. *)
Definition latest_step (latest : list StoredRow) (s : StoredRow)
    : list StoredRow :=
  match find (same_key s) latest with
  | None => latest ++ [s]
  | Some old =>
      if stored_issue old <? stored_issue s
      then filter (λ x, same_key s x = false) latest ++ [s]
      else latest
  end.

(** What a call leaves behind: whether it raised, what it logged and the
    database. *)
Record outcome : Type := {
  raised : result unit;
  logged : list (severity * string);
  after : Database
}.

(** Modelled from the spec: [Database.insert_or_update_batch] of the missing
    [database.py], in the five steps of the specification. The load table
    is a transient staging area, so a batch that went through leaves it
    empty. *)
Definition insert_or_update_batch (rows : list CovidcastRow) (db : Database)
    : outcome :=
  match signal_load db with
  | _ :: _ =>
      {| raised := Raise IntegrityError;
         logged := [(CRITICAL, "Non-zero count in the load table!!!")];
         after := db |}
  | [] =>
      let db := load_rows rows db in
      let '(resolved, sdim, gdim) :=
        resolve_dims (signal_load db) (signal_dim db) (geo_dim db) in
      let history := foldl history_step (signal_history db) resolved in
      let latest := foldl latest_step (signal_latest db) resolved in
      {| raised := Ok tt;
         logged := [];
         after := {|
           signal_load := [];
           signal_latest := latest;
           signal_history := history;
           signal_dim := sdim;
           geo_dim := gdim;
           auto_increment := auto_increment db
         |} |}
  end.

(** A sequence of calls, each on the database the previous one left. *)
Definition insert_batches (batches : list (list CovidcastRow)) (db : Database)
    : Database :=
  foldl (λ db rows, after (insert_or_update_batch rows db)) db batches.

(** Modelled from the spec: a row of the views [signal_latest_v] and
    [signal_history_v], which are declared outside the files at hand: the
    dimension keys joined back onto the text they stand for. *)
Record ViewRow : Type := {
  v_signal_data_id : nat;
  v_source : string;
  v_signal : string;
  v_geo_type : string;
  v_geo_value : string;
  v_columns : Columns
}.

Definition view_row (db : Database) (s : StoredRow) : option ViewRow :=
  match signal_dim db !! signal_key_id s, geo_dim db !! geo_key_id s with
  | Some (src, sig), Some (gt, gv) =>
      Some {| v_signal_data_id := signal_data_id s;
              v_source := src; v_signal := sig;
              v_geo_type := gt; v_geo_value := gv;
              v_columns := columns s |}
  | _, _ => None
  end.

Definition signal_latest_v (db : Database) : list ViewRow :=
  omap (view_row db) (signal_latest db).

Definition signal_history_v (db : Database) : list ViewRow :=
  omap (view_row db) (signal_history db).

(** The natural key and the issue of a view row and of an incoming row. *)
Definition natural_key (v : ViewRow)
    : string * string * string * Z * string * string :=
  (v_source v, v_signal v, c_time_type (v_columns v),
   c_time_value (v_columns v), v_geo_type v, v_geo_value v).

Definition v_issue (v : ViewRow) : Z := c_issue (v_columns v).

Definition row_key (r : CovidcastRow)
    : string * string * string * Z * string * string :=
  (source r, signal r, time_type r, time_value r, geo_type r, geo_value r).

(** *** Consistency of the tables *)

(** History and Latest are linked: History holds one row per natural key
    and issue, Latest one row per natural key, which is a row of History,
    and no row of History has a higher issue than the Latest row of its
    key. *)
Record linked (history latest : list StoredRow) : Prop := {
  history_unique : ∀ a b,
    a ∈ history → b ∈ history →
    stored_key a = stored_key b → stored_issue a = stored_issue b → a = b;
  latest_unique : ∀ a b,
    a ∈ latest → b ∈ latest → stored_key a = stored_key b → a = b;
  latest_in_history : ∀ l, l ∈ latest → l ∈ history;
  latest_highest : ∀ h,
    h ∈ history →
    ∃ l, l ∈ latest ∧ stored_key l = stored_key h
         ∧ stored_issue h ≤ stored_issue l
}.

(** A stored row [s] is the loaded row [l] with its dimension keys resolved
    in the dimension tables [sdim] and [gdim]. *)
Definition resolved_from (sdim gdim : list (string * string))
    (l : LoadRow) (s : StoredRow) : Prop :=
  signal_data_id s = load_id l
  ∧ columns s = columns_of (load_row l)
  ∧ sdim !! signal_key_id s = Some (source (load_row l), signal (load_row l))
  ∧ gdim !! geo_key_id s = Some (geo_type (load_row l), geo_value (load_row l)).

(** The state between two batches: the load table is empty, the dimension
    tables have no entry twice, the rows of History refer to entries of the
    dimension tables and carry surrogate ids that were handed out, and
    History and Latest are linked. *)
Record consistent (db : Database) : Prop := {
  load_empty : signal_load db = [];
  signal_dim_NoDup : NoDup (signal_dim db);
  geo_dim_NoDup : NoDup (geo_dim db);
  keys_in_range : ∀ s,
    s ∈ signal_history db →
    (signal_key_id s < length (signal_dim db))%nat
    ∧ (geo_key_id s < length (geo_dim db))%nat;
  ids_below : ∀ s,
    s ∈ signal_history db → (signal_data_id s < auto_increment db)%nat;
  tables_linked : linked (signal_history db) (signal_latest db)
}.

End Store.

Arguments CovidcastRow : clear implicits.
Arguments Columns : clear implicits.
Arguments LoadRow : clear implicits.
Arguments StoredRow : clear implicits.
Arguments Database : clear implicits.
Arguments outcome : clear implicits.
Arguments ViewRow : clear implicits.

End SignalDb.

(** ** The covidcast nowcast endpoint

    The endpoint is exercised by
    [integrations/server/test_covidcast_nowcast.py], its code is not among
    the files at hand; the selection of rows is modelled from the
    specification. *)

Module Nowcast.

Section Endpoint.

(** The type of nowcast values. *)
Context {V : Type}.

(** Modelled from the spec: a row of the table [covidcast_nowcast], natural
    key (source, signal, sensor_name, time_type, time_value, geo_type,
    geo_value), versioned by issue. *)
Record NowcastRow : Type := {
  source : string;
  signal : string;
  sensor_name : string;
  time_type : string;
  geo_type : string;
  time_value : Z;
  geo_value : string;
  value : V;
  issue : Z;
  lag : Z
}.

(** Modelled from the spec: the filters of a request, with the optional
    issue selectors [issues] and [as_of]. *)
Record NowcastQuery : Type := {
  data_source : string;
  signals : list string;
  sensor_names : list string;
  q_time_type : string;
  q_geo_type : string;
  time_values : list Z;
  q_geo_value : string;
  issues : option (list Z);
  as_of : option Z
}.

(** Modelled from the spec: the shape of a result row of the missing
    endpoint. *)
Record ResultRow : Type := {
  r_signal : string;
  r_time_value : Z;
  r_geo_value : string;
  r_value : V;
  r_issue : Z;
  r_lag : Z
}.

Definition result_row (r : NowcastRow) : ResultRow := {|
  r_signal := signal r;
  r_time_value := time_value r;
  r_geo_value := geo_value r;
  r_value := value r;
  r_issue := issue r;
  r_lag := lag r
|}.

Definition key (r : NowcastRow)
    : string * string * string * string * Z * string * string :=
  (source r, signal r, sensor_name r, time_type r, time_value r,
   geo_type r, geo_value r).

Definition same_key (a b : NowcastRow) : bool :=
  bool_decide (key a = key b).

(** Modelled from the spec: the filters of the missing endpoint other than
    the issue selector. *)
Definition matches (q : NowcastQuery) (r : NowcastRow) : bool :=
  bool_decide (source r = data_source q)
  && bool_decide (signal r ∈ signals q)
  && bool_decide (sensor_name r ∈ sensor_names q)
  && bool_decide (time_type r = q_time_type q)
  && bool_decide (geo_type r = q_geo_type q)
  && bool_decide (time_value r ∈ time_values q)
  && bool_decide (geo_value r = q_geo_value q).

(** The highest issue among rows, if there is a row. *)
Fixpoint highest_issue (rows : list NowcastRow) : option Z :=
  match rows with
  | [] => None
  | r :: rest =>
      match highest_issue rest with
      | None => Some (issue r)
      | Some m => Some (Z.max (issue r) m)
      end
  end.

(** The stored rows of the natural key of [r] whose issue is within the
    bound, when there is one. *)
Definition versions (bound : option Z) (rows : list NowcastRow)
    (r : NowcastRow) : list NowcastRow :=
  List.filter
    (λ r', same_key r r'
           && match bound with Some b => issue r' <=? b | None => true end)
    rows.

(** [r] carries the highest issue of its natural key within the bound. *)
Definition is_highest (bound : option Z) (rows : list NowcastRow)
    (r : NowcastRow) : bool :=
  bool_decide (highest_issue (versions bound rows r) = Some (issue r)).

(** Modelled from the spec: the issue-selection policy of the missing
    endpoint: explicit issues first, else the [as_of] bound, else the
    highest issue overall. *)
Definition select (q : NowcastQuery) (rows : list NowcastRow) : list NowcastRow :=
  let matching := List.filter (matches q) rows in
  match issues q with
  | Some wanted =>
      List.filter (λ r, bool_decide (issue r ∈ wanted)) matching
  | None =>
      match as_of q with
      | Some bound => List.filter (is_highest (Some bound) rows) matching
      | None => List.filter (is_highest None rows) matching
      end
  end.

(** The rows of the response. *)
Definition epidata (q : NowcastQuery) (rows : list NowcastRow) : list ResultRow :=
  map result_row (select q rows).

End Endpoint.

Arguments NowcastRow : clear implicits.
Arguments NowcastQuery : clear implicits.
Arguments ResultRow : clear implicits.

End Nowcast.

(** ** The hospitalization acquisition pipeline

    [acquisition/covid_hosp] is exercised by
    [integrations/acquisition/covid_hosp/state_daily/test_scenarios.py], its
    code is not among the files at hand; the run is modelled from the
    specification. *)

Module CovidHosp.

Section Pipeline.

(** The type of the metrics of a record (some sixty nullable numbers) and
    the type of a batch location. *)
Context {Metrics Location : Type}.

(** Modelled from the spec: a row as the upstream of the missing pipeline
    delivers it, before it is stamped with the issue of its batch. *)
Record DatasetRow : Type := {
  d_state : string;
  d_date : Z;
  d_metrics : Metrics
}.

(** Modelled from the spec: a TimeseriesRecord, natural key (state, date),
    versioned by issue. *)
Record TimeseriesRecord : Type := {
  state : string;
  date : Z;
  issue : Z;
  metrics : Metrics
}.

(** Modelled from the spec: the upstream as the pipeline sees it.
    [fetch_metadata] lists, per batch partition, its issue and its location;
    [fetch_dataset] returns the rows of a partition. Both are pure network
    reads; their failures propagate and are not part of the model. *)
Record Network : Type := {
  fetch_metadata : list (Z * Location);
  fetch_dataset : Location → list DatasetRow
}.

(** Dates are integers YYYYMMDD; the epoch sentinel is 1900-01-01. *)
Definition epoch : Z := 19000101.

(** Modelled from the spec: [get_max_issue], the maximum issue stored, or the
    epoch sentinel when storage is empty. *)
Definition get_max_issue (storage : list TimeseriesRecord) : Z :=
  foldr (λ r m, Z.max (issue r) m) epoch storage.

(** The key of the upsert. *)
Definition version (r : TimeseriesRecord) : string * Z * Z :=
  (state r, date r, issue r).

Definition same_version (a b : TimeseriesRecord) : bool :=
  bool_decide (state a = state b) && bool_decide (date a = date b)
  && bool_decide (issue a = issue b).

(** Modelled from the spec: the upsert keyed by (state, date, issue): a
    record that is stored already has its values overwritten, another one
    is added. *)
Fixpoint upsert (r : TimeseriesRecord) (storage : list TimeseriesRecord)
    : list TimeseriesRecord :=
  match storage with
  | [] => [r]
  | x :: rest => if same_version x r then r :: rest else x :: upsert r rest
  end.

Definition upsert_all (rs : list TimeseriesRecord)
    (storage : list TimeseriesRecord) : list TimeseriesRecord :=
  foldl (λ st r, upsert r st) storage rs.

(** Modelled from the spec: the issues that the missing [Update.run] takes
    for new: those of the metadata above [max_issue], each once, in
    increasing order. *)
Definition new_issues (net : Network) (max_issue : Z) : list Z :=
  merge_sort Z.le
    (remove_dups (List.filter (λ i, max_issue <? i) (fetch_metadata net).*1)).

(** Modelled from the spec: the partitions of one issue fetched by the
    missing [Update.run] and merged into the records of that issue. *)
Definition issue_records (net : Network) (i : Z) : list TimeseriesRecord :=
  let partitions :=
    List.filter (λ m, bool_decide (m.1 = i)) (fetch_metadata net) in
  flat_map
    (λ m, map (λ d, {| state := d_state d; date := d_date d; issue := i;
                       metrics := d_metrics d |})
              (fetch_dataset net m.2))
    partitions.

(** Modelled from the spec: [Update.run] of the missing pipeline: the
    metadata is compared with the maximum issue stored, the issues that are
    newer are fetched and upserted in increasing order, and the run reports
    whether there was any. *)
Definition run (net : Network) (storage : list TimeseriesRecord)
    : bool * list TimeseriesRecord :=
  match new_issues net (get_max_issue storage) with
  | [] => (false, storage)
  | fresh =>
      (true, foldl (λ st i, upsert_all (issue_records net i) st) storage fresh)
  end.

End Pipeline.

Arguments DatasetRow : clear implicits.
Arguments TimeseriesRecord : clear implicits.
Arguments Network : clear implicits.

End CovidHosp.


(** ** More of the query engine: projection and execution *)

Module Projection.

Import Query.

Section FilterFields.

Context {A : Type}.

(** [filtered = dict()] and then
    [for field in fields: if field in row: filtered[field] = row[field]]. *)
Fixpoint keep_fields (fields : list string) (row filtered : gmap string A)
    : gmap string A :=
  match fields with
  | [] => filtered
  | field :: rest =>
      keep_fields rest row
        (match row !! field with
         | Some v => <[field := v]> filtered
         | None => filtered
         end)
  end.

(** [filter_fields]: [fields] is what [extract_strings("fields")] returned,
    the generator is the list of the rows it yields. *)
Definition filter_fields (fields : option (list string))
    (generator : list (gmap string A)) : list (gmap string A) :=
  if negb (truthy_seq fields) then generator
  else map (λ row, keep_fields (default [] fields) row ∅) generator.

End FilterFields.

End Projection.

Module Execution.

Import Query.

(** [set(extract_strings("fields") or [])] in [execute_queries]. *)
Definition fields_to_send (fields : option (list string)) : gset string :=
  list_to_set (default [] fields).

(** [[v for v in l if v in fields_to_send]], under [if fields_to_send:]: one
    of the three field lists of [execute_queries] as [parse_row] gets it. *)
Definition to_send (fields : option (list string)) (l : list string)
    : list string :=
  if bool_decide (fields_to_send fields = ∅) then l
  else List.filter (λ v, bool_decide (v ∈ fields_to_send fields)) l.

Section Rows.

Context `{Conversions F}.

(** The row that [gen()] of [execute_queries] yields for a row of a
    result. *)
Definition execute_queries_row (fields : option (list string))
    (fields_string fields_int fields_float : list string)
    (row : gmap string (cell F)) : result (gmap string (cell F)) :=
  parse_row row (Some (to_send fields fields_string))
    (Some (to_send fields fields_int)) (Some (to_send fields fields_float)).

(** The list comprehension of [parse_result] over the rows that the query
    returned: the first row that fails to parse raises. *)
Fixpoint parse_rows (rows : list (gmap string (cell F)))
    (fields_string fields_int fields_float : option (list string))
    : result (list (gmap string (cell F))) :=
  match rows with
  | [] => Ok []
  | row :: rest =>
      rbind (parse_row row fields_string fields_int fields_float) (λ parsed,
      rbind (parse_rows rest fields_string fields_int fields_float) (λ more,
        Ok (parsed :: more)))
  end.

(** [parse_result], given the rows of [db.execute(text(query), **params)]. *)
Definition parse_result (executed : list (gmap string (cell F)))
    (fields_string fields_int fields_float : option (list string))
    : result (list (gmap string (cell F))) :=
  parse_rows executed fields_string fields_int fields_float.

End Rows.

End Execution.

(** ** Shapes of filter values *)

Module Shapes.

Import Query.

(** A range cut after its second item; a scalar as it is. *)
Definition cut_range (v : filter_value) : filter_value :=
  match v with
  | Scalar a => Scalar a
  | Tuple items => Tuple (take 2 items)
  end.

(** Both values are scalars, or both are ranges. *)
Definition same_shape (v v' : filter_value) : Prop :=
  match v, v' with
  | Scalar _, Scalar _ | Tuple _, Tuple _ => True
  | _, _ => False
  end.

End Shapes.

(** ** Reading digits back *)

Module Digits.

(** The value of a decimal digit, if the character is one. *)
Definition digit_value (c : ascii) : option Z :=
  let n := Z.of_N (N_of_ascii c) in
  if (48 <=? n) && (n <=? 57) then Some (n - 48) else None.

(** The number that a string of decimal digits writes, leading zeros
    allowed; [None] when a character is not a digit. *)
Fixpoint digits_value_from (acc : Z) (s : string) : option Z :=
  match s with
  | EmptyString => Some acc
  | String c s' =>
      match digit_value c with
      | Some d => digits_value_from (10 * acc + d) s'
      | None => None
      end
  end.

Definition digits_value (s : string) : option Z := digits_value_from 0 s.

End Digits.
(** * Properties *)

(** ** Strings *)

#[local] Arguments String.append !_ _ / : simpl nomatch.

Section Strings.

Lemma string_app_assoc (a b c : string) : (a +:+ b) +:+ c = a +:+ (b +:+ c).
Proof. induction a as [|x a IH]; simpl; [done | by f_equal/=]. Qed.

Lemma string_app_nil_r (a : string) : a +:+ "" = a.
Proof. induction a as [|x a IH]; simpl; [done | by f_equal/=]. Qed.

(** Two ways of cutting one string: one of the heads extends the other. *)
Lemma string_app_eq_split (a b x y : string) :
  a +:+ x = b +:+ y →
  (∃ t, b = a +:+ t ∧ x = t +:+ y) ∨ (∃ t, a = b +:+ t ∧ y = t +:+ x).
Proof.
  revert b. induction a as [|c a IH]; intros b H; simpl in *.
  - left. by exists b.
  - destruct b as [|d b]; simpl in *.
    + right. by exists (String c a).
    + injection H as -> H. destruct (IH _ H) as [(t & -> & ->)|(t & -> & ->)].
      * left. by exists t.
      * right. by exists t.
Qed.

Lemma startswith_spec (s p : string) :
  startswith s p = true ↔ ∃ rest, s = p +:+ rest.
Proof.
  unfold startswith. revert s.
  induction p as [|c p IH]; intros [|d s]; simpl.
  - split; [by exists "" | done].
  - split; [by exists (String d s) | done].
  - split; [done | by intros [? ?]].
  - destruct (Ascii.ascii_dec c d) as [->|Hne].
    + rewrite IH. split; intros [rest ?]; exists rest; congruence.
    + split; [done | intros [rest ?]; congruence].
Qed.

Lemma string_drop_app (p rest : string) :
  string_drop (String.length p) (p +:+ rest) = rest.
Proof. induction p as [|c p IH]; simpl; [by destruct rest | done]. Qed.

Lemma no_underscore_app (a b : string) :
  no_underscore a → no_underscore b → no_underscore (a +:+ b).
Proof. induction a as [|c a IH]; simpl; [done | intros [? ?] ?; split; auto]. Qed.

Lemma pretty_N_char_no_underscore (x : N) : pretty_N_char x ≠ "_"%char.
Proof. unfold pretty_N_char. by repeat case_match. Qed.

Lemma pretty_N_go_no_underscore (x : N) (s : string) :
  no_underscore s → no_underscore (pretty_N_go x s).
Proof.
  revert s. induction (N.lt_wf_0 x) as [x _ IH]; intros s Hs.
  assert (x = 0 ∨ 0 < x)%N as [->|Hpos] by lia.
  - by rewrite pretty_N_go_0.
  - rewrite pretty_N_go_step by done. apply IH.
    + by apply N.div_lt.
    + simpl. split; [apply pretty_N_char_no_underscore | done].
Qed.

(** The decimal rendering of an index has no underscore. *)
Lemma str_of_nat_no_underscore (i : nat) : no_underscore (str_of_nat i).
Proof.
  unfold str_of_nat, pretty, pretty_nat, pretty, pretty_N.
  case_decide.
  - simpl. split; [done | done].
  - by apply pretty_N_go_no_underscore.
Qed.

Lemma str_of_nat_inj (i j : nat) : str_of_nat i = str_of_nat j → i = j.
Proof. unfold str_of_nat. apply (inj pretty). Qed.

(** Underscore-free heads followed by nothing or by ["_2"]: the heads and
    the tails agree. *)
Lemma suffixed_inj (a b e1 e2 : string) :
  no_underscore a → no_underscore b →
  e1 = "" ∨ e1 = "_2" → e2 = "" ∨ e2 = "_2" →
  a +:+ e1 = b +:+ e2 → a = b ∧ e1 = e2.
Proof.
  revert b. induction a as [|c a IH]; intros b Ha Hb H1 H2 H; simpl in *.
  - destruct b as [|d b]; simpl in *; [done |].
    destruct Hb as [Hd _]. destruct H1 as [->| ->]; [done |].
    injection H as Hc _. by subst d.
  - destruct Ha as [Hc Ha]. destruct b as [|d b]; simpl in *.
    + destruct H2 as [->| ->]; [done |]. injection H as Hd _. by subst c.
    + destruct Hb as [_ Hb]. injection H as -> H.
      destruct (IH b Ha Hb H1 H2 H) as [-> ->]. done.
Qed.

End Strings.

(** ** The query engine *)

Section FilterValues.

Import Query QuerySpec.

Lemma spec_names_from_cons i v values pk :
  spec_names_from i (v :: values) pk
  = spec_names (spec_param pk i) v ++ spec_names_from (S i) values pk.
Proof.
  unfold spec_names_from. rewrite imap_cons. simpl. rewrite Nat.add_0_r.
  do 2 f_equal. apply imap_ext. intros j x _. simpl. do 2 f_equal. lia.
Qed.

Lemma spec_predicates_from_cons field i v values pk :
  spec_predicates_from field i (v :: values) pk
  = spec_predicate field (spec_param pk i) v
    :: spec_predicates_from field (S i) values pk.
Proof.
  unfold spec_predicates_from. rewrite imap_cons. simpl. rewrite Nat.add_0_r.
  f_equal. apply imap_ext. intros j x _. simpl. do 2 f_equal. lia.
Qed.

(** Every generated name is the name of an index, followed by nothing or by
    ["_2"]. *)
Lemma spec_names_from_shape i values pk x :
  x ∈ spec_names_from i values pk →
  ∃ j e, (i ≤ j)%nat ∧ (e = "" ∨ e = "_2") ∧ x = spec_param pk j +:+ e.
Proof.
  revert i. induction values as [|v values IH]; intros i Hx.
  - by apply elem_of_nil in Hx.
  - rewrite spec_names_from_cons in Hx. apply elem_of_app in Hx as [Hx|Hx].
    + destruct v; simpl in Hx.
      * apply list_elem_of_singleton in Hx as ->.
        exists i, "". rewrite string_app_nil_r. auto.
      * apply elem_of_cons in Hx as [->|Hx].
        -- exists i, "". rewrite string_app_nil_r. auto.
        -- apply list_elem_of_singleton in Hx as ->. exists i, "_2". auto.
    + destruct (IH _ Hx) as (j & e & ? & ? & ?). exists j, e.
      split; [lia | done].
Qed.

Lemma spec_param_suffixed_inj pk i j e1 e2 :
  e1 = "" ∨ e1 = "_2" → e2 = "" ∨ e2 = "_2" →
  spec_param pk i +:+ e1 = spec_param pk j +:+ e2 → i = j ∧ e1 = e2.
Proof.
  intros H1 H2 H. unfold spec_param in H. rewrite !string_app_assoc in H.
  apply (inj (String.append pk)) in H. apply (inj (String.append "_")) in H.
  destruct (suffixed_inj _ _ _ _ (str_of_nat_no_underscore i)
              (str_of_nat_no_underscore j) H1 H2 H) as [Hij ?].
  split; [by apply str_of_nat_inj | done].
Qed.

(** Within one call no name is generated twice. *)
Lemma spec_names_from_NoDup i values pk : NoDup (spec_names_from i values pk).
Proof.
  revert i. induction values as [|v values IH]; intros i.
  - constructor.
  - rewrite spec_names_from_cons. apply NoDup_app. split_and!.
    + destruct v; simpl.
      * apply NoDup_singleton.
      * apply NoDup_cons. split; [|apply NoDup_singleton].
        intros Hin%list_elem_of_singleton.
        assert (spec_param pk i +:+ "" = spec_param pk i +:+ "_2") as Heq
          by (by rewrite string_app_nil_r).
        by apply spec_param_suffixed_inj in Heq as [_ ?]; auto.
    + intros x Hx Hx'. apply spec_names_from_shape in Hx' as (j & e & Hj & He & ->).
      assert (∃ e', (e' = "" ∨ e' = "_2") ∧ spec_param pk j +:+ e = spec_param pk i +:+ e')
        as (e' & He' & Heq).
      { destruct v; simpl in Hx.
        - apply list_elem_of_singleton in Hx. exists "".
          rewrite string_app_nil_r. auto.
        - apply elem_of_cons in Hx as [Hx|Hx%list_elem_of_singleton].
          + exists "". rewrite string_app_nil_r. auto.
          + exists "_2". auto. }
      apply spec_param_suffixed_inj in Heq as [? _]; [lia | done | done].
    + apply IH.
Qed.

(** Names of calls whose [param_key]s do not extend one another are
    different. *)
Lemma spec_names_from_disjoint i1 i2 values1 values2 pk1 pk2 x :
  ¬ extends pk1 pk2 → ¬ extends pk2 pk1 →
  x ∈ spec_names_from i1 values1 pk1 → x ∉ spec_names_from i2 values2 pk2.
Proof.
  intros H12 H21 (j1 & e1 & _ & _ & ->)%spec_names_from_shape
    (j2 & e2 & _ & _ & Heq)%spec_names_from_shape.
  unfold spec_param in Heq. rewrite !string_app_assoc in Heq.
  apply string_app_eq_split in Heq as [(t & -> & Ht)|(t & -> & Ht)].
  - apply H12. destruct t as [|c t]; [left; by rewrite string_app_nil_r|].
    simpl in Ht. injection Ht as <- _. right. by exists t.
  - apply H21. destruct t as [|c t]; [left; by rewrite string_app_nil_r|].
    simpl in Ht. injection Ht as <- _. right. by exists t.
Qed.

Lemma spec_names_from_fresh i v values pk x :
  x ∈ spec_names (spec_param pk i) v → x ∉ spec_names_from (S i) values pk.
Proof.
  intros Hx. pose proof (spec_names_from_NoDup i (v :: values) pk) as Hnd.
  rewrite spec_names_from_cons in Hnd. apply NoDup_app in Hnd as (_ & Hnd & _).
  by apply Hnd.
Qed.

Lemma list_to_map_zip_fresh (names : list string) (bound : list atom) x :
  x ∉ names → (list_to_map (zip names bound) : params) !! x = None.
Proof.
  intros Hx. apply not_elem_of_list_to_map_1. intros Hin. apply Hx.
  apply list_elem_of_fmap in Hin as ([k b] & -> & Hin). simpl.
  by apply elem_of_zip_l in Hin.
Qed.

Lemma bind_ok {A B} (m : M A) (k : A → M B) (p p' : params) a :
  m p = (Ok a, p') → bind m k p = k a p'.
Proof. unfold bind. by intros ->. Qed.

(** One value: the predicate of the specification, and the names of the
    value bound, in order, to the formatted atoms. *)
Lemma to_condition_spec field fmt name v (p : params) bound :
  scalar_or_pair v = true →
  Forall2 (λ a b, fmt a = Ok b) (spec_atoms v) bound →
  to_condition field v name fmt p
  = (Ok (spec_predicate field name v),
     foldl (λ (q : params) kb, <[kb.1 := kb.2]> q) p (zip (spec_names name v) bound)).
Proof.
  intros Hv Hb. destruct v as [a|items]; simpl in *.
  - apply Forall2_cons_inv_l in Hb as (b & ? & Hb & ->%Forall2_nil_inv_l & ->).
    unfold bind, lift, setitem, ret. by rewrite Hb.
  - destruct items as [|a0 [|a1 [|? ?]]]; try done.
    apply Forall2_cons_inv_l in Hb as (b0 & ? & Hb0 & Hb & ->).
    apply Forall2_cons_inv_l in Hb as (b1 & ? & Hb1 & ->%Forall2_nil_inv_l & ->).
    unfold bind, lift, setitem, ret, getitem. simpl. by rewrite Hb0, Hb1.
Qed.

(** The comprehension of [filter_values] against the clause the
    specification words: the same predicates, and every generated name bound
    to the formatted value at its position. *)
Lemma conditions_from_spec field fmt pk values :
  ∀ i (p : params) bound,
    Forall (λ v, scalar_or_pair v = true) values →
    Forall2 (λ a b, fmt a = Ok b) (bound_atoms values) bound →
    conditions_from field i values pk fmt p
    = (Ok (spec_predicates_from field i values pk),
       list_to_map (zip (spec_names_from i values pk) bound) ∪ p).
Proof.
  induction values as [|v values IH]; intros i p bound Hwf Hfmt.
  - apply Forall2_nil_inv_l in Hfmt as ->. simpl. unfold ret.
    by rewrite (left_id_L ∅ (∪)).
  - apply Forall_cons in Hwf as [Hv Hwf].
    unfold bound_atoms in Hfmt. simpl in Hfmt.
    apply Forall2_app_inv_l in Hfmt as (b1 & b2 & Hb1 & Hb2 & ->).
    rewrite spec_names_from_cons, spec_predicates_from_cons.
    simpl. fold (spec_param pk i).
    erewrite bind_ok; [|by apply to_condition_spec].
    erewrite bind_ok; [|by apply IH].
    unfold ret. f_equal.
    assert (∀ x, x ∈ spec_names (spec_param pk i) v →
              (list_to_map (zip (spec_names_from (S i) values pk) b2) : params) !! x = None)
      as Hfresh.
    { intros x Hx. eapply list_to_map_zip_fresh, spec_names_from_fresh, Hx. }
    destruct v as [a|items]; simpl in *.
    + apply Forall2_cons_inv_l in Hb1 as (b & ? & Hb & ->%Forall2_nil_inv_l & ->).
      simpl. rewrite <-insert_union_l, <-insert_union_r; [done |].
      apply Hfresh. set_solver.
    + destruct items as [|a0 [|a1 [|? ?]]]; try done.
      apply Forall2_cons_inv_l in Hb1 as (b0 & ? & Hb0 & Hb1 & ->).
      apply Forall2_cons_inv_l in Hb1 as (b1' & ? & Hb1' & ->%Forall2_nil_inv_l & ->).
      simpl. rewrite <-!insert_union_l.
      rewrite <-insert_union_r by (apply Hfresh; set_solver).
      rewrite <-insert_union_r by (apply Hfresh; set_solver).
      apply insert_insert_ne. intros Heq.
      assert (spec_param pk i +:+ "" = spec_param pk i +:+ "_2") as Heq'
        by (by rewrite string_app_nil_r).
      by apply spec_param_suffixed_inj in Heq' as [_ ?]; auto.
Qed.

(** C10. [filter_values] on an empty sequence of values returns the
    degenerate clause ["()"], leaves the bind-parameter dictionary as it was
    and does not fail, whatever the formatter. *)
Theorem filter_values_empty field param_key fmt (p : params) :
  filter_values field [] param_key fmt p = (Ok "()", p).
Proof. reflexivity. Qed.

(** C7, as amended. For values that are scalars or pairs and a formatter
    that accepts their atoms, [filter_values] returns one predicate per
    value, equality for a scalar and BETWEEN for a pair, OR-combined in one
    pair of parentheses, and binds every generated name to the formatted
    value at its position. The names of one call are pairwise distinct; the
    names of two calls are distinct when neither [param_key] is the other one
    followed by nothing or by a suffix that begins with an underscore. The
    field takes no part in the names. *)
Theorem filter_values_clause field values param_key fmt (p : params) bound :
  Forall (λ v, scalar_or_pair v = true) values →
  Forall2 (λ a b, fmt a = Ok b) (bound_atoms values) bound →
  filter_values field values param_key fmt p
  = (Ok (spec_clause field values param_key),
     list_to_map (zip (generated_names values param_key) bound) ∪ p)
  ∧ length (spec_predicates_from field 0 values param_key) = length values
  ∧ NoDup (generated_names values param_key)
  ∧ (∀ values' param_key' x,
       ¬ extends param_key param_key' → ¬ extends param_key' param_key →
       x ∈ generated_names values param_key →
       x ∉ generated_names values' param_key').
Proof.
  intros Hwf Hfmt. split_and!.
  - unfold filter_values. erewrite bind_ok; [|by apply conditions_from_spec].
    done.
  - unfold spec_predicates_from. by rewrite length_imap.
  - apply spec_names_from_NoDup.
  - intros values' pk' x H1 H2. by apply spec_names_from_disjoint.
Qed.

(** A date filter on a day and on a range of days. *)
Lemma filter_values_clause_witness :
  let values := [Scalar (AInt 20200101); Tuple [AInt 20200101; AInt 20200131]] in
  let bound := [AStr "2020-01-01"; AStr "2020-01-01"; AStr "2020-01-31"] in
  Forall (λ v, scalar_or_pair v = true) values
  ∧ Forall2 (λ a b, date_formatter a = Ok b) (bound_atoms values) bound
  ∧ filter_dates "time_value" values "t" ∅
    = (Ok "(time_value = :t_0 OR time_value BETWEEN :t_1 AND :t_1_2)",
       list_to_map (zip ["t_0"; "t_1"; "t_1_2"] bound) ∪ ∅).
Proof.
  intros values bound.
  assert (Forall (λ v, scalar_or_pair v = true) values) as Hwf
    by (repeat constructor).
  assert (Forall2 (λ a b, date_formatter a = Ok b) (bound_atoms values) bound)
    as Hfmt by (repeat constructor).
  split_and!; [done | done |].
  exact (proj1 (filter_values_clause "time_value" values "t" date_formatter ∅
                  bound Hwf Hfmt)).
Defined.

(** C7, as stated, fails: two helper calls on one field with one
    [param_key] generate the same name; both clauses refer to [:geo_0] and
    the dictionary keeps the second value only. *)
Lemma filter_values_names_collide :
  let first := filter_strings "geo_value" [Scalar (AStr "pa")] "geo" ∅ in
  let second := filter_strings "geo_value" [Scalar (AStr "ny")] "geo" first.2 in
  first.1 = Ok "(geo_value = :geo_0)"
  ∧ second.1 = Ok "(geo_value = :geo_0)"
  ∧ second.2 = {[ "geo_0" := AStr "ny" ]}
  ∧ ¬ NoDup (generated_names [Scalar (AStr "pa")] "geo"
             ++ generated_names [Scalar (AStr "ny")] "geo").
Proof.
  split_and!; [done | done | by vm_compute |].
  intros Hnd. apply NoDup_cons in Hnd as [Hnotin _]. apply Hnotin.
  vm_compute. apply list_elem_of_singleton. done.
Qed.

End FilterValues.

Section ParseRow.

Import Query.

Context `{Conversions F}.

Implicit Types (row parsed : gmap string (cell F)) (fields : list string).

Lemma store_strings_lookup row fields parsed f :
  store_strings row fields parsed !! f
  = if decide (f ∈ fields) then Some (row_get row f) else parsed !! f.
Proof.
  revert parsed. induction fields as [|g fields IH]; intros parsed;
    cbn [store_strings].
  - by rewrite decide_False by apply not_elem_of_nil.
  - rewrite IH. destruct (decide (f ∈ fields)) as [Hin|Hnin].
    + by rewrite decide_True by (by right).
    + destruct (decide (g = f)) as [->|Hne].
      * rewrite lookup_insert_eq. by rewrite decide_True by left.
      * rewrite lookup_insert_ne by done.
        rewrite decide_False; [done |]. by intros [?|?]%elem_of_cons.
Qed.

(** What a loop of coercions leaves for a field that the row does not
    have. *)
Lemma store_coerced_absent coerce row fields parsed parsed' f :
  store_coerced coerce row fields parsed = Ok parsed' →
  row !! f = None →
  parsed' !! f = if decide (f ∈ fields) then Some CNone else parsed !! f.
Proof.
  revert parsed. induction fields as [|g fields IH]; intros parsed Hok Hf;
    cbn [store_coerced] in Hok.
  - injection Hok as <-. by rewrite decide_False by apply not_elem_of_nil.
  - destruct (if row_contains row g then coerce (row_get row g) else Ok CNone)
      as [v|e] eqn:Hv; simpl in Hok; [|done].
    rewrite (IH _ Hok Hf). destruct (decide (f ∈ fields)) as [Hin|Hnin].
    + by rewrite decide_True by (by right).
    + destruct (decide (g = f)) as [->|Hne].
      * rewrite lookup_insert_eq, decide_True by left.
        unfold row_contains in Hv. rewrite Hf in Hv.
        rewrite bool_decide_eq_false_2 in Hv by (by intros [? ?]).
        by injection Hv as <-.
      * rewrite lookup_insert_ne by done.
        rewrite decide_False; [done |]. by intros [?|?]%elem_of_cons.
Qed.

(** A loop of coercions leaves the other fields alone. *)
Lemma store_coerced_other coerce row fields parsed parsed' f :
  store_coerced coerce row fields parsed = Ok parsed' →
  f ∉ fields → parsed' !! f = parsed !! f.
Proof.
  revert parsed. induction fields as [|g fields IH]; intros parsed Hok Hf;
    cbn [store_coerced] in Hok.
  - by injection Hok as <-.
  - destruct (if row_contains row g then coerce (row_get row g) else Ok CNone)
      as [v|e] eqn:Hv; simpl in Hok; [|done].
    apply not_elem_of_cons in Hf as [Hne Hf].
    rewrite (IH _ Hok Hf). by rewrite lookup_insert_ne.
Qed.

(** A null in a coerced field makes the loop raise. *)
Lemma store_coerced_null coerce row fields parsed f :
  (∃ e, coerce CNone = Raise e) → f ∈ fields → row !! f = Some CNone →
  ∃ e, store_coerced coerce row fields parsed = Raise e.
Proof.
  intros [e0 Hnone] Hin Hf. revert parsed.
  induction fields as [|g fields IH]; intros parsed; simpl.
  - by apply elem_of_nil in Hin.
  - destruct (decide (g = f)) as [->|Hne].
    + unfold row_contains, row_get. rewrite Hf. simpl.
      rewrite Hnone. by exists e0.
    + apply elem_of_cons in Hin as [->|Hin]; [done |].
      destruct (if row_contains row g then coerce (row_get row g) else Ok CNone)
        as [v|e]; simpl; [by apply IH | by exists e].
Qed.

(** The loop returns when every value it coerces is accepted. *)
Lemma store_coerced_total coerce row fields parsed :
  (∀ f c, f ∈ fields → row !! f = Some c → is_ok (coerce c) = true) →
  ∃ parsed', store_coerced coerce row fields parsed = Ok parsed'.
Proof.
  revert parsed. induction fields as [|g fields IH]; intros parsed Hok; simpl.
  - by exists parsed.
  - assert (∃ v, (if row_contains row g then coerce (row_get row g) else Ok CNone)
                 = Ok v) as [v ->].
    { unfold row_contains, row_get. destruct (row !! g) as [c|] eqn:Hg; simpl.
      - specialize (Hok g c (list_elem_of_here _ _) Hg).
        destruct (coerce c); [by eexists | done].
      - by eexists. }
    simpl. apply IH. intros f c Hin. apply Hok. by right.
Qed.

(** [parse_row] without the truthiness tests: an empty or missing list of
    fields is a loop that does nothing. *)
Lemma parse_row_unfold row fs fi ff :
  parse_row row fs fi ff
  = rbind (store_coerced py_int row (default [] fi)
             (store_strings row (default [] fs) ∅))
      (store_coerced py_float row (default [] ff)).
Proof.
  unfold Query.parse_row.
  destruct fs as [[|? ?]|], fi as [[|? ?]|], ff as [[|? ?]|]; simpl; try done;
    by match goal with |- rbind ?r _ = _ => destruct r end.
Qed.

(** C9. [parse_row] and missing values: when it returns, every declared
    field that the row lacks has an explicit [None] entry; a declared int or
    float field that the row holds as [None] makes it raise ([int(None)] and
    [float(None)] are type errors), so it returns only on rows without a
    null in a declared numeric field; a field declared as a string only is
    passed through as the row has it; and it does return when every value it
    has to coerce is accepted. *)
Theorem parse_row_none_and_null row fs fi ff :
  (∀ parsed f,
     parse_row row fs fi ff = Ok parsed →
     f ∈ default [] fs ∨ f ∈ default [] fi ∨ f ∈ default [] ff →
     row !! f = None → parsed !! f = Some CNone)
  ∧ (py_int CNone = Raise TypeError ∧ py_float CNone = Raise TypeError)
  ∧ (∀ f,
       f ∈ default [] fi ∨ f ∈ default [] ff → row !! f = Some CNone →
       ∃ e, parse_row row fs fi ff = Raise e)
  ∧ (∀ parsed f,
       parse_row row fs fi ff = Ok parsed →
       f ∈ default [] fs → f ∉ default [] fi → f ∉ default [] ff →
       parsed !! f = Some (row_get row f))
  ∧ ((∀ f c, f ∈ default [] fi → row !! f = Some c → is_ok (py_int c) = true) →
     (∀ f c, f ∈ default [] ff → row !! f = Some c → is_ok (py_float c) = true) →
     ∃ parsed, parse_row row fs fi ff = Ok parsed).
Proof.
  rewrite parse_row_unfold. split_and!.
  - intros parsed f Hok Hdecl Hf.
    destruct (store_coerced py_int row (default [] fi) _) as [p1|] eqn:H1;
      simpl in Hok; [|done].
    rewrite (store_coerced_absent _ _ _ _ _ _ Hok Hf).
    destruct (decide (f ∈ default [] ff)); [done |].
    rewrite (store_coerced_absent _ _ _ _ _ _ H1 Hf).
    destruct (decide (f ∈ default [] fi)); [done |].
    rewrite store_strings_lookup.
    destruct (decide (f ∈ default [] fs)); [|by destruct Hdecl as [?|[?|?]]].
    unfold row_get. by rewrite Hf.
  - done.
  - done.
  - intros f Hdecl Hf.
    destruct (store_coerced py_int row (default [] fi) _) as [p1|e] eqn:H1;
      simpl; [|by exists e].
    destruct Hdecl as [Hin|Hin].
    + destruct (store_coerced_null py_int row (default [] fi)
                  (store_strings row (default [] fs) ∅) f) as [e He];
        [by exists TypeError | done | done |]. congruence.
    + apply (store_coerced_null py_float row (default [] ff) p1 f);
        [by exists TypeError | done | done].
  - intros parsed f Hok Hs Hi Hf.
    destruct (store_coerced py_int row (default [] fi) _) as [p1|] eqn:H1;
      simpl in Hok; [|done].
    rewrite (store_coerced_other _ _ _ _ _ _ Hok Hf).
    rewrite (store_coerced_other _ _ _ _ _ _ H1 Hi).
    rewrite store_strings_lookup. by rewrite decide_True.
  - intros Hi Hf.
    destruct (store_coerced_total py_int row (default [] fi)
                (store_strings row (default [] fs) ∅) Hi) as [p1 ->].
    simpl. by apply store_coerced_total.
Qed.

End ParseRow.

(** A row with a null value and without an issue: declaring [value] as an
    int raises, declaring [issue] as an int yields an explicit [None]. *)
Lemma parse_row_none_and_null_witness :
  let conversions : Query.Conversions Z :=
    {| Query.int_of_str := λ _, Raise ValueError; Query.int_of_float := Ok;
       Query.float_of_int := Ok; Query.float_of_str := λ _, Raise ValueError |} in
  let row : gmap string (Query.cell Z) :=
    {[ "geo_value" := Query.CStr "pa"; "value" := Query.CNone ]} in
  let parse := Query.parse_row (H := conversions) row in
  (row !! "value" = Some Query.CNone
   ∧ ∃ e, parse (Some ["geo_value"]) (Some ["value"]) None = Raise e)
  ∧ (row !! "issue" = None
     ∧ parse (Some ["geo_value"]) (Some ["issue"]) None
       = Ok {[ "geo_value" := Query.CStr "pa"; "issue" := Query.CNone ]}
     ∧ ({[ "geo_value" := Query.CStr "pa"; "issue" := Query.CNone ]}
          : gmap string (Query.cell Z)) !! "issue" = Some Query.CNone).
Proof.
  intros conversions row parse.
  assert (row !! "value" = Some Query.CNone) as Hnull by (by vm_compute).
  assert (row !! "issue" = None) as Habsent by (by vm_compute).
  assert (parse (Some ["geo_value"]) (Some ["issue"]) None
          = Ok {[ "geo_value" := Query.CStr "pa"; "issue" := Query.CNone ]})
    as Hok by (by vm_compute).
  pose proof (parse_row_none_and_null (H := conversions) row
                (Some ["geo_value"]) (Some ["value"]) None)
    as (_ & _ & Hraise & _).
  pose proof (parse_row_none_and_null (H := conversions) row
                (Some ["geo_value"]) (Some ["issue"]) None)
    as (Hnone & _).
  split; [split; [done |] | split_and!; [done | done |]].
  - apply (Hraise "value"); [left; simpl; set_solver | done].
  - apply (Hnone _ "issue"); [done | right; left; simpl; set_solver | done].
Defined.

(** ** The security layer *)

Section AuthToken.

Import Security.

Lemma bearer_token_spec (r : Request) (t : string) :
  header_Authorization r = Some ("Bearer " +:+ t) → bearer_token r = Some t.
Proof.
  intros H. unfold bearer_token. rewrite H.
  replace (startswith ("Bearer " +:+ t) "Bearer ") with true
    by (symmetry; apply startswith_spec; by exists t).
  simpl. done.
Qed.

Lemma bearer_token_none (r : Request) :
  (∀ t, header_Authorization r ≠ Some ("Bearer " +:+ t)) → bearer_token r = None.
Proof.
  intros H. unfold bearer_token. destruct (header_Authorization r) as [h|]; [|done].
  destruct (startswith h "Bearer ") eqn:Hs; [|by rewrite andb_false_r].
  apply startswith_spec in Hs as [t ->]. by destruct (H t).
Qed.

(** C5. [resolve_auth_token] returns the value of the first request parameter
    present among [auth], [api_key] and [token]; without any of them, the
    password of the credentials whose username is [epidata]; otherwise the
    remainder of an Authorization header that starts with ["Bearer "];
    otherwise no token. A [token] parameter therefore wins over Basic
    credentials. *)
Theorem resolve_auth_token_precedence (r : Request) :
  (∀ v, values_get "auth" (values r) = Some v → resolve_auth_token r = Some v)
  ∧ (∀ v, values_get "auth" (values r) = None →
          values_get "api_key" (values r) = Some v →
          resolve_auth_token r = Some v)
  ∧ (∀ v, values_get "auth" (values r) = None →
          values_get "api_key" (values r) = None →
          values_get "token" (values r) = Some v →
          resolve_auth_token r = Some v)
  ∧ (values_get "auth" (values r) = None →
     values_get "api_key" (values r) = None →
     values_get "token" (values r) = None →
     (∀ a, authorization r = Some a → username a = Some "epidata" →
           resolve_auth_token r = password a)
     ∧ ((∀ a, authorization r = Some a → username a ≠ Some "epidata") →
        (∀ t, header_Authorization r = Some ("Bearer " +:+ t) →
              resolve_auth_token r = Some t)
        ∧ ((∀ t, header_Authorization r ≠ Some ("Bearer " +:+ t)) →
           resolve_auth_token r = None))).
Proof.
  unfold resolve_auth_token, first_present. split_and!.
  - by intros v ->.
  - by intros v -> ->.
  - by intros v -> -> ->.
  - intros -> -> ->. split.
    + intros a -> Hu. by rewrite bool_decide_eq_true_2.
    + intros Hbasic.
      assert (match authorization r with
              | Some a =>
                  if bool_decide (username a = Some "epidata")
                  then password a else bearer_token r
              | None => bearer_token r
              end = bearer_token r) as ->.
      { destruct (authorization r) as [a|]; [|done].
        by rewrite bool_decide_eq_false_2 by (by apply Hbasic). }
      split; [apply bearer_token_spec | apply bearer_token_none].
Qed.

(** A request with a [token] parameter and Basic credentials, and one with a
    bearer header only. *)
Lemma resolve_auth_token_precedence_witness :
  let basic := {| username := Some "epidata"; password := Some "secret" |} in
  let r1 := {| values := [("signal", "sig"); ("token", "tok")];
               authorization := Some basic;
               header_Authorization := Some "Basic ZXBpZGF0YTpzZWNyZXQ=";
               path := "/epidata/covidcast/" |} in
  let r2 := {| values := [];
               authorization := None;
               header_Authorization := Some "Bearer abc";
               path := "/epidata/covidcast/" |} in
  (values_get "token" (values r1) = Some "tok" ∧ resolve_auth_token r1 = Some "tok")
  ∧ (header_Authorization r2 = Some ("Bearer " +:+ "abc")
     ∧ resolve_auth_token r2 = Some "abc").
Proof.
  intros basic r1 r2.
  pose proof (resolve_auth_token_precedence r1) as (_ & _ & H1 & _).
  pose proof (resolve_auth_token_precedence r2) as (_ & _ & _ & H2).
  split; (split; [done |]).
  - by apply H1.
  - destruct H2 as [_ H2]; [done | done | done |].
    destruct H2 as [H2 _]; [by intros a [=] |]. by apply H2.
Defined.

End AuthToken.

Section ApiKeyWarnings.

Import Security.

Context {User : Type}.
Variable find_user : option string → option User.
Variable API_KEY_REQUIRED_STARTING_AT : Z.

(** C4. With the hard-warning date 14 days before the cutover and the
    soft-warning date 14 days before that, on every date:
    [show_soft_api_key_warning] is true exactly for an anonymous caller from
    the soft date up to the day before the hard date,
    [show_hard_api_key_warning] exactly for an anonymous caller from the hard
    date up to the day before the cutover, [require_api_key] exactly from
    the cutover on, whoever calls, and both warnings are false for an
    authenticated caller. *)
Theorem api_key_warning_classification (m : loaded) (today : Z)
    (c : context User) :
  load API_KEY_REQUIRED_STARTING_AT = Ok m →
  let cutover := API_KEY_REQUIRED_STARTING_AT in
  let hard := cutover - 14 in
  let soft := hard - 14 in
  hard_warning m = hard ∧ soft_warning m = soft
  ∧ ((show_soft_api_key_warning find_user m today c).1 = true
     ↔ (_get_current_user find_user c).1 = None ∧ soft ≤ today < hard)
  ∧ ((show_hard_api_key_warning find_user API_KEY_REQUIRED_STARTING_AT m today c).1 = true
     ↔ (_get_current_user find_user c).1 = None ∧ hard ≤ today < cutover)
  ∧ (require_api_key API_KEY_REQUIRED_STARTING_AT today = true ↔ cutover ≤ today)
  ∧ (∀ user, (_get_current_user find_user c).1 = Some user →
       (show_soft_api_key_warning find_user m today c).1 = false
       ∧ (show_hard_api_key_warning find_user API_KEY_REQUIRED_STARTING_AT m today c).1
         = false).
Proof.
  intros Hload cutover hard soft.
  assert (hard_warning m = hard ∧ soft_warning m = soft) as [Hh Hs].
  { unfold load, API_KEY_SOFT_WARNING, API_KEY_HARD_WARNING, date_minus_days in Hload.
    repeat (case_match; simpl in Hload; try done). by injection Hload as <-. }
  unfold show_soft_api_key_warning, show_hard_api_key_warning, require_api_key.
  destruct (_get_current_user find_user c) as [u c'] eqn:Hu. simpl.
  rewrite Hh, Hs. split_and!; try done.
  - destruct u; simpl; [by split; [|intros [? _]] |].
    rewrite andb_true_iff, Z.leb_le, Z.ltb_lt. intuition.
  - destruct u; simpl; [by split; [|intros [? _]] |].
    rewrite andb_true_iff, Z.leb_le, Z.ltb_lt. intuition.
  - apply Z.leb_le.
  - by intros user ->.
Qed.

End ApiKeyWarnings.

(** A cutover on 2023-06-01 (ordinal 738672) and an anonymous request on
    2023-05-10, in the soft-warning period. *)
Lemma api_key_warning_classification_witness :
  let find_user : option string → option unit := λ _, None in
  let cutover := 738672 in
  let m := {| Security.hard_warning := 738658; Security.soft_warning := 738644 |} in
  let c := {| Security.request :=
                {| Security.values := []; Security.authorization := None;
                   Security.header_Authorization := None;
                   Security.path := "/epidata/covidcast/" |};
              Security.g_user := None |} in
  Security.load cutover = Ok m
  ∧ (Security.show_soft_api_key_warning find_user m 738650 c).1 = true
  ∧ (Security.show_hard_api_key_warning find_user cutover m 738650 c).1 = false
  ∧ Security.require_api_key cutover 738650 = false.
Proof.
  intros find_user cutover m c.
  assert (Security.load cutover = Ok m) as Hload by done.
  pose proof (api_key_warning_classification find_user cutover m 738650 c Hload)
    as (_ & _ & Hsoft & _).
  split_and!; [done | | done | done].
  apply Hsoft. split; [done | lia].
Defined.

Section PublicRoutes.

Import Security.

Context {User : Type}.
Variable find_user : option string → option User.
Variable has_role : User → string → bool.
Variable URL_PREFIX : string.

Lemma _is_public_route_spec (r : Request) :
  _is_public_route URL_PREFIX r = true
  ↔ ∃ route rest, route ∈ ["lib"; "admin"; "version"]
                  ∧ path r = URL_PREFIX +:+ "/" +:+ route +:+ rest.
Proof.
  unfold _is_public_route. rewrite existsb_exists. split.
  - intros (route & Hin%list_elem_of_In & [rest Hs]%startswith_spec).
    exists route, rest. split; [done |].
    by rewrite Hs, !string_app_assoc.
  - intros (route & rest & Hin & Hp). exists route.
    split; [by apply list_elem_of_In |].
    apply startswith_spec. exists rest. by rewrite Hp, !string_app_assoc.
Qed.

(** C6, as amended. [_is_public_route] recognises exactly the requests whose
    path starts with [URL_PREFIX] followed by [/lib], [/admin] or
    [/version]. [require_role] does not consult it: with an empty role the
    handler is returned as it is; with a role, the wrapped handler runs when
    the caller is a user who holds the role, and raises [Unauthorized] for
    an anonymous caller and for a user without the role, on an allowlisted
    path as on any other. *)
Theorem require_role_on_every_route {A} (required_role : string)
    (f : view User A) (c : context User) :
  (_is_public_route URL_PREFIX (request c) = true
   ↔ ∃ route rest, route ∈ ["lib"; "admin"; "version"]
                   ∧ path (request c) = URL_PREFIX +:+ "/" +:+ route +:+ rest)
  ∧ (required_role = "" → require_role find_user has_role required_role f = f)
  ∧ (required_role ≠ "" →
     (∀ user, (_get_current_user find_user c).1 = Some user →
        has_role user required_role = true →
        require_role find_user has_role required_role f c
        = f (_get_current_user find_user c).2)
     ∧ ((_get_current_user find_user c).1 = None
        ∨ (∃ user, (_get_current_user find_user c).1 = Some user
                   ∧ has_role user required_role = false) →
        (require_role find_user has_role required_role f c).1
        = Raise Unauthorized)).
Proof.
  split_and!.
  - apply _is_public_route_spec.
  - by intros ->.
  - intros Hrole. unfold require_role.
    destruct required_role as [|ch role]; [done |]. simpl.
    destruct (_get_current_user find_user c) as [u c'] eqn:Hu. simpl. split.
    + by intros user -> ->.
    + by intros [->|(user & -> & ->)].
Qed.

End PublicRoutes.

Section PublicRoutesExamples.

Import Security.

(** A caller with the role on a data route, and an anonymous caller on the
    version route. *)
Lemma require_role_on_every_route_witness :
  let find_user : option string → option string := λ k, k in
  let has_role : string → string → bool :=
    λ user role, bool_decide (user = "quidel_key") in
  let f : view string string := λ c, (Ok "epidata", c) in
  let ctx p vs := {| request := {| values := vs; authorization := None;
                                   header_Authorization := None; path := p |};
                     g_user := None |} in
  ((_get_current_user find_user
      (ctx "/epidata/covidcast/" [("api_key", "quidel_key")])).1
   = Some "quidel_key"
   ∧ (require_role find_user has_role "quidel" f
        (ctx "/epidata/covidcast/" [("api_key", "quidel_key")])).1
     = Ok "epidata")
  ∧ (_is_public_route "/epidata" (request (ctx "/epidata/version" [])) = true
     ∧ (require_role find_user has_role "quidel" f (ctx "/epidata/version" [])).1
       = Raise Unauthorized).
Proof.
  intros find_user has_role f ctx.
  pose proof (require_role_on_every_route find_user has_role "/epidata" "quidel" f
                (ctx "/epidata/covidcast/" [("api_key", "quidel_key")]))
    as (_ & _ & H1).
  pose proof (require_role_on_every_route find_user has_role "/epidata" "quidel" f
                (ctx "/epidata/version" []))
    as (_ & _ & H2).
  destruct H1 as [H1 _]; [done |]. destruct H2 as [_ H2]; [done |].
  split; (split; [done |]).
  - by rewrite (H1 "quidel_key").
  - apply H2. by left.
Defined.

(** C6, as stated, fails: an anonymous request for the version route, which
    is on the allowlist, is rejected by a handler that requires a role. *)
Lemma require_role_rejects_public_route :
  let find_user : option string → option string := λ k, k in
  let has_role : string → string → bool :=
    λ user role, bool_decide (user = "quidel_key") in
  let f : view string string := λ c, (Ok "epidata", c) in
  let c := {| request := {| values := []; authorization := None;
                            header_Authorization := None;
                            path := "/epidata/version" |};
              g_user := None |} in
  _is_public_route "/epidata" (request c) = true
  ∧ (_get_current_user find_user c).1 = None
  ∧ (f c).1 = Ok "epidata"
  ∧ (require_role find_user has_role "quidel" f c).1 = Raise Unauthorized.
Proof. by split_and!. Qed.

End PublicRoutesExamples.

(** ** The signal database: the load table *)

Section LoadTable.

Import SignalDb.

Context {V : Type}.

(** C2. A batch offered while the load table holds rows raises, logs at
    [CRITICAL], the highest severity, and leaves the database, Latest and
    History included, as it was; a batch offered to an empty load table is
    accepted. *)
Theorem insert_or_update_batch_load_precondition
    (rows : list (CovidcastRow V)) (db : Database V) :
  (signal_load db ≠ [] →
     raised (insert_or_update_batch rows db) = Raise IntegrityError
     ∧ (∃ msg, (CRITICAL, msg) ∈ logged (insert_or_update_batch rows db))
     ∧ (∀ s, (severity_rank s ≤ severity_rank CRITICAL)%nat)
     ∧ signal_latest (after (insert_or_update_batch rows db)) = signal_latest db
     ∧ signal_history (after (insert_or_update_batch rows db)) = signal_history db
     ∧ after (insert_or_update_batch rows db) = db)
  ∧ (signal_load db = [] →
     raised (insert_or_update_batch rows db) = Ok tt
     ∧ logged (insert_or_update_batch rows db) = []).
Proof.
  unfold insert_or_update_batch. split.
  - intros Hload. destruct (signal_load db) as [|l rest]; [done |]. simpl.
    split_and!; try done.
    + eexists. apply list_elem_of_singleton. done.
    + intros []; simpl; lia.
  - intros ->. by destruct (resolve_dims _ _ _) as [[? ?] ?].
Qed.

End LoadTable.

(** The second half of the test: a row left in the load table makes the
    next batch fail; the empty database accepts the batch. *)
Lemma insert_or_update_batch_load_precondition_witness :
  let row := {| SignalDb.source := "src"; SignalDb.signal := "sig";
                SignalDb.time_type := "day"; SignalDb.geo_type := "state";
                SignalDb.time_value := 20220222; SignalDb.geo_value := "pa";
                SignalDb.value := 2; SignalDb.stderr := 22;
                SignalDb.sample_size := 222; SignalDb.missing_value := 0;
                SignalDb.missing_stderr := 0;
                SignalDb.missing_sample_size := 0;
                SignalDb.issue := 20220222; SignalDb.lag := 0 |} in
  let db := SignalDb.after (SignalDb.insert_or_update_batch [row]
                              SignalDb.empty_database) in
  let stuck := {| SignalDb.signal_load :=
                    [{| SignalDb.load_id := 100; SignalDb.load_row := row |}];
                  SignalDb.signal_latest := SignalDb.signal_latest db;
                  SignalDb.signal_history := SignalDb.signal_history db;
                  SignalDb.signal_dim := SignalDb.signal_dim db;
                  SignalDb.geo_dim := SignalDb.geo_dim db;
                  SignalDb.auto_increment := SignalDb.auto_increment db |} in
  (SignalDb.signal_load stuck ≠ []
   ∧ SignalDb.raised (SignalDb.insert_or_update_batch [row] stuck)
     = Raise IntegrityError
   ∧ SignalDb.after (SignalDb.insert_or_update_batch [row] stuck) = stuck)
  ∧ (SignalDb.signal_load (SignalDb.empty_database (V:=Z)) = []
     ∧ SignalDb.raised (SignalDb.insert_or_update_batch [row]
                          SignalDb.empty_database) = Ok tt).
Proof.
  intros row db stuck.
  pose proof (insert_or_update_batch_load_precondition [row] stuck) as [H1 _].
  pose proof (insert_or_update_batch_load_precondition [row]
                SignalDb.empty_database) as [_ H2].
  assert (SignalDb.signal_load stuck ≠ []) as Hne by done.
  destruct (H1 Hne) as (Hr & _ & _ & _ & _ & Ha).
  destruct H2 as [Hok _]; [done |].
  split; [split_and! | split]; done.
Defined.

(** ** The nowcast endpoint *)

Section NowcastSelection.

Import Nowcast.

Context {V : Type}.

Implicit Types (r : NowcastRow V) (rows : list (NowcastRow V)).

Lemma highest_issue_None rows : highest_issue rows = None ↔ rows = [].
Proof.
  destruct rows as [|r rows]; simpl; [done |].
  by destruct (highest_issue rows).
Qed.

(** The highest issue is the issue of one of the rows and bounds them
    all. *)
Lemma highest_issue_Some rows m :
  highest_issue rows = Some m →
  (∃ r, r ∈ rows ∧ issue r = m) ∧ (∀ r, r ∈ rows → issue r ≤ m).
Proof.
  revert m. induction rows as [|r rows IH]; intros m Hm; simpl in Hm; [done |].
  destruct (highest_issue rows) as [m'|] eqn:Hrest.
  - injection Hm as <-. destruct (IH m' eq_refl) as [(r' & Hin & Hr') Hle]. split.
    + destruct (Z.max_spec (issue r) m') as [[_ ->]|[_ ->]].
      * exists r'. split; [by right | done].
      * exists r. split; [by left | done].
    + intros x [->|Hx]%elem_of_cons; [lia |]. specialize (Hle x Hx). lia.
  - injection Hm as <-. apply highest_issue_None in Hrest as ->. split.
    + exists r. split; [by left | done].
    + by intros x ->%list_elem_of_singleton.
Qed.

Lemma same_key_spec r r' : same_key r r' = true ↔ key r = key r'.
Proof. unfold same_key. apply bool_decide_eq_true. Qed.

Lemma elem_of_versions bound rows r r' :
  r' ∈ versions bound rows r
  ↔ r' ∈ rows ∧ key r = key r'
    ∧ match bound with Some b => issue r' ≤ b | None => True end.
Proof.
  unfold versions. rewrite list_elem_of_In, filter_In, <-list_elem_of_In.
  rewrite andb_true_iff, same_key_spec.
  destruct bound; [rewrite Z.leb_le|]; intuition.
Qed.

Lemma versions_same_key bound rows r r' :
  key r = key r' → versions bound rows r = versions bound rows r'.
Proof.
  intros Hk. unfold versions. apply filter_ext. intros x.
  unfold same_key. by rewrite Hk.
Qed.

(** The filters other than the issue selector look at the natural key
    only. *)
Lemma matches_same_key (q : NowcastQuery) r r' :
  key r = key r' → matches q r = matches q r'.
Proof. unfold key, matches. by intros [= -> -> -> -> -> -> ->]. Qed.

(** A stored row carries the highest issue of its key within the bound
    exactly when it is within the bound and no version within the bound is
    newer. *)
Lemma is_highest_spec bound rows r :
  r ∈ rows →
  is_highest bound rows r = true
  ↔ match bound with Some b => issue r ≤ b | None => True end
    ∧ ∀ r', r' ∈ rows → key r' = key r →
            match bound with Some b => issue r' ≤ b | None => True end →
            issue r' ≤ issue r.
Proof.
  intros Hin. unfold is_highest. rewrite bool_decide_eq_true. split.
  - intros Hh. apply highest_issue_Some in Hh as [(r0 & Hr0 & Hi0) Hle].
    apply elem_of_versions in Hr0 as (_ & _ & Hb0). split.
    + rewrite <-Hi0. done.
    + intros r' Hr' Hk Hb. apply Hle, elem_of_versions. done.
  - intros [Hb Hmax].
    destruct (highest_issue (versions bound rows r)) as [m|] eqn:Hh.
    + apply highest_issue_Some in Hh as [(r0 & Hr0 & Hi0) Hle].
      apply elem_of_versions in Hr0 as (Hr0 & Hk0 & Hb0).
      f_equal. apply Z.le_antisymm.
      * rewrite <-Hi0. by apply Hmax.
      * apply Hle, elem_of_versions. done.
    + apply highest_issue_None in Hh.
      assert (r ∈ versions bound rows r) as Hr by (by apply elem_of_versions).
      rewrite Hh in Hr. by apply elem_of_nil in Hr.
Qed.

Lemma elem_of_select_filter (P : NowcastRow V → bool) (q : NowcastQuery) rows r :
  r ∈ List.filter P (List.filter (matches q) rows)
  ↔ r ∈ rows ∧ matches q r = true ∧ P r = true.
Proof. rewrite !list_elem_of_In, !filter_In. intuition. Qed.

(** Among the versions of a key within the bound there is a highest one,
    and [select] returns it. *)
Lemma select_highest_exists bound (q : NowcastQuery) rows r :
  r ∈ rows → matches q r = true →
  match bound with Some b => issue r ≤ b | None => True end →
  ∃ r', r' ∈ List.filter (is_highest bound rows) (List.filter (matches q) rows)
        ∧ key r' = key r ∧ issue r ≤ issue r'.
Proof.
  intros Hin Hm Hb.
  assert (r ∈ versions bound rows r) as Hv by (by apply elem_of_versions).
  destruct (highest_issue (versions bound rows r)) as [m|] eqn:Hh.
  - pose proof Hh as Hh'.
    apply highest_issue_Some in Hh' as [(r' & Hr' & Hi') Hle].
    pose proof Hr' as Hr''. apply elem_of_versions in Hr'' as (Hr'in & Hk & Hb').
    exists r'. split_and!.
    + apply elem_of_select_filter. split_and!; [done | |].
      * by rewrite <-(matches_same_key q r r').
      * unfold is_highest. apply bool_decide_eq_true.
        by rewrite <-(versions_same_key bound rows r r'), Hh, Hi'.
    + done.
    + rewrite Hi'. by apply Hle.
  - apply highest_issue_None in Hh. rewrite Hh in Hv. by apply elem_of_nil in Hv.
Qed.

(** C3. The issue-selection policy. With explicit issues, the rows returned
    are exactly the stored rows that match the filters at one of those
    issues. Otherwise, with an [as_of] bound, they are exactly the matching
    rows whose issue is the highest one not above the bound among the stored
    versions of their natural key, and every matching key with a version
    within the bound is answered. Otherwise they are exactly the matching
    rows whose issue is the highest among the stored versions of their key,
    and every matching key is answered. *)
Theorem select_issue_policy (q : NowcastQuery) rows r :
  (∀ wanted, issues q = Some wanted →
     (r ∈ select q rows
      ↔ r ∈ rows ∧ matches q r = true ∧ issue r ∈ wanted))
  ∧ (∀ bound, issues q = None → as_of q = Some bound →
       (r ∈ select q rows
        ↔ r ∈ rows ∧ matches q r = true ∧ issue r ≤ bound
          ∧ ∀ r', r' ∈ rows → key r' = key r → issue r' ≤ bound →
                  issue r' ≤ issue r)
       ∧ (r ∈ rows → matches q r = true → issue r ≤ bound →
          ∃ r', r' ∈ select q rows ∧ key r' = key r ∧ issue r ≤ issue r'))
  ∧ (issues q = None → as_of q = None →
       (r ∈ select q rows
        ↔ r ∈ rows ∧ matches q r = true
          ∧ ∀ r', r' ∈ rows → key r' = key r → issue r' ≤ issue r)
       ∧ (r ∈ rows → matches q r = true →
          ∃ r', r' ∈ select q rows ∧ key r' = key r ∧ issue r ≤ issue r')).
Proof.
  unfold select. split_and!.
  - intros wanted ->. rewrite elem_of_select_filter.
    by rewrite bool_decide_eq_true.
  - intros bound -> ->. split.
    + rewrite elem_of_select_filter. split.
      * intros (Hin & Hm & Hh). apply is_highest_spec in Hh as [? ?]; done.
      * intros (Hin & Hm & Hb & Hmax). split_and!; [done | done |].
        by apply is_highest_spec.
    + apply (select_highest_exists (Some bound)).
  - intros -> ->. split.
    + rewrite elem_of_select_filter. split.
      * intros (Hin & Hm & Hh). apply is_highest_spec in Hh as [_ Hh]; [|done].
        split_and!; [done | done |]. intros r' ? ?. by apply Hh.
      * intros (Hin & Hm & Hmax). split_and!; [done | done |].
        apply is_highest_spec; [done |]. split; [done |].
        intros r' ? ? _. by apply Hmax.
    + intros Hin Hm. by apply (select_highest_exists None).
Qed.

End NowcastSelection.

(** The test of the endpoint: three versions of one key, asked for by
    issue, by [as_of] and without constraint. *)
Lemma select_issue_policy_witness :
  let row v i := {| Nowcast.source := "src"; Nowcast.signal := "sig";
                    Nowcast.sensor_name := "sensor"; Nowcast.time_type := "day";
                    Nowcast.geo_type := "county"; Nowcast.time_value := 20200101;
                    Nowcast.geo_value := "01001"; Nowcast.value := v;
                    Nowcast.issue := i; Nowcast.lag := 2 |} in
  let rows := [row "3.5" 20200101; row "2.5" 20200102; row "1.5" 20200103] in
  let query i a := {| Nowcast.data_source := "src"; Nowcast.signals := ["sig"];
                      Nowcast.sensor_names := ["sensor"];
                      Nowcast.q_time_type := "day"; Nowcast.q_geo_type := "county";
                      Nowcast.time_values := [20200101];
                      Nowcast.q_geo_value := "01001";
                      Nowcast.issues := i; Nowcast.as_of := a |} in
  (Nowcast.issues (query (Some [20200101]) None) = Some [20200101]
   ∧ row "3.5" 20200101 ∈ Nowcast.select (query (Some [20200101]) None) rows
   ∧ Nowcast.select (query (Some [20200101]) None) rows = [row "3.5" 20200101])
  ∧ (Nowcast.as_of (query None (Some 20200101)) = Some 20200101
     ∧ row "3.5" 20200101 ∈ Nowcast.select (query None (Some 20200101)) rows
     ∧ Nowcast.select (query None (Some 20200101)) rows = [row "3.5" 20200101])
  ∧ (Nowcast.as_of (query None None) = None
     ∧ row "1.5" 20200103 ∈ Nowcast.select (query None None) rows
     ∧ Nowcast.select (query None None) rows = [row "1.5" 20200103]).
Proof.
  intros row rows query.
  pose proof (select_issue_policy (query (Some [20200101]) None) rows
                (row "3.5" 20200101)) as (H1 & _ & _).
  pose proof (select_issue_policy (query None (Some 20200101)) rows
                (row "3.5" 20200101)) as (_ & H2 & _).
  pose proof (select_issue_policy (query None None) rows
                (row "1.5" 20200103)) as (_ & _ & H3).
  assert (∀ r : Nowcast.NowcastRow string, r ∈ rows →
            r = row "3.5" 20200101 ∨ r = row "2.5" 20200102
            ∨ r = row "1.5" 20200103) as Hrows.
  { intros r Hr. unfold rows in Hr.
    repeat (apply elem_of_cons in Hr as [->|Hr]; [auto |]).
    by apply elem_of_nil in Hr. }
  split_and!; try done.
  - apply (H1 [20200101]); [done |]. split_and!; [by left | done | by left].
  - apply (H2 20200101); [done | done |].
    split_and!; [by left | done | done |].
    intros r' Hr' _ Hb. destruct (Hrows r' Hr') as [->|[->| ->]]; simpl in *; lia.
  - apply H3; [done | done |].
    split_and!; [by do 2 right; left | done |].
    intros r' Hr' _. destruct (Hrows r' Hr') as [->|[->| ->]]; simpl; lia.
Defined.

(** ** The hospitalization acquisition pipeline *)

Section Acquisition.

Import CovidHosp.

Context {Metrics Location : Type}.

Implicit Types (net : Network Metrics Location)
  (storage : list (TimeseriesRecord Metrics)) (r : TimeseriesRecord Metrics).

Lemma get_max_issue_upsert r storage :
  get_max_issue (upsert r storage) = Z.max (issue r) (get_max_issue storage).
Proof.
  induction storage as [|x storage IH]; simpl; [done |].
  destruct (same_version x r) eqn:Hsame; simpl.
  - unfold same_version in Hsame.
    apply andb_true_iff in Hsame as [_ Hi%bool_decide_eq_true]. lia.
  - rewrite IH. lia.
Qed.

Lemma get_max_issue_upsert_all rs storage :
  get_max_issue (upsert_all rs storage)
  = foldr (λ r m, Z.max (issue r) m) (get_max_issue storage) rs.
Proof.
  unfold upsert_all. revert storage.
  induction rs as [|r rs IH]; intros storage; simpl; [done |].
  rewrite IH, get_max_issue_upsert. clear IH.
  induction rs as [|x rs IH]; simpl; lia.
Qed.

Lemma issue_records_issue net i r : r ∈ issue_records net i → issue r = i.
Proof.
  unfold issue_records. rewrite list_elem_of_In, in_flat_map.
  intros (m & _ & Hr). apply in_map_iff in Hr as (d & <- & _). done.
Qed.

(** Upserting the records of an issue never lowers the maximum, and raises
    it to the issue when there is a record. *)
Lemma get_max_issue_issue_records net i storage :
  get_max_issue storage ≤ get_max_issue (upsert_all (issue_records net i) storage)
  ∧ (issue_records net i ≠ [] →
     i ≤ get_max_issue (upsert_all (issue_records net i) storage)).
Proof.
  rewrite get_max_issue_upsert_all.
  pose proof (issue_records_issue net i) as Hi.
  induction (issue_records net i) as [|r rs IH]; simpl; [done |].
  destruct IH as [IH _]; [intros x Hx; apply Hi; by right |].
  split; [lia |]. intros _. rewrite (Hi r) by left. lia.
Qed.

Lemma get_max_issue_run_fold net fresh storage :
  get_max_issue storage
  ≤ get_max_issue (foldl (λ st i, upsert_all (issue_records net i) st) storage fresh)
  ∧ ((∀ i, i ∈ fresh → issue_records net i ≠ []) →
     ∀ i, i ∈ fresh →
       i ≤ get_max_issue
             (foldl (λ st i, upsert_all (issue_records net i) st) storage fresh)).
Proof.
  revert storage. induction fresh as [|j fresh IH]; intros storage; simpl.
  - split; [done |]. by intros _ i ?%elem_of_nil.
  - destruct (IH (upsert_all (issue_records net j) storage)) as [IH1 IH2].
    destruct (get_max_issue_issue_records net j storage) as [H1 H2].
    split; [lia |]. intros Hne i [->|Hi]%elem_of_cons.
    + specialize (H2 (Hne j (list_elem_of_here _ _))). lia.
    + apply IH2; [|done]. intros k Hk. apply Hne. by right.
Qed.

(** The new issues are the issues of the metadata above the maximum. *)
Lemma elem_of_new_issues net m i :
  i ∈ new_issues net m ↔ i ∈ (fetch_metadata net).*1 ∧ m < i.
Proof.
  unfold new_issues. rewrite merge_sort_Permutation, elem_of_remove_dups.
  rewrite list_elem_of_In, filter_In, <-list_elem_of_In, Z.ltb_lt. done.
Qed.

Lemma new_issues_nil net m :
  new_issues net m = [] ↔ ∀ i, i ∈ (fetch_metadata net).*1 → i ≤ m.
Proof.
  split.
  - intros Hnil i Hi. destruct (decide (i ≤ m)) as [|Hgt]; [done |].
    assert (i ∈ new_issues net m) as Hin
      by (apply elem_of_new_issues; split; [done | lia]).
    rewrite Hnil in Hin. by apply elem_of_nil in Hin.
  - intros Hall. destruct (new_issues net m) as [|i rest] eqn:Hn; [done |].
    assert (i ∈ new_issues net m) as Hin by (rewrite Hn; left).
    apply elem_of_new_issues in Hin as [Hin Hlt]. specialize (Hall i Hin). lia.
Qed.

(** The new issues are processed in increasing order. *)
Lemma new_issues_sorted net m : Sorted Z.le (new_issues net m).
Proof. unfold new_issues. apply (Sorted_merge_sort Z.le). Qed.

Lemma run_storage net storage :
  (run net storage).2
  = foldl (λ st i, upsert_all (issue_records net i) st) storage
      (new_issues net (get_max_issue storage)).
Proof. unfold run. by destruct (new_issues net (get_max_issue storage)). Qed.

Lemma same_version_spec (a b : TimeseriesRecord Metrics) :
  same_version a b = true ↔ version a = version b.
Proof.
  unfold same_version, version.
  rewrite !andb_true_iff, !bool_decide_eq_true. split.
  - by intros [[-> ->] ->].
  - by intros [= -> -> ->].
Qed.

(** The upsert rewrites the record of a version that is stored and adds
    the record of one that is not: the stored versions stay one each. *)
Lemma upsert_versions r storage :
  version <$> upsert r storage
  = if decide (version r ∈ version <$> storage)
    then version <$> storage
    else (version <$> storage) ++ [version r].
Proof.
  induction storage as [|x storage IH]; [done |].
  cbn [upsert]. destruct (same_version x r) eqn:Hsame; rewrite !fmap_cons.
  - apply same_version_spec in Hsame. rewrite Hsame.
    by rewrite decide_True by left.
  - rewrite IH.
    assert (version x ≠ version r) as Hne.
    { intros Heq%same_version_spec. congruence. }
    destruct (decide (version r ∈ version <$> storage)) as [Hin|Hnin].
    + by rewrite decide_True by (by right).
    + rewrite decide_False; [done |]. by intros [?|?]%elem_of_cons.
Qed.

Lemma upsert_NoDup r storage :
  NoDup (version <$> storage) → NoDup (version <$> upsert r storage).
Proof.
  intros Hnd. rewrite upsert_versions. case_decide; [done |].
  apply NoDup_app. split_and!; [done | | apply NoDup_singleton].
  by intros x Hx ->%list_elem_of_singleton.
Qed.

Lemma run_NoDup net storage :
  NoDup (version <$> storage) → NoDup (version <$> (run net storage).2).
Proof.
  rewrite run_storage.
  generalize (new_issues net (get_max_issue storage)). intros fresh.
  revert storage. induction fresh as [|i fresh IH]; intros storage Hnd; [done |].
  simpl. apply IH. unfold upsert_all.
  generalize (issue_records net i). intros rs. revert storage Hnd.
  induction rs as [|r rs IHrs]; intros storage Hnd; [done |].
  simpl. by apply IHrs, upsert_NoDup.
Qed.

(** The maximum after upserting the records of an issue. *)
Lemma get_max_issue_issue_records_eq net i storage :
  get_max_issue (upsert_all (issue_records net i) storage)
  = if decide (issue_records net i = []) then get_max_issue storage
    else Z.max i (get_max_issue storage).
Proof.
  rewrite get_max_issue_upsert_all.
  pose proof (issue_records_issue net i) as Hi.
  destruct (issue_records net i) as [|r rs]; [done |].
  rewrite decide_False by done.
  assert (∀ rs' : list (TimeseriesRecord Metrics),
            (∀ x, x ∈ rs' → issue x = i) → rs' ≠ [] →
            foldr (λ r m, Z.max (issue r) m) (get_max_issue storage) rs'
            = Z.max i (get_max_issue storage)) as Hall; [|by apply Hall].
  clear. intros rs' Hi Hne. induction rs' as [|x rs' IH]; [done |]. simpl.
  rewrite (Hi x) by left. destruct rs' as [|y rs']; [done |].
  rewrite IH; [lia | | done]. intros z Hz. apply Hi. by right.
Qed.

(** An issue that delivered a record is reached by the maximum. *)
Lemma get_max_issue_run_fold_issue net fresh storage j :
  j ∈ fresh → issue_records net j ≠ [] →
  j ≤ get_max_issue
        (foldl (λ st i, upsert_all (issue_records net i) st) storage fresh).
Proof.
  revert storage. induction fresh as [|k fresh IH]; intros storage Hj Hne.
  { by apply elem_of_nil in Hj. }
  simpl. apply elem_of_cons in Hj as [->|Hj]; [|by apply IH].
  destruct (get_max_issue_run_fold net fresh
              (upsert_all (issue_records net k) storage)) as [Hmono _].
  destruct (get_max_issue_issue_records net k storage) as [_ Hk].
  specialize (Hk Hne). lia.
Qed.

(** The maximum after a run is the maximum before it, or an issue that
    delivered a record. *)
Lemma get_max_issue_run_fold_from net fresh storage :
  let after :=
    get_max_issue
      (foldl (λ st i, upsert_all (issue_records net i) st) storage fresh) in
  after = get_max_issue storage
  ∨ ∃ j, j ∈ fresh ∧ issue_records net j ≠ [] ∧ after = j.
Proof.
  revert storage. induction fresh as [|k fresh IH]; intros storage; simpl.
  { by left. }
  destruct (IH (upsert_all (issue_records net k) storage)) as [->|(j & Hj & Hne & ->)].
  - rewrite get_max_issue_issue_records_eq.
    destruct (decide (issue_records net k = [])) as [Hk|Hk]; [by left |].
    destruct (Z.max_spec k (get_max_issue storage)) as [[_ ->]|[_ ->]];
      [by left |].
    right. exists k. split_and!; [left | done | done].
  - right. exists j. split_and!; [by right | done | done].
Qed.

(** Issues without records leave the storage as it is. *)
Lemma run_fold_no_records net fresh storage :
  (∀ j, j ∈ fresh → issue_records net j = []) →
  foldl (λ st i, upsert_all (issue_records net i) st) storage fresh = storage.
Proof.
  revert storage. induction fresh as [|k fresh IH]; intros storage Hall; [done |].
  simpl. rewrite (Hall k) by left. simpl. apply IH.
  intros j Hj. apply Hall. by right.
Qed.

Lemma run_reports net storage :
  (run net storage).1 = false
  ↔ ∀ i, i ∈ (fetch_metadata net).*1 → i ≤ get_max_issue storage.
Proof.
  rewrite <-new_issues_nil. unfold run.
  by destruct (new_issues net (get_max_issue storage)).
Qed.


End Acquisition.



(** ** The signal database: Latest and History *)

Section IdSync.

Import SignalDb.

Context {V : Type}.

Implicit Types (db : Database V) (s l h a b x y : StoredRow V)
  (history latest resolved : list (StoredRow V))
  (dim sdim gdim : list (string * string)).

(** *** Dimension tables *)

Lemma dim_index_Some k dim i : dim_index k dim = Some i → dim !! i = Some k.
Proof.
  revert i. induction dim as [|k' dim IH]; intros i; simpl; [done |].
  case_bool_decide as Hk; [by intros [= <-]; subst |].
  destruct (dim_index k dim) as [j|]; simpl; [|done].
  intros [= <-]. by apply IH.
Qed.

Lemma dim_index_None k dim : dim_index k dim = None → k ∉ dim.
Proof.
  induction dim as [|k' dim IH]; simpl; [intros _; apply not_elem_of_nil |].
  case_bool_decide as Hk; [done |].
  destruct (dim_index k dim) as [j|]; simpl; [done |].
  intros _. apply not_elem_of_cons. split; [done | by apply IH].
Qed.

(** Resolving an entry extends the table at most, finds the entry at the
    key it returns and keeps the table free of duplicates. *)
Lemma resolve_dim_spec k dim i dim' :
  resolve_dim k dim = (i, dim') →
  dim `prefix_of` dim' ∧ dim' !! i = Some k ∧ (NoDup dim → NoDup dim').
Proof.
  unfold resolve_dim. destruct (dim_index k dim) as [j|] eqn:Hk.
  - intros [= <- <-]. split_and!; [done | by apply dim_index_Some | done].
  - intros [= <- <-]. split_and!.
    + by apply prefix_app_r.
    + by rewrite lookup_app_r, Nat.sub_diag.
    + intros Hnd. apply NoDup_app. split_and!; [done | | apply NoDup_singleton].
      intros x Hx ->%list_elem_of_singleton. by apply dim_index_None in Hk.
Qed.

Lemma resolved_from_prefix sdim gdim sdim' gdim' (lr : LoadRow V) s :
  sdim `prefix_of` sdim' → gdim `prefix_of` gdim' →
  resolved_from sdim gdim lr s → resolved_from sdim' gdim' lr s.
Proof.
  intros Hs Hg (? & ? & ? & ?). split_and!; [done | done | |];
    by eapply prefix_lookup_Some.
Qed.

Lemma resolve_dims_spec (loaded : list (LoadRow V)) sdim gdim resolved sdim' gdim' :
  resolve_dims loaded sdim gdim = (resolved, sdim', gdim') →
  sdim `prefix_of` sdim' ∧ gdim `prefix_of` gdim'
  ∧ (NoDup sdim → NoDup sdim') ∧ (NoDup gdim → NoDup gdim')
  ∧ Forall2 (resolved_from sdim' gdim') loaded resolved.
Proof.
  revert sdim gdim resolved sdim' gdim'.
  induction loaded as [|lr loaded IH]; intros sdim gdim resolved sdim' gdim'; simpl.
  - intros [= <- <- <-]. by split_and!.
  - destruct (resolve_dim (source (load_row lr), signal (load_row lr)) sdim)
      as [sk sdim1] eqn:Hs.
    destruct (resolve_dim (geo_type (load_row lr), geo_value (load_row lr)) gdim)
      as [gk gdim1] eqn:Hg.
    destruct (resolve_dims loaded sdim1 gdim1) as [[res sdim2] gdim2] eqn:Hrest.
    intros [= <- <- <-].
    apply resolve_dim_spec in Hs as (Hs1 & Hs2 & Hs3).
    apply resolve_dim_spec in Hg as (Hg1 & Hg2 & Hg3).
    apply IH in Hrest as (Hp1 & Hp2 & Hn1 & Hn2 & Hall).
    split_and!.
    + by etrans.
    + by etrans.
    + auto.
    + auto.
    + constructor; [|done]. apply (resolved_from_prefix sdim1 gdim1); [done..|].
      by split_and!.
Qed.

(** *** The load table *)

Lemma load_rows_spec (rows : list (CovidcastRow V)) db :
  ∃ loaded,
    signal_load (load_rows rows db) = signal_load db ++ loaded
    ∧ load_row <$> loaded = rows
    ∧ Forall (λ lr, (auto_increment db ≤ load_id lr
                       < auto_increment (load_rows rows db))%nat) loaded
    ∧ (auto_increment db ≤ auto_increment (load_rows rows db))%nat
    ∧ signal_latest (load_rows rows db) = signal_latest db
    ∧ signal_history (load_rows rows db) = signal_history db
    ∧ signal_dim (load_rows rows db) = signal_dim db
    ∧ geo_dim (load_rows rows db) = geo_dim db.
Proof.
  revert db. induction rows as [|r rows IH]; intros db; simpl.
  - exists []. rewrite app_nil_r. split_and!; try done.
  - match goal with |- context [load_rows rows ?d] => destruct (IH d)
      as (loaded & Hl & Hr & Hid & Hai & H1 & H2 & H3 & H4) end.
    simpl in *.
    exists ({| load_id := auto_increment db; load_row := r |} :: loaded).
    split_and!; try done.
    + by rewrite Hl, <-app_assoc.
    + by rewrite fmap_cons, Hr.
    + constructor; [simpl; lia |].
      eapply Forall_impl; [exact Hid |]. simpl. intros; lia.
    + lia.
Qed.

(** *** One row reconciled into History and Latest *)

Lemma stored_key_eq a b : same_key a b = true ↔ stored_key a = stored_key b.
Proof. unfold same_key. apply bool_decide_eq_true. Qed.

Lemma stored_key_neq a b : same_key a b = false ↔ stored_key a ≠ stored_key b.
Proof. unfold same_key. apply bool_decide_eq_false. Qed.

Lemma stored_key_issue_eq a b :
  same_key_issue a b = true
  ↔ stored_key a = stored_key b ∧ stored_issue a = stored_issue b.
Proof.
  unfold same_key_issue. by rewrite andb_true_iff, stored_key_eq, bool_decide_eq_true.
Qed.

Lemma history_step_incl history s x : x ∈ history → x ∈ history_step history s.
Proof.
  unfold history_step. destruct (existsb _ _); [done |].
  intros ?. apply elem_of_app. by left.
Qed.

(** A row of History after the step was there before, or is [s], and then
    History held no row of its key and issue. *)
Lemma history_step_from history s x :
  x ∈ history_step history s →
  x ∈ history
  ∨ (x = s ∧ ∀ h, h ∈ history → stored_key h = stored_key s →
                  stored_issue h ≠ stored_issue s).
Proof.
  unfold history_step. destruct (existsb _ _) eqn:He; [by left |].
  intros [?| ->%list_elem_of_singleton]%elem_of_app; [by left |].
  right. split; [done |]. intros h Hh Hk Hi.
  apply not_true_iff_false in He. apply He, existsb_exists.
  exists h. split; [by apply list_elem_of_In |]. by apply stored_key_issue_eq.
Qed.

(** After the step History holds a row of the key and issue of [s]: [s]
    itself, or the row that was there. *)
Lemma history_step_holds history s :
  s ∈ history_step history s
  ∨ ∃ h, h ∈ history ∧ stored_key h = stored_key s
         ∧ stored_issue h = stored_issue s.
Proof.
  unfold history_step. destruct (existsb _ _) eqn:He.
  - right. apply existsb_exists in He
      as (h & Hin%list_elem_of_In & [? ?]%stored_key_issue_eq). by exists h.
  - left. apply elem_of_app. right. by left.
Qed.

(** After the step Latest holds a row of the key of [s] whose issue is not
    below the issue of [s]. *)
Lemma latest_step_covers latest s :
  ∃ l, l ∈ latest_step latest s
       ∧ stored_key l = stored_key s ∧ stored_issue s ≤ stored_issue l.
Proof.
  unfold latest_step. destruct (find _ _) as [old|] eqn:Hf.
  - apply find_some in Hf as [Hin%list_elem_of_In Hk%stored_key_eq].
    destruct (stored_issue old <? stored_issue s) eqn:Hlt.
    + exists s. split; [|done]. apply elem_of_app. right. by left.
    + apply Z.ltb_ge in Hlt. by exists old.
  - exists s. split; [|done]. apply elem_of_app. right. by left.
Qed.

(** A row of another key stays in Latest. *)
Lemma latest_step_other latest s x :
  x ∈ latest → stored_key x ≠ stored_key s → x ∈ latest_step latest s.
Proof.
  intros Hx Hk. unfold latest_step. destruct (find _ _) as [old|].
  - destruct (_ <? _); [|done]. apply elem_of_app. left.
    apply list_elem_of_filter. split; [|done]. apply stored_key_neq. congruence.
  - apply elem_of_app. by left.
Qed.

(** A row of Latest after the step was there before, or is [s]; [s] enters
    only above the rows of its key, and is then the only row of its key. *)
Lemma latest_step_from latest s x :
  (∀ a b, a ∈ latest → b ∈ latest → stored_key a = stored_key b → a = b) →
  x ∈ latest_step latest s →
  x ∈ latest
  ∨ (x = s
     ∧ (∀ y, y ∈ latest → stored_key y = stored_key s →
             stored_issue y < stored_issue s)
     ∧ ∀ y, y ∈ latest_step latest s → stored_key y = stored_key s → y = s).
Proof.
  intros Hlu. unfold latest_step.
  destruct (find (same_key s) latest) as [old|] eqn:Hf.
  - apply find_some in Hf as [Hin%list_elem_of_In Hok%stored_key_eq].
    destruct (stored_issue old <? stored_issue s) eqn:Hlt; [|by left].
    apply Z.ltb_lt in Hlt.
    intros [[_ Hx]%list_elem_of_filter| ->%list_elem_of_singleton]%elem_of_app;
      [by left |].
    right. split_and!; [done | |].
    + intros y Hy Hyk. by rewrite (Hlu y old Hy Hin) by congruence.
    + intros y [[Hne%stored_key_neq _]%list_elem_of_filter
               | ->%list_elem_of_singleton]%elem_of_app Hyk; [congruence | done].
  - intros [Hx| ->%list_elem_of_singleton]%elem_of_app; [by left |].
    assert (∀ y, y ∈ latest → stored_key y ≠ stored_key s) as Hnone.
    { intros y Hy Hyk. eapply find_none in Hf; [|by apply list_elem_of_In].
      apply stored_key_neq in Hf. congruence. }
    right. split_and!; [done | |].
    + intros y Hy Hyk. by destruct (Hnone y Hy).
    + intros y [Hy| ->%list_elem_of_singleton]%elem_of_app Hyk; [|done].
      by destruct (Hnone y Hy).
Qed.

(** The link between History and Latest survives the reconciliation of one
    row. *)
Lemma linked_step history latest s :
  linked history latest → linked (history_step history s) (latest_step latest s).
Proof.
  intros [Hhu Hlu Hlh Hhi]. split.
  - intros a b Ha Hb Hk Hi.
    apply history_step_from in Ha as [Ha|[-> Ha]];
      apply history_step_from in Hb as [Hb|[-> Hb]].
    + by apply Hhu.
    + by destruct (Hb a Ha).
    + by destruct (Ha b Hb).
    + done.
  - intros a b Ha Hb Hk.
    pose proof Ha as Ha'. pose proof Hb as Hb'.
    apply (latest_step_from _ _ _ Hlu) in Ha as [Ha|(-> & _ & Ha)];
      apply (latest_step_from _ _ _ Hlu) in Hb as [Hb|(-> & _ & Hb)].
    + by apply Hlu.
    + by apply Hb.
    + symmetry. by apply Ha.
    + done.
  - intros l Hl. apply (latest_step_from _ _ _ Hlu) in Hl as [Hl|(-> & Hbelow & _)].
    + by apply history_step_incl, Hlh.
    + destruct (history_step_holds history s) as [?|(h & Hh & Hk & Hi)]; [done |].
      destruct (Hhi h Hh) as (l & Hl & Hlk & Hli).
      specialize (Hbelow l Hl). rewrite Hlk, Hk in Hbelow.
      specialize (Hbelow eq_refl). lia.
  - intros h Hh. apply history_step_from in Hh as [Hh|[-> _]];
      [|apply latest_step_covers].
    destruct (Hhi h Hh) as (l & Hl & Hlk & Hli).
    destruct (decide (stored_key h = stored_key s)) as [Hk|Hk].
    + destruct (latest_step_covers latest s) as (l' & Hl' & Hlk' & Hli').
      exists l'. split_and!; [done | congruence |].
      apply (latest_step_from _ _ _ Hlu) in Hl' as [Hl'|(-> & Hbelow & _)].
      * by rewrite (Hlu l' l Hl' Hl) by congruence.
      * specialize (Hbelow l Hl). rewrite Hlk in Hbelow.
        specialize (Hbelow Hk). lia.
    + exists l. split_and!; [|done | done].
      apply latest_step_other; [done | congruence].
Qed.

(** In Latest the issue of a key never goes down. *)
Lemma latest_step_monotone history latest s k i :
  linked history latest →
  (∃ l, l ∈ latest ∧ stored_key l = k ∧ i ≤ stored_issue l) →
  ∃ l, l ∈ latest_step latest s ∧ stored_key l = k ∧ i ≤ stored_issue l.
Proof.
  intros [_ Hlu _ _] (l & Hl & Hk & Hi).
  destruct (decide (stored_key l = stored_key s)) as [Hs|Hs].
  - destruct (latest_step_covers latest s) as (l' & Hl' & Hk' & Hi').
    exists l'. split_and!; [done | congruence |].
    apply (latest_step_from _ _ _ Hlu) in Hl' as [Hl'|(-> & Hbelow & _)].
    + by rewrite (Hlu l' l Hl' Hl) by congruence.
    + specialize (Hbelow l Hl Hs). lia.
  - exists l. split_and!; [|done | done]. by apply latest_step_other.
Qed.

(** *** A batch reconciled into History and Latest *)

Lemma linked_foldl resolved history latest :
  linked history latest →
  linked (foldl history_step history resolved) (foldl latest_step latest resolved).
Proof.
  revert history latest. induction resolved as [|s resolved IH];
    intros history latest Hl; simpl; [done |].
  by apply IH, linked_step.
Qed.

Lemma foldl_history_incl resolved history x :
  x ∈ history → x ∈ foldl history_step history resolved.
Proof.
  revert history. induction resolved as [|s resolved IH]; intros history Hx;
    simpl; [done |].
  by apply IH, history_step_incl.
Qed.

Lemma foldl_history_from resolved history x :
  x ∈ foldl history_step history resolved → x ∈ history ∨ x ∈ resolved.
Proof.
  revert history. induction resolved as [|s resolved IH]; intros history Hx;
    simpl in *; [by left |].
  apply IH in Hx as [Hx|Hx]; [|by right; right].
  apply history_step_from in Hx as [Hx|[-> _]]; [by left | by right; left].
Qed.

Lemma foldl_latest_from resolved history latest x :
  linked history latest →
  x ∈ foldl latest_step latest resolved → x ∈ latest ∨ x ∈ resolved.
Proof.
  revert history latest. induction resolved as [|s resolved IH];
    intros history latest Hl Hx; simpl in *; [by left |].
  apply (IH _ _ (linked_step _ _ s Hl)) in Hx as [Hx|Hx]; [|by right; right].
  apply (latest_step_from _ _ _ (latest_unique _ _ Hl)) in Hx as [Hx|[-> _]];
    [by left | by right; left].
Qed.

Lemma foldl_latest_monotone resolved history latest k i :
  linked history latest →
  (∃ l, l ∈ latest ∧ stored_key l = k ∧ i ≤ stored_issue l) →
  ∃ l, l ∈ foldl latest_step latest resolved ∧ stored_key l = k
       ∧ i ≤ stored_issue l.
Proof.
  revert history latest. induction resolved as [|s resolved IH];
    intros history latest Hl Hex; simpl; [done |].
  apply (IH _ _ (linked_step _ _ s Hl)). by eapply latest_step_monotone.
Qed.

(** Every row of the batch is covered by Latest afterwards. *)
Lemma foldl_latest_covers resolved history latest s :
  linked history latest → s ∈ resolved →
  ∃ l, l ∈ foldl latest_step latest resolved ∧ stored_key l = stored_key s
       ∧ stored_issue s ≤ stored_issue l.
Proof.
  revert history latest. induction resolved as [|s0 resolved IH];
    intros history latest Hl Hs; simpl; [by apply elem_of_nil in Hs |].
  apply elem_of_cons in Hs as [->|Hs].
  - apply (foldl_latest_monotone _ _ _ _ _ (linked_step _ _ s0 Hl)).
    apply latest_step_covers.
  - by apply (IH _ _ (linked_step _ _ s0 Hl)).
Qed.

(** What an accepted batch leaves: the rows loaded with fresh ids, resolved
    in the extended dimension tables and reconciled one after the other. *)
Lemma insert_or_update_batch_after (rows : list (CovidcastRow V)) db :
  signal_load db = [] →
  ∃ loaded resolved sdim' gdim' next,
    load_row <$> loaded = rows
    ∧ Forall (λ lr, (auto_increment db ≤ load_id lr < next)%nat) loaded
    ∧ (auto_increment db ≤ next)%nat
    ∧ Forall2 (resolved_from sdim' gdim') loaded resolved
    ∧ signal_dim db `prefix_of` sdim' ∧ geo_dim db `prefix_of` gdim'
    ∧ (NoDup (signal_dim db) → NoDup sdim') ∧ (NoDup (geo_dim db) → NoDup gdim')
    ∧ after (insert_or_update_batch rows db)
      = {| signal_load := [];
           signal_latest := foldl latest_step (signal_latest db) resolved;
           signal_history := foldl history_step (signal_history db) resolved;
           signal_dim := sdim'; geo_dim := gdim'; auto_increment := next |}.
Proof.
  intros Hload. unfold insert_or_update_batch. rewrite Hload.
  destruct (load_rows_spec rows db)
    as (loaded & Hl & Hr & Hid & Hai & H1 & H2 & H3 & H4).
  rewrite Hload in Hl. simpl in Hl. rewrite Hl, H1, H2, H3, H4.
  destruct (resolve_dims loaded (signal_dim db) (geo_dim db))
    as [[resolved sdim'] gdim'] eqn:Hres.
  apply resolve_dims_spec in Hres as (Hp1 & Hp2 & Hn1 & Hn2 & Hall).
  exists loaded, resolved, sdim', gdim', (auto_increment (load_rows rows db)).
  by split_and!.
Qed.

(** The rows resolved from a batch refer to entries of the dimension tables
    and carry the fresh ids. *)
Lemma resolved_from_in sdim gdim (loaded : list (LoadRow V)) resolved s :
  Forall2 (resolved_from sdim gdim) loaded resolved → s ∈ resolved →
  ∃ lr, lr ∈ loaded ∧ resolved_from sdim gdim lr s.
Proof.
  intros Hall Hs. apply list_elem_of_lookup in Hs as [i Hi].
  destruct (Forall2_lookup_r _ _ _ _ _ Hall Hi) as (lr & Hlr & Hres).
  exists lr. split; [|done]. by eapply list_elem_of_lookup_2.
Qed.

(** A batch keeps the database consistent. *)
Lemma insert_or_update_batch_consistent (rows : list (CovidcastRow V)) db :
  consistent db → consistent (after (insert_or_update_batch rows db)).
Proof.
  intros [Hload Hsd Hgd Hrange Hids Hlinked].
  destruct (insert_or_update_batch_after rows db Hload)
    as (loaded & resolved & sdim' & gdim' & next & Hr & Hid & Hnext & Hall
        & Hp1 & Hp2 & Hn1 & Hn2 & ->).
  split; simpl.
  - done.
  - auto.
  - auto.
  - intros s [Hs|Hs]%foldl_history_from.
    + destruct (Hrange s Hs) as [? ?].
      apply prefix_length in Hp1, Hp2. lia.
    + destruct (resolved_from_in _ _ _ _ _ Hall Hs) as (lr & _ & _ & _ & H1 & H2).
      apply lookup_lt_Some in H1, H2. done.
  - intros s [Hs|Hs]%foldl_history_from.
    + specialize (Hids s Hs). lia.
    + destruct (resolved_from_in _ _ _ _ _ Hall Hs) as (lr & Hlr & Hi & _).
      rewrite Forall_forall in Hid. specialize (Hid lr Hlr). lia.
  - by apply linked_foldl.
Qed.

Lemma empty_database_consistent : consistent (empty_database (V:=V)).
Proof.
  split; simpl.
  - done.
  - apply NoDup_nil_2.
  - apply NoDup_nil_2.
  - by intros s ?%elem_of_nil.
  - by intros s ?%elem_of_nil.
  - split.
    + by intros a b ?%elem_of_nil.
    + by intros a b ?%elem_of_nil.
    + by intros l ?%elem_of_nil.
    + by intros h ?%elem_of_nil.
Qed.

(** Every database reached from the empty one is consistent; in particular
    every batch of the sequence was accepted. *)
Lemma insert_batches_consistent (batches : list (list (CovidcastRow V))) db :
  consistent db → consistent (insert_batches batches db).
Proof.
  unfold insert_batches. revert db.
  induction batches as [|rows batches IH]; intros db Hc; simpl; [done |].
  by apply IH, insert_or_update_batch_consistent.
Qed.

(** *** The views *)

Lemma view_row_Some db s (v : ViewRow V) :
  view_row db s = Some v
  ↔ signal_dim db !! signal_key_id s = Some (v_source v, v_signal v)
    ∧ geo_dim db !! geo_key_id s = Some (v_geo_type v, v_geo_value v)
    ∧ v_signal_data_id v = signal_data_id s
    ∧ v_columns v = columns s.
Proof.
  unfold view_row.
  destruct (signal_dim db !! signal_key_id s) as [[src sig]|],
    (geo_dim db !! geo_key_id s) as [[gt gv]|]; destruct v; simpl;
    split; try done; try (by intros (? & ? & _)); try (by intros (? & _)).
  - by intros [= <- <- <- <- <- <-].
  - by intros ([= <- <-] & [= <- <-] & <- & <-).
Qed.

Lemma view_row_in_range db s :
  (signal_key_id s < length (signal_dim db))%nat →
  (geo_key_id s < length (geo_dim db))%nat →
  is_Some (view_row db s).
Proof.
  intros [[src sig] Hs]%lookup_lt_is_Some [[gt gv] Hg]%lookup_lt_is_Some.
  unfold view_row. rewrite Hs, Hg. by eexists.
Qed.

Lemma view_row_issue db s (v : ViewRow V) :
  view_row db s = Some v → v_issue v = stored_issue s.
Proof.
  intros (_ & _ & _ & Hc)%view_row_Some. unfold v_issue, stored_issue. by rewrite Hc.
Qed.

(** The dimension tables have no entry twice: rows with one natural key in
    the views have one stored key. *)
Lemma view_row_stored_key db s1 s2 (v1 v2 : ViewRow V) :
  NoDup (signal_dim db) → NoDup (geo_dim db) →
  view_row db s1 = Some v1 → view_row db s2 = Some v2 →
  natural_key v1 = natural_key v2 → stored_key s1 = stored_key s2.
Proof.
  intros Hsd Hgd (Hs1 & Hg1 & _ & Hc1)%view_row_Some
    (Hs2 & Hg2 & _ & Hc2)%view_row_Some Hk.
  unfold natural_key in Hk. injection Hk as Hsrc Hsig Htt Htv Hgt Hgv.
  rewrite Hsrc, Hsig in Hs1. rewrite Hgt, Hgv in Hg1.
  unfold stored_key. rewrite <-Hc1, <-Hc2, Htt, Htv.
  by rewrite (NoDup_lookup _ _ _ _ Hsd Hs1 Hs2), (NoDup_lookup _ _ _ _ Hgd Hg1 Hg2).
Qed.

(** The dimension tables only grow: a row keeps its view. *)
Lemma view_row_extend db db' s (v : ViewRow V) :
  signal_dim db `prefix_of` signal_dim db' →
  geo_dim db `prefix_of` geo_dim db' →
  view_row db s = Some v → view_row db' s = Some v.
Proof.
  intros Hp1 Hp2 (Hs & Hg & ? & ?)%view_row_Some. apply view_row_Some.
  split_and!; [by eapply prefix_lookup_Some | by eapply prefix_lookup_Some
               | done | done].
Qed.

(** *** Latest and History stay in sync *)

(** In a consistent database a row of the view of Latest is a row of the
    view of History, and the only one of its natural key and issue. *)
Lemma consistent_id_sync db (l : ViewRow V) :
  consistent db → l ∈ signal_latest_v db →
  l ∈ signal_history_v db
  ∧ ∀ h : ViewRow V, h ∈ signal_history_v db →
      natural_key h = natural_key l → v_issue h = v_issue l →
      v_signal_data_id h = v_signal_data_id l.
Proof.
  intros [_ Hsd Hgd _ _ [Hhu _ Hlh _]] (sl & Hsl & Hvl)%list_elem_of_omap.
  split.
  - apply list_elem_of_omap. exists sl. split; [by apply Hlh | done].
  - intros h (sh & Hsh & Hvh)%list_elem_of_omap Hk Hi.
    assert (sh = sl) as ->.
    { apply Hhu; [done | by apply Hlh | by eapply view_row_stored_key |].
      by rewrite <-(view_row_issue _ _ _ Hvh), <-(view_row_issue _ _ _ Hvl). }
    congruence.
Qed.

(** A batch with a row of a higher issue for a natural key that Latest
    holds: Latest then holds a row of that key with a higher issue and a
    fresh surrogate id, the row it held is gone from Latest and still in
    History. *)
Lemma consistent_reissue db (rows : list (CovidcastRow V)) (old : ViewRow V) r :
  consistent db → old ∈ signal_latest_v db → r ∈ rows →
  row_key r = natural_key old → v_issue old < issue r →
  (∃ new : ViewRow V,
     new ∈ signal_latest_v (after (insert_or_update_batch rows db))
     ∧ natural_key new = natural_key old
     ∧ issue r ≤ v_issue new
     ∧ (auto_increment db ≤ v_signal_data_id new)%nat
     ∧ (∃ r', r' ∈ rows ∧ row_key r' = natural_key new ∧ issue r' = v_issue new)
     ∧ ∀ x : ViewRow V,
         x ∈ signal_latest_v (after (insert_or_update_batch rows db)) →
         natural_key x = natural_key old → x = new)
  ∧ (old ∉ signal_latest_v (after (insert_or_update_batch rows db)))
  ∧ old ∈ signal_history_v (after (insert_or_update_batch rows db)).
Proof.
  intros Hc (sold & Hsold & Hvold)%list_elem_of_omap Hr Hkey Hlt.
  pose proof (insert_or_update_batch_consistent rows db Hc) as Hc'.
  destruct Hc as [Hload Hsd Hgd Hrange Hids Hlinked].
  destruct (insert_or_update_batch_after rows db Hload)
    as (loaded & resolved & sdim' & gdim' & next & Hrows & Hid & Hnext & Hall
        & Hp1 & Hp2 & Hn1 & Hn2 & Hafter).
  rewrite Hafter in *. clear Hafter.
  set (db' := {| signal_load := [];
                 signal_latest := foldl latest_step (signal_latest db) resolved;
                 signal_history := foldl history_step (signal_history db) resolved;
                 signal_dim := sdim'; geo_dim := gdim'; auto_increment := next |})
    in *.
  destruct Hc' as [_ Hsd' Hgd' Hrange' _ Hlinked'].
  (* the row of the batch, loaded and resolved *)
  rewrite <-Hrows in Hr. apply list_elem_of_fmap in Hr as (lr & -> & Hlr).
  apply list_elem_of_lookup in Hlr as [i Hi].
  destruct (Forall2_lookup_l _ _ _ _ _ Hall Hi) as (sr & Hsr & Hres).
  apply list_elem_of_lookup_2 in Hsr.
  destruct Hres as (_ & Hcr & Hsr1 & Hsr2).
  (* the old row keeps its view *)
  assert (view_row db' sold = Some old) as Hvold'
    by (by apply (view_row_extend db db')).
  (* both have the same stored key *)
  assert (stored_key sr = stored_key sold) as Hsame.
  { pose proof Hvold' as (Ho1 & Ho2 & _ & Hco)%view_row_Some. simpl in Ho1, Ho2.
    unfold row_key, natural_key in Hkey.
    injection Hkey as Hsrc Hsig Htt Htv Hgt Hgv.
    rewrite Hsrc, Hsig in Hsr1. rewrite Hgt, Hgv in Hsr2.
    unfold stored_key. rewrite Hcr, <-Hco. simpl. rewrite Htt, Htv.
    by rewrite (NoDup_lookup _ _ _ _ Hsd' Hsr1 Ho1),
      (NoDup_lookup _ _ _ _ Hgd' Hsr2 Ho2). }
  assert (stored_issue sr = issue (load_row lr)) as Hissue
    by (unfold stored_issue; by rewrite Hcr).
  (* Latest covers the row of the batch *)
  destruct (foldl_latest_covers resolved _ _ sr Hlinked Hsr)
    as (l & Hl & Hlk & Hli).
  assert (l ∈ resolved) as Hlres.
  { destruct (foldl_latest_from _ _ _ _ Hlinked Hl) as [Hlold|?]; [|done].
    assert (l = sold) as -> by (apply (latest_unique _ _ Hlinked); congruence).
    rewrite <-(view_row_issue _ _ _ Hvold) in Hli. lia. }
  destruct (resolved_from_in _ _ _ _ _ Hall Hlres)
    as (lr' & Hlr' & Hidl & Hcl & Hl1 & Hl2).
  rewrite Forall_forall in Hid. specialize (Hid lr' Hlr').
  assert (l ∈ signal_history db') as Hlh by (by apply (latest_in_history _ _ Hlinked')).
  destruct (Hrange' l Hlh) as [Hr1 Hr2].
  destruct (view_row_in_range db' l Hr1 Hr2) as [new Hnew].
  assert (natural_key new = natural_key old) as Hnk.
  { pose proof Hnew as (Hn1' & Hn2' & _ & Hcn)%view_row_Some.
    pose proof Hvold' as (Ho1 & Ho2 & _ & Hco)%view_row_Some.
    assert (stored_key l = stored_key sold) as Hlo by congruence.
    unfold stored_key in Hlo. injection Hlo as Hk1 Hk2 Htt Htv.
    rewrite Hk1 in Hn1'. rewrite Hk2 in Hn2'.
    rewrite Ho1 in Hn1'. rewrite Ho2 in Hn2'.
    injection Hn1' as E1 E2. injection Hn2' as E3 E4.
    unfold natural_key. by rewrite <-E1, <-E2, <-E3, <-E4, Hcn, Hco, Htt, Htv. }
  split_and!.
  - exists new. split_and!.
    + apply list_elem_of_omap. by exists l.
    + done.
    + rewrite (view_row_issue _ _ _ Hnew). lia.
    + apply view_row_Some in Hnew as (_ & _ & -> & _). lia.
    + exists (load_row lr'). split_and!.
      * rewrite <-Hrows. apply list_elem_of_fmap. by exists lr'.
      * pose proof Hnew as (Hn1' & Hn2' & _ & Hcn)%view_row_Some.
        simpl in Hn1', Hn2'. rewrite Hl1 in Hn1'. rewrite Hl2 in Hn2'.
        injection Hn1' as E1 E2. injection Hn2' as E3 E4.
        unfold row_key, natural_key. by rewrite E1, E2, E3, E4, Hcn, Hcl.
      * rewrite (view_row_issue _ _ _ Hnew). unfold stored_issue. by rewrite Hcl.
    + intros x (sx & Hsx & Hvx)%list_elem_of_omap Hxk.
      assert (sx = l) as ->.
      { apply (latest_unique _ _ Hlinked'); [done | done |].
        eapply (view_row_stored_key db'); [done | done | done | done | congruence]. }
      congruence.
  - intros (sx & Hsx & Hvx)%list_elem_of_omap.
    assert (sx = l) as ->.
    { apply (latest_unique _ _ Hlinked'); [done | done |].
      by eapply (view_row_stored_key db'). }
    rewrite Hnew in Hvx. injection Hvx as ->.
    rewrite (view_row_issue _ _ _ Hnew) in Hlt. lia.
  - apply list_elem_of_omap. exists sold. split; [|done].
    by apply foldl_history_incl, (latest_in_history _ _ Hlinked).
Qed.

(** The surrogate ids of the views are ids the load table handed out. *)
Lemma consistent_ids_below db (x : ViewRow V) :
  consistent db → x ∈ signal_latest_v db ++ signal_history_v db →
  (v_signal_data_id x < auto_increment db)%nat.
Proof.
  intros [_ _ _ _ Hids [_ _ Hlh _]]
    [(s & Hs & Hv)%list_elem_of_omap|(s & Hs & Hv)%list_elem_of_omap]%elem_of_app;
    apply view_row_Some in Hv as (_ & _ & -> & _); auto.
Qed.

(** History only grows, in the view as in the table. *)
Lemma signal_history_v_grows (rows : list (CovidcastRow V)) db (x : ViewRow V) :
  consistent db → x ∈ signal_history_v db →
  x ∈ signal_history_v (after (insert_or_update_batch rows db)).
Proof.
  intros Hc (sx & Hsx & Hvx)%list_elem_of_omap.
  destruct (insert_or_update_batch_after rows db (load_empty _ Hc))
    as (loaded & resolved & sdim' & gdim' & next & _ & _ & _ & _
        & Hp1 & Hp2 & _ & _ & ->).
  apply list_elem_of_omap. exists sx. split.
  - by apply foldl_history_incl.
  - by eapply view_row_extend.
Qed.

Lemma signal_history_v_grows_batches (batches : list (list (CovidcastRow V))) db
    (x : ViewRow V) :
  consistent db → x ∈ signal_history_v db →
  x ∈ signal_history_v (insert_batches batches db).
Proof.
  unfold insert_batches. revert db.
  induction batches as [|rows batches IH]; intros db Hc Hx; simpl; [done |].
  apply IH; [by apply insert_or_update_batch_consistent |].
  by apply signal_history_v_grows.
Qed.

(** A row is not in Latest when History holds a higher issue of its key. *)
Lemma superseded_not_latest db (old newer : ViewRow V) :
  consistent db → newer ∈ signal_history_v db →
  natural_key newer = natural_key old → v_issue old < v_issue newer →
  old ∉ signal_latest_v db.
Proof.
  intros [_ Hsd Hgd _ _ [_ Hlu _ Hhi]] (sh & Hsh & Hvh)%list_elem_of_omap Hk Hlt
    (sx & Hsx & Hvx)%list_elem_of_omap.
  destruct (Hhi sh Hsh) as (l & Hl & Hlk & Hli).
  assert (stored_key sx = stored_key sh) as Hxk
    by (by eapply view_row_stored_key).
  assert (sx = l) as -> by (apply Hlu; [done | done | congruence]).
  rewrite (view_row_issue _ _ _ Hvh), (view_row_issue _ _ _ Hvx) in Hlt. lia.
Qed.

Lemma insert_or_update_batch_accepts (rows : list (CovidcastRow V)) db :
  signal_load db = [] → raised (insert_or_update_batch rows db) = Ok tt.
Proof.
  intros Hload. unfold insert_or_update_batch. rewrite Hload.
  by destruct (resolve_dims _ _ _) as [[? ?] ?].
Qed.

(** C1. After any sequence of batches, every row in the view of Latest has
    a row of its natural key and issue in the view of History, and every
    such row of History carries the surrogate id of the Latest row. When a
    further batch brings a natural key of Latest at a strictly higher issue,
    the batch is accepted, Latest then holds one row of that key, which comes
    from the batch, has a higher issue and a surrogate id that no row
    carried before, in particular not the old row; the old row is gone from
    Latest, whatever batches follow, and still in History. *)
Theorem id_sync (batches : list (list (CovidcastRow V))) :
  let db := insert_batches batches empty_database in
  (∀ l : ViewRow V, l ∈ signal_latest_v db →
     (∃ h : ViewRow V, h ∈ signal_history_v db
          ∧ natural_key h = natural_key l ∧ v_issue h = v_issue l)
     ∧ ∀ h : ViewRow V, h ∈ signal_history_v db →
         natural_key h = natural_key l → v_issue h = v_issue l →
         v_signal_data_id h = v_signal_data_id l)
  ∧ (∀ (rows : list (CovidcastRow V)) (old : ViewRow V) r,
       old ∈ signal_latest_v db → r ∈ rows →
       row_key r = natural_key old → v_issue old < issue r →
       raised (insert_or_update_batch rows db) = Ok tt
       ∧ (∃ new : ViewRow V,
            new ∈ signal_latest_v (after (insert_or_update_batch rows db))
            ∧ natural_key new = natural_key old
            ∧ v_issue old < v_issue new
            ∧ (∃ r', r' ∈ rows ∧ row_key r' = natural_key new
                     ∧ issue r' = v_issue new)
            ∧ v_signal_data_id new ≠ v_signal_data_id old
            ∧ (∀ x : ViewRow V, x ∈ signal_latest_v db ++ signal_history_v db →
                 v_signal_data_id x ≠ v_signal_data_id new)
            ∧ ∀ x : ViewRow V,
                x ∈ signal_latest_v (after (insert_or_update_batch rows db)) →
                natural_key x = natural_key old → x = new)
       ∧ (∀ more : list (list (CovidcastRow V)),
            old ∉ signal_latest_v
                    (insert_batches more (after (insert_or_update_batch rows db))))
       ∧ old ∈ signal_history_v (after (insert_or_update_batch rows db))).
Proof.
  intros db.
  assert (consistent db) as Hc
    by apply insert_batches_consistent, empty_database_consistent.
  split.
  - intros l Hl. destruct (consistent_id_sync db l Hc Hl) as [Hin Hsync].
    split; [by exists l | done].
  - intros rows old r Hold Hr Hkey Hlt.
    destruct (consistent_reissue db rows old r Hc Hold Hr Hkey Hlt)
      as ((new & Hnew & Hnk & Hni & Hfresh & Hfrom & Hone) & Hgone & Hkept).
    assert (∀ x : ViewRow V, x ∈ signal_latest_v db ++ signal_history_v db →
              v_signal_data_id x ≠ v_signal_data_id new) as Hnone.
    { intros x Hx. pose proof (consistent_ids_below db x Hc Hx). lia. }
    pose proof (insert_or_update_batch_consistent rows db Hc) as Hc'.
    split_and!; [| | |done].
    3:{ intros more.
        apply (superseded_not_latest _ old new);
          [by apply insert_batches_consistent | | done | lia].
        apply signal_history_v_grows_batches; [done |].
        by apply consistent_id_sync. }
    + apply insert_or_update_batch_accepts, (load_empty _ Hc).
    + exists new. split_and!; [done | done | lia | done | | done | done].
      intros Heq. apply (Hnone old); [|done]. apply elem_of_app. by left.
Qed.

End IdSync.

(** The test of the ids: a row, then the same natural key one issue
    later. *)
Lemma id_sync_witness :
  let row i := {| SignalDb.source := "src"; SignalDb.signal := "sig";
                  SignalDb.time_type := "day"; SignalDb.geo_type := "state";
                  SignalDb.time_value := 20220222; SignalDb.geo_value := "pa";
                  SignalDb.value := 2; SignalDb.stderr := 22;
                  SignalDb.sample_size := 222; SignalDb.missing_value := 0;
                  SignalDb.missing_stderr := 0;
                  SignalDb.missing_sample_size := 0;
                  SignalDb.issue := i; SignalDb.lag := 0 |} in
  let view id i := {| SignalDb.v_signal_data_id := id;
                      SignalDb.v_source := "src"; SignalDb.v_signal := "sig";
                      SignalDb.v_geo_type := "state"; SignalDb.v_geo_value := "pa";
                      SignalDb.v_columns := SignalDb.columns_of (row i) |} in
  let db := SignalDb.insert_batches [[row 20220222]] SignalDb.empty_database in
  let db' := SignalDb.after (SignalDb.insert_or_update_batch [row 20220223] db) in
  (view 1%nat 20220222 ∈ SignalDb.signal_latest_v db
   ∧ row 20220223 ∈ [row 20220223]
   ∧ SignalDb.row_key (row 20220223) = SignalDb.natural_key (view 1%nat 20220222)
   ∧ SignalDb.v_issue (view 1%nat 20220222) < SignalDb.issue (row 20220223))
  ∧ (view 1%nat 20220222 ∉ SignalDb.signal_latest_v db')
  ∧ view 1%nat 20220222 ∈ SignalDb.signal_history_v db'
  ∧ SignalDb.signal_latest_v db' = [view 2%nat 20220223]
  ∧ SignalDb.signal_history_v db' = [view 1%nat 20220222; view 2%nat 20220223].
Proof.
  intros row view db db'.
  assert (view 1%nat 20220222 ∈ SignalDb.signal_latest_v db) as Hold
    by (vm_compute; left).
  assert (row 20220223 ∈ [row 20220223]) as Hr by left.
  assert (SignalDb.row_key (row 20220223)
          = SignalDb.natural_key (view 1%nat 20220222)) as Hkey by done.
  assert (SignalDb.v_issue (view 1%nat 20220222) < SignalDb.issue (row 20220223))
    as Hlt by done.
  destruct (id_sync [[row 20220222]]) as [_ Hre].
  destruct (Hre [row 20220223] (view 1%nat 20220222) (row 20220223)
              Hold Hr Hkey Hlt) as (_ & _ & Hgone & Hkept).
  split_and!; [done | done | done | done | apply (Hgone []) | done | done | done].
Defined.

(** ** The true division behind [date_string] *)

Section TrueDivision.

Lemma pow2_nonneg (e : Z) : 0 ≤ e → pow2 e = 2 ^ e.
Proof. intros He. unfold pow2. by rewrite Z.max_r. Qed.

Lemma pow2_nonpos (e : Z) : e ≤ 0 → pow2 e = 1.
Proof. intros He. unfold pow2. by rewrite Z.max_l. Qed.

Lemma pow2_pos (e : Z) : 0 < pow2 e.
Proof. unfold pow2. apply Z.pow_pos_nonneg; lia. Qed.

(** The rounded quotient of a scaled numerator stays within the scaled
    integer part of the quotient, when the scale exceeds half the
    divisor. *)
Lemma round_half_even_scaled (n d P : Z) :
  0 ≤ n → 0 < d → 0 < P → d < 2 * P →
  n / d * P ≤ round_half_even (n * P) d < (n / d + 1) * P.
Proof.
  intros Hn Hd HP Hhalf.
  pose proof (Z.div_mod n d ltac:(lia)) as En.
  pose proof (Z.mod_pos_bound n d Hd) as Rn.
  pose proof (Z.div_mod (n * P) d ltac:(lia)) as EN.
  pose proof (Z.mod_pos_bound (n * P) d Hd) as RN.
  assert (0 ≤ n / d) as Hq by (apply Z.div_pos; lia).
  set (q := n / d) in *. set (r := n mod d) in *.
  set (U := n * P / d) in *. set (W := (n * P) mod d) in *.
  assert (q * P ≤ U) as Hlow.
  { apply Z.div_le_lower_bound; [done |]. nia. }
  assert (d * U + W ≤ d * ((q + 1) * P) - P) as Hup by nia.
  unfold round_half_even. fold U W.
  destruct (Z.ltb_spec (2 * W) d); [nia |].
  assert (U + 1 < (q + 1) * P) as Hnext by nia.
  destruct (Z.ltb_spec d (2 * W)); [lia |].
  destruct (Z.even U); lia.
Qed.

(** The exponent taken for the quotient is the integer part of its binary
    logarithm, up to the lower bound that is needed here. *)
Lemma quotient_exponent_spec (n d : Z) :
  0 < n → 0 < d →
  d * pow2 (quotient_exponent n d) ≤ n * pow2 (- quotient_exponent n d)
  ∧ Z.log2 n - Z.log2 d - 1 ≤ quotient_exponent n d ≤ Z.log2 n - Z.log2 d.
Proof.
  intros Hn Hd. unfold quotient_exponent.
  pose proof (Z.log2_spec n Hn) as [Ln _].
  pose proof (Z.log2_spec d Hd) as [_ Ld].
  pose proof (Z.log2_nonneg n) as Ha. pose proof (Z.log2_nonneg d) as Hb.
  set (a := Z.log2 n) in *. set (b := Z.log2 d) in *.
  destruct (Z.ltb_spec (n * pow2 (- (a - b))) (d * pow2 (a - b))) as [Hlt|Hge].
  - split; [|lia]. destruct (decide (1 ≤ a - b)) as [Hk|Hk].
    + rewrite (pow2_nonneg (a - b - 1)), (pow2_nonpos (- (a - b - 1))) by lia.
      assert (2 ^ a = 2 ^ Z.succ b * 2 ^ (a - b - 1)) as Ea.
      { rewrite <-Z.pow_add_r by lia. f_equal. lia. }
      assert (0 < 2 ^ (a - b - 1)) by (apply Z.pow_pos_nonneg; lia). nia.
    + rewrite (pow2_nonpos (a - b - 1)), (pow2_nonneg (- (a - b - 1))) by lia.
      assert (2 ^ Z.succ b = 2 ^ a * 2 ^ (- (a - b - 1))) as Eb.
      { rewrite <-Z.pow_add_r by lia. f_equal. lia. }
      assert (0 < 2 ^ (- (a - b - 1))) by (apply Z.pow_pos_nonneg; lia). nia.
  - split; [done | lia].
Qed.

(** Below [2 ^ 53] the rounding of the division does not reach the next
    integer: [int(a / d)] is the quotient truncated towards zero. *)
Lemma int_truediv_small (a d : Z) :
  Z.abs a < 2 ^ 53 → 0 < d < 2 ^ 53 →
  ∃ x, int_truediv a d = Ok x ∧ int_of_double x = Z.quot a d.
Proof.
  intros Ha Hd. unfold int_truediv.
  destruct (Z.eqb_spec d 0) as [|_]; [lia |].
  destruct (Z.eqb_spec a 0) as [->|Hne].
  { eexists. split; [done |]. by destruct d. }
  rewrite (Z.abs_eq d) by lia.
  set (n := Z.abs a) in *. assert (0 < n) as Hn by (unfold n; lia).
  destruct (quotient_exponent_spec n d Hn ltac:(lia)) as [Hlow Hlg].
  assert (Z.log2 n < 53) as Hln by (apply Z.log2_lt_pow2; lia).
  assert (Z.log2 d < 53) as Hld by (apply Z.log2_lt_pow2; lia).
  pose proof (Z.log2_nonneg n). pose proof (Z.log2_nonneg d).
  set (lg := quotient_exponent n d) in *.
  rewrite (Z.max_l (lg - 52)) by lia.
  assert (lg ≤ 52) as Hlg52 by lia.
  rewrite (pow2_nonpos (lg - 52)), (pow2_nonneg (- (lg - 52))) by lia.
  set (s := - (lg - 52)) in *.
  assert (0 < 2 ^ s) as Hs by (apply Z.pow_pos_nonneg; lia).
  assert (2 ^ s ≤ 2 ^ 105) as Hs105 by (apply Z.pow_le_mono_r; lia).
  assert (d < 2 * 2 ^ s) as Hhalf.
  { destruct (decide (0 ≤ lg)) as [Hpos|Hneg].
    - rewrite (pow2_nonneg lg), (pow2_nonpos (- lg)) in Hlow by lia.
      assert (2 ^ 53 = 2 * 2 ^ s * 2 ^ lg) as E.
      { replace (2 * 2 ^ s) with (2 ^ (1 + s)) by (rewrite Z.pow_add_r by lia; done).
        rewrite <-Z.pow_add_r by lia. f_equal. lia. }
      assert (0 < 2 ^ lg) by (apply Z.pow_pos_nonneg; lia). nia.
    - rewrite (pow2_nonpos lg), (pow2_nonneg (- lg)) in Hlow by lia.
      assert (2 * 2 ^ s = 2 ^ 53 * 2 ^ (- lg)) as E.
      { replace (2 * 2 ^ s) with (2 ^ (1 + s)) by (rewrite Z.pow_add_r by lia; done).
        rewrite <-Z.pow_add_r by lia. f_equal. lia. }
      assert (0 < 2 ^ (- lg)) by (apply Z.pow_pos_nonneg; lia). nia. }
  rewrite !Z.mul_1_r.
  pose proof (round_half_even_scaled n d (2 ^ s) ltac:(lia) ltac:(lia) Hs Hhalf)
    as [Hm1 Hm2].
  set (m := round_half_even (n * 2 ^ s) d) in *.
  assert (0 ≤ n / d) as Hq by (apply Z.div_pos; lia).
  assert (n / d < 2 ^ 53) as Hq53.
  { apply Z.div_lt_upper_bound; [lia |]. nia. }
  assert (m / 2 ^ s = n / d) as Hdiv.
  { symmetry. apply (Z.div_unique m (2 ^ s) (n / d) (m - n / d * 2 ^ s)); lia. }
  assert (m < 2 ^ 1024) as Hfin.
  { assert (2 ^ 53 * 2 ^ 105 ≤ 2 ^ 1024) by done. nia. }
  destruct (Z.leb_spec (2 ^ 1024) m) as [|_]; [lia |].
  eexists. split; [done |]. unfold int_of_double. simpl.
  rewrite (pow2_nonpos (lg - 52)), (pow2_nonneg (- (lg - 52))) by lia.
  fold s. rewrite Z.mul_1_r.
  assert (Z.sgn d = 1) as -> by (apply Z.sgn_pos; lia).
  rewrite Z.mul_1_r.
  assert (0 ≤ m) as Hm0 by nia.
  destruct (Z.lt_total a 0) as [Hneg|[->|Hpos]]; [| done |].
  - rewrite (Z.sgn_neg a) by done.
    replace (-1 * m) with (- m) by lia.
    rewrite Z.quot_opp_l by lia. rewrite Z.quot_div_nonneg by lia. rewrite Hdiv.
    replace a with (- n) by (unfold n; lia).
    rewrite Z.quot_opp_l by lia. by rewrite Z.quot_div_nonneg by lia.
  - rewrite (Z.sgn_pos a) by done. rewrite Z.mul_1_l.
    rewrite Z.quot_div_nonneg by lia. rewrite Hdiv.
    replace a with n by (unfold n; lia).
    by rewrite Z.quot_div_nonneg by lia.
Qed.

End TrueDivision.


(** ** Dates as strings *)

Section DateString.

Import Query Digits.

Lemma string_length_app (a b : string) :
  String.length (a +:+ b) = (String.length a + String.length b)%nat.
Proof. induction a as [|c a IH]; simpl; [done | by rewrite IH]. Qed.

(** Strings of one length in front: the heads and the tails agree. *)
Lemma string_app_inj_length (a b x y : string) :
  String.length a = String.length b → a +:+ x = b +:+ y → a = b ∧ x = y.
Proof.
  revert b. induction a as [|c a IH]; intros [|d b] Hlen Heq; simpl in *;
    try done.
  injection Hlen as Hlen. injection Heq as -> Heq.
  destruct (IH b Hlen Heq) as [-> ->]. done.
Qed.

(** Up to four digits, padded to four characters, read back as the
    number. *)
Lemma zero_pad_4 (n : Z) :
  0 ≤ n < 10000 →
  String.length (zero_pad 4 n) = 4%nat ∧ digits_value (zero_pad 4 n) = Some n.
Proof.
  intros Hn.
  assert (forallb (λ k, (String.length (zero_pad 4 k) =? 4)%nat
                        && bool_decide (digits_value (zero_pad 4 k) = Some k))
            (Z.of_nat <$> seq 0 (Z.to_nat 10000)) = true) as Hall by (by vm_compute).
  rewrite forallb_forall in Hall. specialize (Hall n).
  rewrite andb_true_iff, Nat.eqb_eq, bool_decide_eq_true in Hall. apply Hall.
  apply list_elem_of_In, list_elem_of_fmap. exists (Z.to_nat n).
  split; [by rewrite Z2Nat.id by lia |]. apply elem_of_seq. lia.
Qed.

Lemma zero_pad_2 (n : Z) :
  0 ≤ n < 100 →
  String.length (zero_pad 2 n) = 2%nat ∧ digits_value (zero_pad 2 n) = Some n.
Proof.
  intros Hn.
  assert (forallb (λ k, (String.length (zero_pad 2 k) =? 2)%nat
                        && bool_decide (digits_value (zero_pad 2 k) = Some k))
            (Z.of_nat <$> seq 0 (Z.to_nat 100)) = true) as Hall by (by vm_compute).
  rewrite forallb_forall in Hall. specialize (Hall n).
  rewrite andb_true_iff, Nat.eqb_eq, bool_decide_eq_true in Hall. apply Hall.
  apply list_elem_of_In, list_elem_of_fmap. exists (Z.to_nat n).
  split; [by rewrite Z2Nat.id by lia |]. apply elem_of_seq. lia.
Qed.

(** Below [2 ^ 53] the parts are those of the truncated quotients. *)
Lemma date_parts_small (value : Z) :
  Z.abs value < 2 ^ 53 →
  date_parts value
  = Ok (Z.quot value 10000 mod 10000, Z.quot value 100 mod 100, value mod 100).
Proof.
  intros Hv. unfold date_parts.
  destruct (int_truediv_small value 10000 Hv ltac:(lia)) as (y & -> & Ey).
  destruct (int_truediv_small value 100 Hv ltac:(lia)) as (m & -> & Em).
  simpl. by rewrite Ey, Em.
Qed.

(** The three groups of digits of a date string. *)
Lemma date_string_groups (value : Z) :
  Z.abs value < 2 ^ 53 →
  ∃ ys ms ds,
    date_string value = Ok (ys +:+ "-" +:+ ms +:+ "-" +:+ ds)
    ∧ String.length ys = 4%nat ∧ String.length ms = 2%nat
    ∧ String.length ds = 2%nat
    ∧ (digits_value ys, digits_value ms, digits_value ds)
      = (Some (Z.quot value 10000 mod 10000), Some (Z.quot value 100 mod 100),
         Some (value mod 100)).
Proof.
  intros Hv. unfold date_string. rewrite (date_parts_small value Hv).
  destruct (zero_pad_4 (Z.quot value 10000 mod 10000)) as [Ly Vy];
    [apply Z.mod_pos_bound; lia |].
  destruct (zero_pad_2 (Z.quot value 100 mod 100)) as [Lm Vm];
    [apply Z.mod_pos_bound; lia |].
  destruct (zero_pad_2 (value mod 100)) as [Ld Vd];
    [apply Z.mod_pos_bound; lia |].
  eexists _, _, _. split; [reflexivity |].
  split_and!; [done | done | done | by rewrite Vy, Vm, Vd].
Qed.

(** X1. For an integer of absolute value below [2 ^ 53], [date_string]
    returns a date written as [YYYY-MM-DD]: four digits, a dash, two digits,
    a dash, two digits, ten characters in all, and the three groups of
    digits read back as the year, month and day parts of the integer. *)
Theorem date_string_format (value : Z) :
  Z.abs value < 2 ^ 53 →
  ∃ s ys ms ds,
    date_string value = Ok s
    ∧ s = ys +:+ "-" +:+ ms +:+ "-" +:+ ds
    ∧ String.length ys = 4%nat ∧ String.length ms = 2%nat
    ∧ String.length ds = 2%nat
    ∧ String.length s = 10%nat
    ∧ (digits_value ys, digits_value ms, digits_value ds)
      = (Some (Z.quot value 10000 mod 10000), Some (Z.quot value 100 mod 100),
         Some (value mod 100)).
Proof.
  intros Hv.
  destruct (date_string_groups value Hv) as (ys & ms & ds & E & Ly & Lm & Ld & V).
  exists (ys +:+ "-" +:+ ms +:+ "-" +:+ ds), ys, ms, ds.
  split_and!; [done | done | done | done | done | | done].
  rewrite !string_length_app, Ly, Lm, Ld. done.
Qed.

Lemma date_string_format_witness :
  Z.abs 20200131 < 2 ^ 53
  ∧ ∃ s ys ms ds,
      date_string 20200131 = Ok s
      ∧ s = ys +:+ "-" +:+ ms +:+ "-" +:+ ds
      ∧ String.length ys = 4%nat ∧ String.length ms = 2%nat
      ∧ String.length ds = 2%nat
      ∧ String.length s = 10%nat
      ∧ (digits_value ys, digits_value ms, digits_value ds)
        = (Some (Z.quot 20200131 10000 mod 10000),
           Some (Z.quot 20200131 100 mod 100), Some (20200131 mod 100)).
Proof.
  assert (Z.abs 20200131 < 2 ^ 53) as H by done.
  split; [done |]. exact (date_string_format 20200131 H).
Defined.

(** The year, month and day of an integer of at most eight digits give the
    integer back. *)
Lemma date_parts_inv (value : Z) :
  0 ≤ value < 100000000 →
  value = Z.quot value 10000 mod 10000 * 10000 + Z.quot value 100 mod 100 * 100
          + value mod 100.
Proof.
  intros Hv.
  rewrite !Z.quot_div_nonneg by lia.
  pose proof (Z.div_mod value 100 ltac:(lia)).
  pose proof (Z.mod_pos_bound value 100 ltac:(lia)).
  pose proof (Z.div_mod (value / 100) 100 ltac:(lia)).
  pose proof (Z.mod_pos_bound (value / 100) 100 ltac:(lia)).
  assert (value / 10000 = value / 100 / 100) as Hq
    by (rewrite Z.div_div by lia; done).
  rewrite Hq.
  assert (0 ≤ value / 100 / 100 < 10000) as Hy.
  { split; [apply Z.div_pos; [apply Z.div_pos |]; lia |].
    apply Z.div_lt_upper_bound; [lia |].
    apply Z.div_lt_upper_bound; lia. }
  rewrite (Z.mod_small (value / 100 / 100)) by lia. lia.
Qed.

(** X2. On integers of at most eight digits [date_string] loses nothing:
    the parts of [y * 10000 + m * 100 + d] are [y], [m] and [d], whatever
    the month and the day below 100, and two such integers with one date
    string are equal. *)
Theorem date_string_injective (v1 v2 : Z) :
  0 ≤ v1 < 100000000 → 0 ≤ v2 < 100000000 →
  (∀ y m d, 0 ≤ y < 10000 → 0 ≤ m < 100 → 0 ≤ d < 100 →
     date_parts (y * 10000 + m * 100 + d) = Ok (y, m, d))
  ∧ (date_string v1 = date_string v2 → v1 = v2).
Proof.
  intros H1 H2. split.
  - intros y m d Hy Hm Hd. rewrite date_parts_small by lia.
    rewrite !Z.quot_div_nonneg by lia.
    assert ((y * 10000 + m * 100 + d) / 10000 = y) as ->
      by (symmetry; apply (Z.div_unique _ _ y (m * 100 + d)); lia).
    assert ((y * 10000 + m * 100 + d) / 100 = y * 100 + m) as ->
      by (symmetry; apply (Z.div_unique _ _ (y * 100 + m) d); lia).
    rewrite (Z.mod_small y) by lia.
    assert ((y * 100 + m) mod 100 = m) as ->
      by (symmetry; apply (Z.mod_unique _ _ y m); lia).
    assert ((y * 10000 + m * 100 + d) mod 100 = d) as ->
      by (symmetry; apply (Z.mod_unique _ _ (y * 100 + m) d); lia).
    done.
  - intros Heq.
    destruct (date_string_groups v1) as (ys1 & ms1 & ds1 & E1 & Ly1 & Lm1 & Ld1 & V1);
      [lia |].
    destruct (date_string_groups v2) as (ys2 & ms2 & ds2 & E2 & Ly2 & Lm2 & Ld2 & V2);
      [lia |].
    rewrite E1, E2 in Heq. injection Heq as Heq.
    apply string_app_inj_length in Heq as [-> Heq]; [|congruence].
    injection Heq as Heq.
    apply string_app_inj_length in Heq as [-> Heq]; [|congruence].
    injection Heq as ->.
    rewrite V1 in V2. injection V2 as Ey Em Ed.
    rewrite (date_parts_inv v1 H1), (date_parts_inv v2 H2), Ey, Em, Ed. done.
Qed.

Lemma date_string_injective_witness :
  (0 ≤ 20200131 < 100000000 ∧ 0 ≤ 20201399 < 100000000)
  ∧ date_parts (2020 * 10000 + 13 * 100 + 99) = Ok (2020, 13, 99)
  ∧ date_string 20201399 = Ok "2020-13-99".
Proof.
  assert (0 ≤ 20200131 < 100000000) as H1 by lia.
  assert (0 ≤ 20201399 < 100000000) as H2 by lia.
  destruct (date_string_injective 20200131 20201399 H1 H2) as [Hparts _].
  split; [done |]. split; [apply Hparts; lia | done].
Defined.

(** X3. [date_string] does not reject an integer of more than eight
    digits: as long as the integer stays below [2 ^ 53], the digits above
    the eighth are dropped, so that a date and the date plus 100000000 are
    written alike. *)
Theorem date_string_wraps (value : Z) :
  0 ≤ value → value + 100000000 < 2 ^ 53 →
  date_string (value + 100000000) = date_string value.
Proof.
  intros Hv Hbound. unfold date_string.
  rewrite !date_parts_small by lia.
  rewrite !Z.quot_div_nonneg by lia.
  assert ((value + 100000000) / 10000 = value / 10000 + 1 * 10000) as ->.
  { replace (value + 100000000) with (value + 10000 * 10000) by lia.
    rewrite Z.div_add by lia. lia. }
  assert ((value + 100000000) / 100 = value / 100 + 10000 * 100) as ->.
  { replace (value + 100000000) with (value + 1000000 * 100) by lia.
    rewrite Z.div_add by lia. lia. }
  replace (value + 100000000) with (value + 1000000 * 100) by lia.
  by rewrite !Z.mod_add by lia.
Qed.

Lemma date_string_wraps_witness :
  (0 ≤ 20200131 ∧ 20200131 + 100000000 < 2 ^ 53)
  ∧ date_string 120200131 = Ok "2020-01-31".
Proof.
  assert (0 ≤ 20200131) as H1 by lia.
  assert (20200131 + 100000000 < 2 ^ 53) as H2 by done.
  split; [done |].
  etrans; [exact (date_string_wraps 20200131 H1 H2) | vm_compute; reflexivity].
Defined.

(** From [2 ^ 53] on the division rounds: the quotient of
    [99999999999999999] rounds up to a multiple of 10000, that of
    [175921860444169984], which a float holds exactly, up to the next
    integer, and [10 ^ 400] is too large for a float. *)
Lemma date_string_beyond_float :
  date_string 99999999999999999 = Ok "0000-00-99"
  ∧ date_parts 175921860444169984 = Ok (4417, 99, 84)
  ∧ Z.quot 175921860444169984 10000 mod 10000 = 4416
  ∧ date_string (10 ^ 400) = Raise OverflowError.
Proof. split_and!; by vm_compute. Qed.

End DateString.


(** ** More on the filters *)

Section FilterValuesMore.

Import Query QuerySpec Shapes.

Implicit Types (p : params) (values good rest : list filter_value).

(** [to_condition] writes the names of its value only, whether it returns
    or raises. *)
Lemma to_condition_frame field v name fmt p k :
  k ∉ spec_names name v →
  (to_condition field v name fmt p).2 !! k = p !! k.
Proof.
  intros Hk. destruct v as [a|items]; simpl in *.
  - apply not_elem_of_cons in Hk as [Hk _].
    unfold bind, lift, setitem, ret. destruct (fmt a); simpl; [|done].
    by rewrite lookup_insert_ne.
  - apply not_elem_of_cons in Hk as [Hk Hk2].
    apply not_elem_of_cons in Hk2 as [Hk2 _].
    unfold bind, lift, setitem, ret.
    destruct (getitem items 0); simpl; [|done].
    destruct (fmt a); simpl; [|done].
    destruct (getitem items 1); simpl; [|by rewrite lookup_insert_ne].
    destruct (fmt a1); simpl; [|by rewrite lookup_insert_ne].
    by rewrite !lookup_insert_ne.
Qed.

(** [to_condition] removes no parameter. *)
Lemma to_condition_keeps field v name fmt p k :
  is_Some (p !! k) → is_Some ((to_condition field v name fmt p).2 !! k).
Proof.
  intros Hk.
  assert (∀ n b (q : params), is_Some (q !! k) → is_Some (<[n := b]> q !! k))
    as Hins.
  { intros n b q Hq. destruct (decide (n = k)) as [->|Hne].
    - rewrite lookup_insert_eq. by eexists.
    - by rewrite lookup_insert_ne. }
  destruct v as [a|items]; simpl; unfold bind, lift, setitem, ret.
  - destruct (fmt a); simpl; auto.
  - destruct (getitem items 0); simpl; [|done].
    destruct (fmt a); simpl; [|done].
    destruct (getitem items 1); simpl; [|auto].
    destruct (fmt a1); simpl; auto.
Qed.

Lemma conditions_from_frame field fmt pk values :
  ∀ i p k,
    k ∉ spec_names_from i values pk →
    (conditions_from field i values pk fmt p).2 !! k = p !! k.
Proof.
  induction values as [|v values IH]; intros i p k Hk; [done |].
  rewrite spec_names_from_cons in Hk. apply not_elem_of_app in Hk as [Hv Hrest].
  cbn [conditions_from]. fold (spec_param pk i). unfold bind at 1.
  pose proof (to_condition_frame field v (spec_param pk i) fmt p k Hv) as Hf.
  destruct (to_condition field v (spec_param pk i) fmt p) as [[c|e] p1];
    simpl in Hf; [|done].
  unfold bind. specialize (IH (S i) p1 k Hrest).
  destruct (conditions_from field (S i) values pk fmt p1) as [[cs|e] p2];
    simpl in *; congruence.
Qed.

Lemma conditions_from_keeps field fmt pk values :
  ∀ i p k,
    is_Some (p !! k) →
    is_Some ((conditions_from field i values pk fmt p).2 !! k).
Proof.
  induction values as [|v values IH]; intros i p k Hk; [done |].
  cbn [conditions_from]. fold (spec_param pk i). unfold bind at 1.
  pose proof (to_condition_keeps field v (spec_param pk i) fmt p k Hk) as Hf.
  destruct (to_condition field v (spec_param pk i) fmt p) as [[c|e] p1];
    simpl in Hf; [|done].
  unfold bind. specialize (IH (S i) p1 k Hf).
  by destruct (conditions_from field (S i) values pk fmt p1) as [[cs|e] p2].
Qed.

Lemma filter_values_params field values pk fmt p :
  (filter_values field values pk fmt p).2
  = (conditions_from field 0 values pk fmt p).2.
Proof.
  unfold filter_values, bind, ret.
  by destruct (conditions_from field 0 values pk fmt p) as [[cs|e] p1].
Qed.

(** X4. Whatever the values and the formatter, and whether it returns or
    raises, [filter_values] leaves every bind parameter other than the names
    it generates as it was, and removes none. *)
Theorem filter_values_frame field values param_key fmt p k :
((k ∉ generated_names values param_key) →
   (filter_values field values param_key fmt p).2 !! k = p !! k)
  ∧ (is_Some (p !! k) →
     is_Some ((filter_values field values param_key fmt p).2 !! k)).
Proof.
  rewrite filter_values_params. split.
  - apply conditions_from_frame.
  - apply conditions_from_keeps.
Qed.

Lemma filter_values_frame_witness :
  let p : params := {[ "source" := AStr "src" ]} in
  let values := [Scalar (AStr "pa"); Tuple [AStr "a"]] in
  (("source" ∉ generated_names values "geo")
   ∧ (filter_values "geo_value" values "geo" identity p).2 !! "source"
     = Some (AStr "src"))
  ∧ (filter_values "geo_value" values "geo" identity p).1 = Raise IndexError.
Proof.
  intros p values.
  assert ("source" ∉ generated_names values "geo") as Hk.
  { vm_compute. intros Hin.
    repeat (apply elem_of_cons in Hin as [Hin|Hin]; [done |]).
    by apply elem_of_nil in Hin. }
  destruct (filter_values_frame "geo_value" values "geo" identity p "source")
    as [Hframe _].
  split; [split; [done |] | done]. by rewrite (Hframe Hk).
Defined.

(** The comprehension over two lists in a row: the second is not looked at
    when the first raises. *)
Lemma conditions_from_app field fmt pk good rest :
  ∀ i p,
    conditions_from field i (good ++ rest) pk fmt p
    = match conditions_from field i good pk fmt p with
      | (Ok cs, p1) =>
          match conditions_from field (i + length good) rest pk fmt p1 with
          | (Ok cs', p2) => (Ok (cs ++ cs'), p2)
          | (Raise e, p2) => (Raise e, p2)
          end
      | (Raise e, p1) => (Raise e, p1)
      end.
Proof.
  induction good as [|v good IH]; intros i p.
  - simpl. rewrite Nat.add_0_r.
    by destruct (conditions_from field i rest pk fmt p) as [[cs|e] p1].
  - cbn [conditions_from app length]. unfold bind at 1 3.
    destruct (to_condition field v (pk +:+ "_" +:+ str_of_nat i) fmt p)
      as [[c|e] p1]; [|done].
    unfold bind. rewrite IH.
    replace (i + S (length good))%nat with (S i + length good)%nat by lia.
    destruct (conditions_from field (S i) good pk fmt p1) as [[cs|e] p2];
      [|done].
    unfold ret. simpl.
    by destruct (conditions_from field _ rest pk fmt p2) as [[cs'|e] p3].
Qed.

(** The first value that [to_condition] rejects decides: the error is the
    one of [filter_values], the bindings of the values before it stay, the
    values after it are not looked at. *)
Lemma filter_values_fail_fast field good bad rest pk fmt p bound e p' :
  Forall (λ v, scalar_or_pair v = true) good →
  Forall2 (λ a b, fmt a = Ok b) (bound_atoms good) bound →
  to_condition field bad (spec_param pk (length good)) fmt
    (list_to_map (zip (generated_names good pk) bound) ∪ p) = (Raise e, p') →
  filter_values field (good ++ bad :: rest) pk fmt p = (Raise e, p').
Proof.
  intros Hwf Hfmt Hbad. unfold filter_values, bind at 1.
  rewrite conditions_from_app.
  rewrite (conditions_from_spec field fmt pk good 0 p bound Hwf Hfmt).
  cbn [conditions_from Nat.add]. fold (spec_param pk (length good)).
  unfold generated_names in Hbad. unfold bind at 1. by rewrite Hbad.
Qed.



(** X6. [filter_dates] raises [TypeError] on the first date that is a
    string, a scalar or the lower bound of a range, when the dates before it
    are scalars and pairs of integers that [date_string] formats: the dates
    before it are bound, the rest is not looked at. *)
Theorem filter_dates_string field good rest param_key p bound s v :
  Forall (λ v, scalar_or_pair v = true) good →
  Forall2 (λ a b, date_formatter a = Ok b) (bound_atoms good) bound →
  v = Scalar (AStr s) ∨ (∃ items, v = Tuple (AStr s :: items)) →
  filter_dates field (good ++ v :: rest) param_key p
  = (Raise TypeError,
     list_to_map (zip (generated_names good param_key) bound) ∪ p).
Proof.
  intros Hwf Hfmt Hv. unfold filter_dates.
  apply (filter_values_fail_fast _ _ _ _ _ _ _ bound); [done..|].
  by destruct Hv as [->|[items ->]].
Qed.

Lemma filter_dates_string_witness :
  let good := [Tuple [AInt 20200101; AInt 20200131]] in
  let bound := [AStr "2020-01-01"; AStr "2020-01-31"] in
  (Forall (λ v, scalar_or_pair v = true) good
   ∧ Forall2 (λ a b, date_formatter a = Ok b) (bound_atoms good) bound)
  ∧ filter_dates "time_value" (good ++ [Scalar (AStr "2020-02-01")]) "t" ∅
    = (Raise TypeError,
       list_to_map (zip (generated_names good "t") bound) ∪ ∅).
Proof.
  intros good bound.
  assert (Forall (λ v, scalar_or_pair v = true) good) as Hwf
    by (repeat constructor).
  assert (Forall2 (λ a b, date_formatter a = Ok b) (bound_atoms good) bound)
    as Hfmt by (repeat constructor).
  split; [done |].
  apply (filter_dates_string "time_value" good [] "t" ∅ bound "2020-02-01");
    [done | done | by left].
Defined.

(** The result of [filter_values] on scalars and pairs that the formatter
    accepts. *)
Lemma filter_values_returns field values pk fmt p bound :
  Forall (λ v, scalar_or_pair v = true) values →
  Forall2 (λ a b, fmt a = Ok b) (bound_atoms values) bound →
  filter_values field values pk fmt p
  = (Ok (spec_clause field values pk),
     list_to_map (zip (generated_names values pk) bound) ∪ p).
Proof.
  intros Hwf Hfmt. unfold filter_values.
  by erewrite bind_ok; [|by apply conditions_from_spec].
Qed.

(** A range cut after its second item. *)
Lemma to_condition_take field items name fmt p :
  to_condition field (Tuple items) name fmt p
  = to_condition field (Tuple (take 2 items)) name fmt p.
Proof. by destruct items as [|a0 [|a1 [|a2 items]]]. Qed.

Lemma conditions_from_cut_range field fmt pk values :
  ∀ i p,
    conditions_from field i values pk fmt p
    = conditions_from field i (cut_range <$> values) pk fmt p.
Proof.
  induction values as [|v values IH]; intros i p; [done |].
  rewrite fmap_cons. cbn [conditions_from]. unfold bind at 1 3.
  assert (to_condition field v (pk +:+ "_" +:+ str_of_nat i) fmt p
          = to_condition field (cut_range v) (pk +:+ "_" +:+ str_of_nat i) fmt p)
    as <- by (destruct v; [done | apply to_condition_take]).
  destruct (to_condition field v _ fmt p) as [[c|e] p1]; [|done].
  unfold bind. by rewrite IH.
Qed.

(** X7. The items of a range after the second are ignored: [filter_values]
    returns the same clause or error and leaves the same parameters when
    every range is cut after its second item. *)
Theorem filter_values_ignores_extra_items field values param_key fmt p :
  filter_values field values param_key fmt p
  = filter_values field (cut_range <$> values) param_key fmt p.
Proof.
  unfold filter_values, bind. by rewrite <-conditions_from_cut_range.
Qed.

(** What [filter_values] returns when it returns: the clause of the
    specification, whatever the number of items of the ranges. *)
Lemma conditions_from_clause field fmt pk values :
  ∀ i p cs p',
    conditions_from field i values pk fmt p = (Ok cs, p') →
    cs = spec_predicates_from field i values pk.
Proof.
  induction values as [|v values IH]; intros i p cs p' Hok.
  - by injection Hok as <- _.
  - rewrite spec_predicates_from_cons. cbn [conditions_from] in Hok.
    fold (spec_param pk i) in Hok. unfold bind at 1 in Hok.
    destruct (to_condition field v (spec_param pk i) fmt p) as [[c|e] p1] eqn:Hc;
      [|done].
    unfold bind, ret in Hok.
    destruct (conditions_from field (S i) values pk fmt p1) as [[cs'|e] p2] eqn:Hr;
      [|done].
    injection Hok as <- _. f_equal; [|by eapply IH].
    destruct v as [a|items]; simpl in Hc; unfold bind, lift, setitem, ret in Hc.
    + destruct (fmt a); simpl in Hc; [|done]. by injection Hc as <- _.
    + destruct (getitem items 0); simpl in Hc; [|done].
      destruct (fmt a); simpl in Hc; [|done].
      destruct (getitem items 1); simpl in Hc; [|done].
      destruct (fmt a1); simpl in Hc; [|done]. by injection Hc as <- _.
Qed.

Lemma spec_predicates_from_shapes field pk values values' :
  Forall2 same_shape values values' →
  ∀ i, spec_predicates_from field i values pk
       = spec_predicates_from field i values' pk.
Proof.
  induction 1 as [|v v' values values' Hv _ IH]; intros i; [done |].
  rewrite !spec_predicates_from_cons, IH. f_equal. by destruct v, v'.
Qed.

(** X8. The clause holds names only, never a value: two calls that return,
    on values that are scalars and ranges at the same positions, return the
    same clause, whatever the values, the formatters and the parameters
    bound before. *)
Theorem filter_values_shapes_clause field values values' param_key
    fmt fmt' p p' clause clause' :
  Forall2 same_shape values values' →
  (filter_values field values param_key fmt p).1 = Ok clause →
  (filter_values field values' param_key fmt' p').1 = Ok clause' →
  clause = clause' ∧ clause = spec_clause field values param_key.
Proof.
  intros Hshape H1 H2. unfold filter_values, bind, ret in H1, H2.
  destruct (conditions_from field 0 values param_key fmt p) as [[cs|e] q] eqn:E1;
    [|done].
  destruct (conditions_from field 0 values' param_key fmt' p') as [[cs'|e] q'] eqn:E2;
    [|done].
  simpl in H1, H2. injection H1 as <-. injection H2 as <-.
  apply conditions_from_clause in E1, E2. subst cs cs'.
  split; [|done].
  by rewrite (spec_predicates_from_shapes field param_key values values' Hshape).
Qed.

Lemma filter_values_shapes_clause_witness :
  let values := [Scalar (AStr "pa"); Tuple [AStr "a"; AStr "b"]] in
  let values' := [Scalar (AStr "x' OR 1=1 --"); Tuple [AStr "c"; AStr "d"; AStr "e"]] in
  Forall2 same_shape values values'
  ∧ (filter_strings "geo_value" values "geo" ∅).1
    = Ok "(geo_value = :geo_0 OR geo_value BETWEEN :geo_1 AND :geo_1_2)"
  ∧ (filter_strings "geo_value" values' "geo" ∅).1
    = Ok "(geo_value = :geo_0 OR geo_value BETWEEN :geo_1 AND :geo_1_2)".
Proof.
  intros values values'.
  assert (Forall2 same_shape values values') as Hshape
    by (repeat constructor).
  assert ((filter_strings "geo_value" values "geo" ∅).1
          = Ok "(geo_value = :geo_0 OR geo_value BETWEEN :geo_1 AND :geo_1_2)")
    as H1 by done.
  assert (∃ c, (filter_strings "geo_value" values' "geo" ∅).1 = Ok c)
    as [c H2] by (by eexists).
  destruct (filter_values_shapes_clause "geo_value" values values' "geo"
              identity identity ∅ ∅ _ c Hshape H1 H2) as [<- _].
  done.
Defined.

(** X9. Running a filter again on the parameters it left changes nothing:
    the same clause comes back and the parameters stay as they are. *)
Theorem filter_values_again field values param_key fmt p bound :
  Forall (λ v, scalar_or_pair v = true) values →
  Forall2 (λ a b, fmt a = Ok b) (bound_atoms values) bound →
  filter_values field values param_key fmt
    (filter_values field values param_key fmt p).2
  = filter_values field values param_key fmt p.
Proof.
  intros Hwf Hfmt.
  rewrite (filter_values_returns field values param_key fmt p bound Hwf Hfmt).
  simpl.
  rewrite (filter_values_returns field values param_key fmt _ bound Hwf Hfmt).
  f_equal. by rewrite (assoc_L (∪)), (idemp_L (∪)).
Qed.

Lemma filter_values_again_witness :
  let values := [Scalar (AInt 20200101); Tuple [AInt 20200101; AInt 20200131]] in
  let bound := [AStr "2020-01-01"; AStr "2020-01-01"; AStr "2020-01-31"] in
  (Forall (λ v, scalar_or_pair v = true) values
   ∧ Forall2 (λ a b, date_formatter a = Ok b) (bound_atoms values) bound)
  ∧ filter_dates "time_value" values "t"
      (filter_dates "time_value" values "t" ∅).2
    = filter_dates "time_value" values "t" ∅.
Proof.
  intros values bound.
  assert (Forall (λ v, scalar_or_pair v = true) values) as Hwf
    by (repeat constructor).
  assert (Forall2 (λ a b, date_formatter a = Ok b) (bound_atoms values) bound)
    as Hfmt by (repeat constructor).
  split; [done |].
  exact (filter_values_again "time_value" values "t" date_formatter ∅ bound
           Hwf Hfmt).
Defined.

End FilterValuesMore.


(** ** Projection on the requested fields *)

Section FilterFields.

Import Query Projection.

Context {A : Type}.

Implicit Types (row filtered : gmap string A) (fields : list string).

Lemma keep_fields_lookup fields row filtered k :
  keep_fields fields row filtered !! k
  = if decide (k ∈ fields ∧ is_Some (row !! k)) then row !! k
    else filtered !! k.
Proof.
  revert filtered. induction fields as [|f fields IH]; intros filtered;
    cbn [keep_fields].
  - rewrite decide_False; [done |]. by intros [?%elem_of_nil _].
  - rewrite IH. destruct (decide (k ∈ fields ∧ is_Some (row !! k))) as [[Hin Hk]|Hn].
    + rewrite decide_True; [done |]. split; [by right | done].
    + destruct (decide (f = k)) as [->|Hne].
      * destruct (row !! k) as [v|] eqn:Hv.
        -- rewrite lookup_insert_eq, decide_True; [done |].
           split; [by left | by eexists].
        -- rewrite decide_False; [done |]. by intros [_ [? ?]].
      * assert ((match row !! f with
                 | Some v => <[f := v]> filtered
                 | None => filtered
                 end) !! k = filtered !! k) as ->.
        { destruct (row !! f); [by rewrite lookup_insert_ne | done]. }
        rewrite decide_False; [done |].
        intros [[?|?]%elem_of_cons ?]; [done |]. by apply Hn.
Qed.

(** The row that [filter_fields] yields: the entries of the row under the
    requested keys. *)
Lemma keep_fields_filter fields row :
  keep_fields fields row ∅ = filter (λ kv, kv.1 ∈ fields) row.
Proof.
  apply map_eq. intros k. rewrite keep_fields_lookup, lookup_empty.
  destruct (row !! k) as [v|] eqn:Hv.
  - destruct (decide (k ∈ fields)) as [Hin|Hnin].
    + rewrite decide_True by (split; [done | by eexists]).
      symmetry. by apply map_lookup_filter_Some.
    + rewrite decide_False by (by intros [? _]).
      symmetry. apply map_lookup_filter_None. right. intros v' Hv'. done.
  - rewrite decide_False by (by intros [_ [? ?]]).
    symmetry. apply map_lookup_filter_None. by left.
Qed.

Lemma filter_fields_some (f : string) (fs : list string)
    (generator : list (gmap string A)) :
  filter_fields (Some (f :: fs)) generator
  = (λ row, filter (λ kv, kv.1 ∈ f :: fs) row) <$> generator.
Proof.
  change (filter_fields (Some (f :: fs)) generator)
    with (map (λ row, keep_fields (f :: fs) row ∅) generator).
  apply map_ext. intros row. apply keep_fields_filter.
Qed.

(** X10. [filter_fields] without requested fields passes the rows through;
    with requested fields it yields one row per row, holding the entries of
    the row under the requested keys and nothing else, so that a row without
    any of them comes out empty. *)
Theorem filter_fields_projects (fields : option (list string))
    (generator : list (gmap string A)) :
  (fields = None ∨ fields = Some [] → filter_fields fields generator = generator)
  ∧ (∀ f fs, fields = Some (f :: fs) →
       length (filter_fields fields generator) = length generator
       ∧ filter_fields fields generator
         = (λ row, filter (λ kv, kv.1 ∈ f :: fs) row) <$> generator
       ∧ ∀ i row, generator !! i = Some row →
           (∀ k, k ∈ f :: fs → row !! k = None) →
           filter_fields fields generator !! i = Some ∅).
Proof.
  split.
  - by intros [->| ->].
  - intros f fs ->. rewrite filter_fields_some.
    split_and!; [by rewrite length_fmap | done |].
    intros i row Hi Hnone. rewrite list_lookup_fmap, Hi. simpl. f_equal.
    apply map_eq. intros k. rewrite lookup_empty.
    apply map_lookup_filter_None. destruct (decide (k ∈ f :: fs)) as [Hin|Hnin].
    + left. by apply Hnone.
    + right. by intros v _.
Qed.

End FilterFields.

(** The requests of the metadata test: two fields of three, and a field that
    no row has. *)
Lemma filter_fields_projects_witness :
  let row : gmap string Z :=
    {[ "min_time" := 1; "max_time" := 2; "num_locations" := 2 ]} in
  (Some ["min_time"; "num_locations"] = Some ("min_time" :: ["num_locations"])
   ∧ Projection.filter_fields (Some ["min_time"; "num_locations"]) [row]
     = [ {[ "min_time" := 1; "num_locations" := 2 ]} ])
  ∧ (Some ["xx"] = Some ("xx" :: [])
     ∧ (∀ k, k ∈ ["xx"] → row !! k = None)
     ∧ Projection.filter_fields (Some ["xx"]) [row] !! 0%nat = Some ∅).
Proof.
  intros row.
  destruct (filter_fields_projects (Some ["min_time"; "num_locations"]) [row])
    as [_ H1].
  destruct (filter_fields_projects (Some ["xx"]) [row]) as [_ H2].
  assert (∀ k, k ∈ ["xx"] → row !! k = None) as Hnone
    by (by intros k ->%list_elem_of_singleton).
  destruct (H1 _ _ eq_refl) as (_ & Heq & _).
  destruct (H2 _ _ eq_refl) as (_ & _ & Hempty).
  split; [split; [done | by vm_compute] | split_and!; [done | done |]].
  by apply (Hempty 0%nat row).
Defined.

Section FilterFieldsTwice.

Import Query Projection.

Context {A : Type}.

(** X11. Projections compose: projecting on one list of fields and then on
    another keeps the entries under the keys of both lists, so that
    projecting twice on one list is projecting once. *)
Theorem filter_fields_twice (f1 f2 : string) (fs1 fs2 : list string)
    (generator : list (gmap string A)) :
  filter_fields (Some (f1 :: fs1)) (filter_fields (Some (f2 :: fs2)) generator)
  = (λ row, filter (λ kv, kv.1 ∈ f1 :: fs1 ∧ kv.1 ∈ f2 :: fs2) row) <$> generator
  ∧ filter_fields (Some (f1 :: fs1)) (filter_fields (Some (f1 :: fs1)) generator)
    = filter_fields (Some (f1 :: fs1)) generator.
Proof.
  split.
  - rewrite !filter_fields_some, <-list_fmap_compose. apply list_fmap_ext. intros _ row _.
    simpl. by rewrite map_filter_filter.
  - rewrite !filter_fields_some, <-list_fmap_compose. apply list_fmap_ext. intros _ row _.
    simpl. rewrite map_filter_filter. apply map_filter_ext. intros i x _. simpl. tauto.
Qed.

End FilterFieldsTwice.


(** ** Rows parsed and sent *)

Section ParseRowMore.

Import Query Execution Projection.

Context `{Conversions F}.

Implicit Types (row parsed full : gmap string (cell F)) (fields : list string).

(** What a loop of coercions leaves for a field of its list: the value
    that the coercion returned for it. *)
Lemma store_coerced_lookup coerce row fields parsed parsed' k :
  store_coerced coerce row fields parsed = Ok parsed' → k ∈ fields →
  ∃ v, (if row_contains row k then coerce (row_get row k) else Ok CNone) = Ok v
       ∧ parsed' !! k = Some v.
Proof.
  revert parsed. induction fields as [|g fields IH]; intros parsed Hok Hk;
    [by apply elem_of_nil in Hk |].
  cbn [store_coerced] in Hok.
  destruct (if row_contains row g then coerce (row_get row g) else Ok CNone)
    as [v|e] eqn:Hv; simpl in Hok; [|done].
  destruct (decide (k ∈ fields)) as [Hin|Hnin]; [by eapply IH |].
  apply elem_of_cons in Hk as [->|?]; [|done].
  exists v. split; [done |].
  by rewrite (store_coerced_other _ _ _ _ _ _ Hok Hnin), lookup_insert_eq.
Qed.

(** The entry of a key in a parsed row: the float list is written last,
    the int list before it, the string list first. *)
Lemma parse_row_lookup row fs fi ff parsed k :
  parse_row row fs fi ff = Ok parsed →
  (k ∈ default [] ff →
   ∃ v, (if row_contains row k then py_float (row_get row k) else Ok CNone) = Ok v
        ∧ parsed !! k = Some v)
  ∧ (k ∉ default [] ff → k ∈ default [] fi →
     ∃ v, (if row_contains row k then py_int (row_get row k) else Ok CNone) = Ok v
          ∧ parsed !! k = Some v)
  ∧ (k ∉ default [] ff → k ∉ default [] fi → k ∈ default [] fs →
     parsed !! k = Some (row_get row k))
  ∧ (k ∉ default [] ff → k ∉ default [] fi → k ∉ default [] fs →
     parsed !! k = None).
Proof.
  rewrite parse_row_unfold. intros Hok.
  destruct (store_coerced py_int row (default [] fi) _) as [p1|] eqn:H1;
    simpl in Hok; [|done].
  split_and!.
  - intros Hk. by eapply store_coerced_lookup.
  - intros Hf Hk. rewrite (store_coerced_other _ _ _ _ _ _ Hok Hf).
    by eapply store_coerced_lookup.
  - intros Hf Hi Hk. rewrite (store_coerced_other _ _ _ _ _ _ Hok Hf).
    rewrite (store_coerced_other _ _ _ _ _ _ H1 Hi).
    by rewrite store_strings_lookup, decide_True.
  - intros Hf Hi Hk. rewrite (store_coerced_other _ _ _ _ _ _ Hok Hf).
    rewrite (store_coerced_other _ _ _ _ _ _ H1 Hi).
    by rewrite store_strings_lookup, decide_False.
Qed.

Lemma parse_row_keys_and_values_dom row fs fi ff parsed :
  parse_row row fs fi ff = Ok parsed →
  dom parsed = list_to_set (default [] fs ++ default [] fi ++ default [] ff).
Proof.
  intros Hok. apply set_eq. intros k.
  rewrite elem_of_dom, elem_of_list_to_set, !elem_of_app.
  destruct (parse_row_lookup row fs fi ff parsed k Hok) as (Hf & Hi & Hs & Hn).
  destruct (decide (k ∈ default [] ff)) as [?|?].
  { destruct Hf as (v & _ & ->); [done |]. split; eauto. }
  destruct (decide (k ∈ default [] fi)) as [?|?].
  { destruct Hi as (v & _ & ->); [done | done |]. split; eauto. }
  destruct (decide (k ∈ default [] fs)) as [?|?].
  { rewrite Hs by done. split; eauto. }
  rewrite Hn by done. split; [by intros [? ?] | by intros [?|[?|?]]].
Qed.

(** X12. When [parse_row] returns, the keys of the row it built are exactly
    the declared fields; a field of the float list that the row holds
    carries [float] of the cell, a field of the int list only carries [int]
    of the cell, so that among the three lists the float list wins over the
    int list and both over the string list. *)
Theorem parse_row_keys_and_values row fs fi ff parsed :
  parse_row row fs fi ff = Ok parsed →
  dom parsed = list_to_set (default [] fs ++ default [] fi ++ default [] ff)
  ∧ (∀ k c, k ∈ default [] ff → row !! k = Some c →
       ∃ v, py_float c = Ok v ∧ parsed !! k = Some v)
  ∧ (∀ k c, k ∈ default [] fi → k ∉ default [] ff → row !! k = Some c →
       ∃ v, py_int c = Ok v ∧ parsed !! k = Some v).
Proof.
  intros Hok. split_and!.
  - by eapply parse_row_keys_and_values_dom.
  - intros k c Hk Hc.
    destruct (parse_row_lookup row fs fi ff parsed k Hok) as ((v & Hv & Hp) & _);
      [done |].
    exists v. split; [|done]. unfold row_contains, row_get in Hv.
    rewrite Hc in Hv. simpl in Hv. done.
  - intros k c Hk Hnf Hc.
    destruct (parse_row_lookup row fs fi ff parsed k Hok)
      as (_ & (v & Hv & Hp) & _); [done | done |].
    exists v. split; [|done]. unfold row_contains, row_get in Hv.
    rewrite Hc in Hv. simpl in Hv. done.
Qed.

End ParseRowMore.

(** A value declared both as an int and as a float comes out as a float. *)
Lemma parse_row_keys_and_values_witness :
  let conversions : Query.Conversions Z :=
    {| Query.int_of_str := λ _, Raise ValueError; Query.int_of_float := Ok;
       Query.float_of_int := Ok; Query.float_of_str := λ _, Raise ValueError |} in
  let row : gmap string (Query.cell Z) :=
    {[ "geo_value" := Query.CStr "pa"; "value" := Query.CInt 3 ]} in
  let parsed : gmap string (Query.cell Z) :=
    {[ "geo_value" := Query.CStr "pa"; "value" := Query.CFloat 3;
       "lag" := Query.CNone ]} in
  Query.parse_row (H := conversions) row (Some ["geo_value"])
    (Some ["value"; "lag"]) (Some ["value"]) = Ok parsed
  ∧ dom parsed = list_to_set (["geo_value"] ++ ["value"; "lag"] ++ ["value"])
  ∧ parsed !! "value" = Some (Query.CFloat 3).
Proof.
  intros conversions row parsed.
  assert (Query.parse_row (H := conversions) row (Some ["geo_value"])
            (Some ["value"; "lag"]) (Some ["value"]) = Ok parsed) as Hok
    by (vm_compute; reflexivity).
  destruct (parse_row_keys_and_values (H := conversions) row _ _ _ parsed Hok)
    as (Hdom & _ & _).
  split_and!; [done | exact Hdom | by vm_compute].
Defined.

Section ExecuteQueries.

Import Query Execution Projection.

Context `{Conversions F}.

Implicit Types (row parsed full : gmap string (cell F)).

Lemma elem_of_List_filter {B} (P : B → bool) (l : list B) (x : B) :
  x ∈ List.filter P l ↔ x ∈ l ∧ P x = true.
Proof. by rewrite list_elem_of_In, filter_In, <-list_elem_of_In. Qed.

Lemma elem_of_to_send fields f fs l k :
  fields = Some (f :: fs) → k ∈ to_send fields l ↔ k ∈ l ∧ k ∈ f :: fs.
Proof.
  intros ->. unfold to_send, fields_to_send. simpl.
  rewrite bool_decide_eq_false_2.
  - rewrite elem_of_List_filter, bool_decide_eq_true.
    by rewrite elem_of_union, elem_of_singleton, elem_of_list_to_set, elem_of_cons.
  - intros Hempty.
    assert (f ∈ ({[f]} ∪ list_to_set fs : gset string)) as Hf
      by (apply elem_of_union; left; by apply elem_of_singleton).
    rewrite Hempty in Hf. by apply not_elem_of_empty in Hf.
Qed.

(** [parse_row] reads the row at the declared fields only. *)
Lemma store_strings_ext row row' fields parsed :
  (∀ k, k ∈ fields → row !! k = row' !! k) →
  store_strings row fields parsed = store_strings row' fields parsed.
Proof.
  revert parsed. induction fields as [|g fields IH]; intros parsed Hext; [done |].
  cbn [store_strings]. unfold row_get. rewrite (Hext g) by left.
  apply IH. intros k Hk. apply Hext. by right.
Qed.

Lemma store_coerced_ext coerce row row' fields parsed :
  (∀ k, k ∈ fields → row !! k = row' !! k) →
  store_coerced coerce row fields parsed = store_coerced coerce row' fields parsed.
Proof.
  revert parsed. induction fields as [|g fields IH]; intros parsed Hext; [done |].
  cbn [store_coerced]. unfold row_contains, row_get. rewrite (Hext g) by left.
  destruct (if bool_decide (is_Some (row' !! g))
            then coerce (default CNone (row' !! g)) else Ok CNone); [|done].
  simpl. apply IH. intros k Hk. apply Hext. by right.
Qed.

Lemma parse_row_ext row row' fs fi ff :
  (∀ k, k ∈ default [] fs ++ default [] fi ++ default [] ff →
        row !! k = row' !! k) →
  parse_row row fs fi ff = parse_row row' fs fi ff.
Proof.
  intros Hext. rewrite !parse_row_unfold.
  rewrite (store_strings_ext row row')
    by (intros; apply Hext; rewrite !elem_of_app; auto).
  rewrite (store_coerced_ext _ row row')
    by (intros; apply Hext; rewrite !elem_of_app; auto).
  destruct (store_coerced py_int row' (default [] fi) _); [|done]. simpl.
  apply store_coerced_ext. intros; apply Hext; rewrite !elem_of_app; auto.
Qed.

(** X13. With requested fields, the row that [execute_queries] yields holds
    the requested fields among the declared ones only, and does not depend
    on any other column of the result row: whatever such a column holds, a
    null or a malformed number, the row yielded and the errors raised are
    the same. *)
Theorem execute_queries_row_requested (f : string) (fs : list string)
    (fields_string fields_int fields_float : list string) row :
  (∀ parsed,
     execute_queries_row (Some (f :: fs)) fields_string fields_int fields_float row
     = Ok parsed →
     dom parsed
     = list_to_set (List.filter (λ k, bool_decide (k ∈ f :: fs))
                      (fields_string ++ fields_int ++ fields_float)))
  ∧ (∀ row',
       (∀ k, k ∈ f :: fs → row !! k = row' !! k) →
       execute_queries_row (Some (f :: fs)) fields_string fields_int fields_float row
       = execute_queries_row (Some (f :: fs)) fields_string fields_int
           fields_float row').
Proof.
  split.
  - intros parsed Hok. unfold execute_queries_row in Hok.
    apply parse_row_keys_and_values_dom in Hok. rewrite Hok. simpl.
    apply set_eq. intros k.
    rewrite !elem_of_list_to_set, !elem_of_app,
      !(elem_of_to_send (Some (f :: fs)) f fs) by done.
    rewrite elem_of_List_filter, bool_decide_eq_true, !elem_of_app. tauto.
  - intros row' Hsame. unfold execute_queries_row. apply parse_row_ext.
    simpl. intros k Hk. apply Hsame.
    rewrite !elem_of_app, !(elem_of_to_send (Some (f :: fs)) f fs) in Hk by done.
    tauto.
Qed.

Lemma lookup_filter_keys {B} (l : list string) (m : gmap string B) k :
  filter (λ kv, kv.1 ∈ l) m !! k = if decide (k ∈ l) then m !! k else None.
Proof.
  destruct (decide (k ∈ l)) as [Hin|Hnin].
  - destruct (m !! k) as [v|] eqn:Hv.
    + by apply map_lookup_filter_Some.
    + apply map_lookup_filter_None. by left.
  - apply map_lookup_filter_None. right. by intros v _.
Qed.

(** X14. Restricting the field lists before parsing and projecting after
    parsing agree: when [parse_row] returns on the full lists, the row that
    [execute_queries] yields for the requested fields is the row that
    [filter_fields] makes of the full row. *)
Theorem execute_queries_row_projection (f : string) (fs : list string)
    (fields_string fields_int fields_float : list string) row full :
  parse_row row (Some fields_string) (Some fields_int) (Some fields_float)
  = Ok full →
  ∃ sent,
    execute_queries_row (Some (f :: fs)) fields_string fields_int fields_float row
    = Ok sent
    ∧ filter_fields (Some (f :: fs)) [full] = [sent].
Proof.
  intros Hfull.
  (* the restricted lists are parsed without error *)
  assert (∃ sent, execute_queries_row (Some (f :: fs)) fields_string fields_int
                    fields_float row = Ok sent) as [sent Hsent].
  { unfold execute_queries_row. rewrite parse_row_unfold. simpl.
    pose proof Hfull as Hfull'. rewrite parse_row_unfold in Hfull'. simpl in Hfull'.
    destruct (store_coerced py_int row fields_int _) as [p1|] eqn:H1;
      simpl in Hfull'; [|done].
    destruct (store_coerced_total py_int row
                (to_send (Some (f :: fs)) fields_int)
                (store_strings row (to_send (Some (f :: fs)) fields_string) ∅))
      as [q1 ->].
    { intros k c [Hk _]%(elem_of_to_send (Some (f :: fs)) f fs) Hc; [|done].
      destruct (store_coerced_lookup _ _ _ _ _ k H1 Hk) as (v & Hv & _).
      unfold row_contains, row_get in Hv. rewrite Hc in Hv. simpl in Hv.
      by rewrite Hv. }
    simpl. apply store_coerced_total.
    intros k c [Hk _]%(elem_of_to_send (Some (f :: fs)) f fs) Hc; [|done].
    destruct (store_coerced_lookup _ _ _ _ _ k Hfull' Hk) as (v & Hv & _).
    unfold row_contains, row_get in Hv. rewrite Hc in Hv. simpl in Hv.
    by rewrite Hv. }
  exists sent. split; [done |].
  change (filter_fields (Some (f :: fs)) [full])
    with [keep_fields (f :: fs) full ∅].
  f_equal. rewrite keep_fields_filter. apply map_eq. intros k.
  rewrite lookup_filter_keys.
  destruct (parse_row_lookup row _ _ _ full k Hfull) as (Ff & Fi & Fs & Fn).
  destruct (parse_row_lookup row _ _ _ sent k Hsent) as (Sf & Si & Ss & Sn).
  simpl in *.
  pose proof (elem_of_to_send (Some (f :: fs)) f fs fields_float k eq_refl) as Ef.
  pose proof (elem_of_to_send (Some (f :: fs)) f fs fields_int k eq_refl) as Ei.
  pose proof (elem_of_to_send (Some (f :: fs)) f fs fields_string k eq_refl) as Es.
  destruct (decide (k ∈ f :: fs)) as [Hreq|Hnreq].
  - destruct (decide (k ∈ fields_float)) as [Hf|Hf].
    { destruct Ff as (v & Hv & ->); [done |].
      destruct Sf as (v' & Hv' & ->); [by apply Ef |]. congruence. }
    destruct (decide (k ∈ fields_int)) as [Hi|Hi].
    { destruct Fi as (v & Hv & ->); [done | done |].
      destruct Si as (v' & Hv' & ->); [rewrite Ef; tauto | by apply Ei |].
      congruence. }
    destruct (decide (k ∈ fields_string)) as [Hs|Hs].
    { rewrite Fs by done. rewrite Ss; [done | rewrite Ef; tauto
                                      | rewrite Ei; tauto | by apply Es]. }
    rewrite Fn by done.
    rewrite Sn; [done | rewrite Ef; tauto | rewrite Ei; tauto | rewrite Es; tauto].
  - symmetry.
    rewrite Sn; [done | rewrite Ef; tauto | rewrite Ei; tauto | rewrite Es; tauto].
Qed.

(** X15. [parse_result] is all or nothing: it returns exactly when
    [parse_row] returns on every row of the result, with one parsed row per
    row and in their order; otherwise it raises the error of the first row
    that does not parse, and the rows parsed before it are lost. *)
Theorem parse_result_all_or_nothing (executed : list (gmap string (cell F)))
    (fs fi ff : option (list string)) :
  (∀ parsed_rows,
     parse_result executed fs fi ff = Ok parsed_rows
     ↔ Forall2 (λ row parsed, parse_row row fs fi ff = Ok parsed)
         executed parsed_rows)
  ∧ (∀ e,
       parse_result executed fs fi ff = Raise e
       ↔ ∃ good bad rest,
           executed = good ++ bad :: rest
           ∧ Forall (λ row, ∃ parsed, parse_row row fs fi ff = Ok parsed) good
           ∧ parse_row bad fs fi ff = Raise e).
Proof.
  unfold parse_result. induction executed as [|row rows [IH1 IH2]].
  - split.
    + intros parsed_rows. simpl. split.
      * intros [= <-]. constructor.
      * by intros ->%Forall2_nil_inv_l.
    + intros e. split; [done |].
      intros (good & bad & rest & Heq & _). by destruct good.
  - cbn [parse_rows]. split.
    + intros parsed_rows. split.
      * intros Hok. destruct (parse_row row fs fi ff) as [p|] eqn:Hp;
          simpl in Hok; [|done].
        destruct (parse_rows rows fs fi ff) as [more|] eqn:Hm; simpl in Hok;
          [|done].
        injection Hok as <-. constructor; [done | by apply IH1].
      * intros (p & more & Hp & Hm & ->)%Forall2_cons_inv_l.
        rewrite Hp. simpl. apply IH1 in Hm. by rewrite Hm.
    + intros e. split.
      * intros He. destruct (parse_row row fs fi ff) as [p|e'] eqn:Hp;
          simpl in He.
        -- destruct (parse_rows rows fs fi ff) as [more|e''] eqn:Hm;
             simpl in He; [done |]. injection He as ->.
           destruct (proj1 (IH2 e) eq_refl) as (good & bad & rest & -> & Hgood & Hbad).
           exists (row :: good), bad, rest. split; [done |].
           split; [|done]. constructor; [by exists p | done].
        -- injection He as ->. exists [], row, rows. by split_and!.
      * intros (good & bad & rest & Heq & Hgood & Hbad).
        destruct good as [|g good]; simpl in Heq.
        -- injection Heq as -> ->. by rewrite Hbad.
        -- injection Heq as -> ->.
           apply Forall_cons in Hgood as [[p Hp] Hgood]. rewrite Hp. simpl.
           assert (parse_rows (good ++ bad :: rest) fs fi ff = Raise e) as ->;
             [|done].
           apply IH2. by exists good, bad, rest.
Qed.

End ExecuteQueries.

(** A null in a column that the request does not ask for: parsing all
    declared fields raises, the row for the requested field is yielded. *)
Lemma execute_queries_row_requested_witness :
  let conversions : Query.Conversions Z :=
    {| Query.int_of_str := λ _, Raise ValueError; Query.int_of_float := Ok;
       Query.float_of_int := Ok; Query.float_of_str := λ _, Raise ValueError |} in
  let row : gmap string (Query.cell Z) :=
    {[ "value" := Query.CInt 3; "sample_size" := Query.CNone ]} in
  let row' : gmap string (Query.cell Z) := {[ "value" := Query.CInt 3 ]} in
  (∀ k, k ∈ "value" :: [] → row !! k = row' !! k)
  ∧ Query.parse_row (H := conversions) row (Some []) (Some ["value"; "sample_size"])
      (Some []) = Raise TypeError
  ∧ Execution.execute_queries_row (H := conversions) (Some ["value"]) []
      ["value"; "sample_size"] [] row
    = Ok {[ "value" := Query.CInt 3 ]}.
Proof.
  intros conversions row row'.
  assert (∀ k, k ∈ "value" :: [] → row !! k = row' !! k) as Hsame
    by (by intros k ->%list_elem_of_singleton).
  destruct (execute_queries_row_requested (H := conversions) "value" []
              [] ["value"; "sample_size"] [] row) as [_ Hind].
  split_and!; [done | done |]. rewrite (Hind row' Hsame).
  vm_compute; reflexivity.
Defined.

(** A row that parses in full: the requested part of it is what is sent. *)
Lemma execute_queries_row_projection_witness :
  let conversions : Query.Conversions Z :=
    {| Query.int_of_str := λ _, Raise ValueError; Query.int_of_float := Ok;
       Query.float_of_int := Ok; Query.float_of_str := λ _, Raise ValueError |} in
  let row : gmap string (Query.cell Z) :=
    {[ "geo_value" := Query.CStr "pa"; "value" := Query.CInt 3 ]} in
  let full : gmap string (Query.cell Z) :=
    {[ "geo_value" := Query.CStr "pa"; "value" := Query.CInt 3 ]} in
  Query.parse_row (H := conversions) row (Some ["geo_value"]) (Some ["value"])
    (Some []) = Ok full
  ∧ ∃ sent,
      Execution.execute_queries_row (H := conversions) (Some ["value"])
        ["geo_value"] ["value"] [] row = Ok sent
      ∧ Projection.filter_fields (Some ["value"]) [full] = [sent].
Proof.
  intros conversions row full.
  assert (Query.parse_row (H := conversions) row (Some ["geo_value"])
            (Some ["value"]) (Some []) = Ok full) as Hfull
    by (vm_compute; reflexivity).
  split; [done |].
  exact (execute_queries_row_projection (H := conversions) "value" []
           ["geo_value"] ["value"] [] row full Hfull).
Defined.

(** Two rows, the second with a null value: nothing is returned. *)
Lemma parse_result_all_or_nothing_witness :
  let conversions : Query.Conversions Z :=
    {| Query.int_of_str := λ _, Raise ValueError; Query.int_of_float := Ok;
       Query.float_of_int := Ok; Query.float_of_str := λ _, Raise ValueError |} in
  let good : gmap string (Query.cell Z) := {[ "value" := Query.CInt 3 ]} in
  let bad : gmap string (Query.cell Z) := {[ "value" := Query.CNone ]} in
  Query.parse_row (H := conversions) good None (Some ["value"]) None
  = Ok {[ "value" := Query.CInt 3 ]}
  ∧ Query.parse_row (H := conversions) bad None (Some ["value"]) None
    = Raise TypeError
  ∧ Execution.parse_result (H := conversions) [good; bad; good] None
      (Some ["value"]) None = Raise TypeError.
Proof.
  intros conversions good bad.
  assert (Query.parse_row (H := conversions) good None (Some ["value"]) None
          = Ok {[ "value" := Query.CInt 3 ]}) as Hgood
    by (vm_compute; reflexivity).
  assert (Query.parse_row (H := conversions) bad None (Some ["value"]) None
          = Raise TypeError) as Hbad by (vm_compute; reflexivity).
  split_and!; [done | done |].
  apply (parse_result_all_or_nothing (H := conversions) [good; bad; good]).
  exists [good], bad, [good]. split; [done |]. split; [|done].
  constructor; [by eexists | constructor].
Defined.


(** ** The request context and the roles *)

Section CurrentUser.

Import Security.

Context {User : Type}.
Variable find_user : option string → option User.
Variable has_role : User → string → bool.
Variable API_KEY_REQUIRED_STARTING_AT : Z.

Lemma _get_current_user_again (find_user' : option string → option User)
    (c : context User) :
  _get_current_user find_user' (_get_current_user find_user c).2
  = _get_current_user find_user c.
Proof.
  unfold _get_current_user. by destruct (g_user c) as [u|] eqn:Hg; simpl; [rewrite Hg|].
Qed.

(** X16. The user of a request is looked up once: [_get_current_user] leaves
    the request as it is and stores the user it returns in [g]; every later
    call on that context, and each of the two warning predicates, returns
    the stored user and that same context, whatever the user table says by
    then. *)
Theorem current_user_cached (find_user' : option string → option User)
    (m : loaded) (today : Z) (c : context User) :
  let first := _get_current_user find_user c in
  request first.2 = request c
  ∧ g_user first.2 = Some first.1
  ∧ _get_current_user find_user' first.2 = first
  ∧ (show_soft_api_key_warning find_user m today c).2 = first.2
  ∧ (show_hard_api_key_warning find_user API_KEY_REQUIRED_STARTING_AT m today c).2
    = first.2.
Proof.
  intros first. split_and!.
  - unfold first, _get_current_user. by destruct (g_user c).
  - unfold first, _get_current_user. by destruct (g_user c) eqn:Hg.
  - apply _get_current_user_again.
  - unfold show_soft_api_key_warning, first.
    by destruct (_get_current_user find_user c).
  - unfold show_hard_api_key_warning, first.
    by destruct (_get_current_user find_user c).
Qed.

(** X17. For an anonymous caller the three periods do not overlap and leave
    no gap: on no date do two of [show_soft_api_key_warning],
    [show_hard_api_key_warning] and [require_api_key] hold, and one of them
    holds exactly from the soft-warning date, 28 days before the cutover,
    on. *)
Theorem api_key_periods_partition (m : loaded) (today : Z) (c : context User) :
  load API_KEY_REQUIRED_STARTING_AT = Ok m →
  (_get_current_user find_user c).1 = None →
  let soft := (show_soft_api_key_warning find_user m today c).1 in
  let hard :=
    (show_hard_api_key_warning find_user API_KEY_REQUIRED_STARTING_AT m today c).1 in
  let required := require_api_key API_KEY_REQUIRED_STARTING_AT today in
  soft && hard = false
  ∧ soft && required = false
  ∧ hard && required = false
  ∧ (soft || hard || required = true ↔ API_KEY_REQUIRED_STARTING_AT - 28 ≤ today).
Proof.
  intros Hload Hanon.
  assert (hard_warning m = API_KEY_REQUIRED_STARTING_AT - 14
          ∧ soft_warning m = API_KEY_REQUIRED_STARTING_AT - 14 - 14) as [Hh Hs].
  { unfold load, API_KEY_SOFT_WARNING, API_KEY_HARD_WARNING, date_minus_days in Hload.
    repeat (case_match; simpl in Hload; try done). by injection Hload as <-. }
  unfold show_soft_api_key_warning, show_hard_api_key_warning, require_api_key.
  destruct (_get_current_user find_user c) as [u c'] eqn:Hu.
  simpl in Hanon. subst u. simpl. rewrite Hh, Hs.
  destruct (Z.leb_spec (API_KEY_REQUIRED_STARTING_AT - 14 - 14) today);
    destruct (Z.ltb_spec today (API_KEY_REQUIRED_STARTING_AT - 14));
    destruct (Z.leb_spec (API_KEY_REQUIRED_STARTING_AT - 14) today);
    destruct (Z.ltb_spec today API_KEY_REQUIRED_STARTING_AT);
    destruct (Z.leb_spec API_KEY_REQUIRED_STARTING_AT today);
    simpl; split_and!; try done; try lia; split; (done || lia).
Qed.

(** X18. The two warning dates are computed when the module is loaded, and
    a date before 0001-01-01 does not exist: for a cutover that is a date,
    loading raises [OverflowError] exactly when the cutover is among the
    first 28 days, and otherwise gives the dates 14 and 28 days before
    it. *)
Theorem load_overflow :
  date_min ≤ API_KEY_REQUIRED_STARTING_AT ≤ date_max →
  (load API_KEY_REQUIRED_STARTING_AT = Raise OverflowError
   ↔ API_KEY_REQUIRED_STARTING_AT < 29)
  ∧ (29 ≤ API_KEY_REQUIRED_STARTING_AT →
     load API_KEY_REQUIRED_STARTING_AT
     = Ok {| hard_warning := API_KEY_REQUIRED_STARTING_AT - 14;
             soft_warning := API_KEY_REQUIRED_STARTING_AT - 28 |}).
Proof.
  unfold date_min, date_max. intros Hdate.
  unfold load, API_KEY_SOFT_WARNING, API_KEY_HARD_WARNING, date_minus_days,
    date_min, date_max.
  destruct (Z.leb_spec 1 (API_KEY_REQUIRED_STARTING_AT - 14)); simpl;
    [|split; [split; [lia | done] | lia]].
  destruct (Z.leb_spec (API_KEY_REQUIRED_STARTING_AT - 14) 3652059); simpl;
    [|lia].
  destruct (Z.leb_spec 1 (API_KEY_REQUIRED_STARTING_AT - 14 - 14)); simpl;
    [|split; [split; [lia | done] | lia]].
  destruct (Z.leb_spec (API_KEY_REQUIRED_STARTING_AT - 14 - 14) 3652059); simpl;
    [|lia].
  split; [split; [done | lia] |].
  intros _. do 2 f_equal. lia.
Qed.

(** X19. Two role requirements on one handler: the order of the two
    decorators does not matter; the handler runs, in the context that holds
    the user, exactly when the caller is a user who holds both roles, and
    [Unauthorized] is raised when the caller is anonymous or lacks one of
    them. *)
Theorem require_role_nested {A} (role1 role2 : string) (f : view User A)
    (c : context User) :
  let both :=
    require_role find_user has_role role1
      (require_role find_user has_role role2 f) in
  both c
  = require_role find_user has_role role2
      (require_role find_user has_role role1 f) c
  ∧ (role1 ≠ "" → role2 ≠ "" →
     (∀ user, (_get_current_user find_user c).1 = Some user →
        has_role user role1 = true → has_role user role2 = true →
        both c = f (_get_current_user find_user c).2)
     ∧ ((_get_current_user find_user c).1 = None
        ∨ (∃ user, (_get_current_user find_user c).1 = Some user
                   ∧ (has_role user role1 = false ∨ has_role user role2 = false)) →
        both c = (Raise Unauthorized, (_get_current_user find_user c).2))).
Proof.
  intros both. unfold both, require_role.
  pose proof (_get_current_user_again find_user c) as Hagain.
  destruct (_get_current_user find_user c) as [u c'] eqn:Hu. simpl in Hagain.
  split.
  - destruct role1 as [|a1 r1], role2 as [|a2 r2]; simpl; try done.
    rewrite Hu. destruct u as [user|]; [|done].
    rewrite Hagain.
    by destruct (has_role user (String a1 r1)), (has_role user (String a2 r2)).
  - intros H1 H2. destruct role1 as [|a1 r1]; [done |].
    destruct role2 as [|a2 r2]; [done |]. simpl. rewrite Hu. split.
    + intros user [= ->] -> Hr2. simpl. by rewrite Hagain, Hr2.
    + intros [->|(user & [= ->] & Hlack)]; [done |].
      destruct (has_role user (String a1 r1)) eqn:Hr1; [|done].
      destruct Hlack as [?|Hr2]; [done |]. simpl. by rewrite Hagain, Hr2.
Qed.

End CurrentUser.

Section ResolvedToken.

Import Security.

Lemma values_get_Some n vs v : values_get n vs = Some v → (n, v) ∈ vs.
Proof.
  induction vs as [|[k w] vs IH]; [done |]. simpl.
  case_bool_decide as Hk.
  - intros [= ->]. subst k. apply list_elem_of_here.
  - intros Hv. apply list_elem_of_further. by apply IH.
Qed.

Lemma values_get_None n vs : values_get n vs = None → ∀ v, (n, v) ∉ vs.
Proof.
  induction vs as [|[k w] vs IH]; [by intros _ v ?%elem_of_nil |]. simpl.
  case_bool_decide as Hk; [done |].
  intros Hv v [[= <- <-]|Hin]%elem_of_cons; [done |]. by apply (IH Hv v).
Qed.

(** X20. [resolve_auth_token] makes up no token: a token it returns is the
    value of an [auth], [api_key] or [token] parameter of the request, the
    password of credentials whose username is [epidata], or what follows
    ["Bearer "] in the Authorization header; and when it returns none, the
    request has none of the three parameters. *)
Theorem resolve_auth_token_from_request (r : Request) :
  (∀ t, resolve_auth_token r = Some t →
     (∃ n, n ∈ ["auth"; "api_key"; "token"] ∧ (n, t) ∈ values r)
     ∨ (∃ a, authorization r = Some a ∧ username a = Some "epidata"
             ∧ password a = Some t)
     ∨ header_Authorization r = Some ("Bearer " +:+ t))
  ∧ (resolve_auth_token r = None →
     ∀ n v, n ∈ ["auth"; "api_key"; "token"] → (n, v) ∉ values r).
Proof.
  assert (∀ t, bearer_token r = Some t →
               header_Authorization r = Some ("Bearer " +:+ t)) as Hbearer.
  { intros t. unfold bearer_token.
    destruct (header_Authorization r) as [h|]; [|done].
    destruct (startswith h "Bearer ") eqn:Hs; [|by rewrite andb_false_r].
    apply startswith_spec in Hs as [rest ->].
    destruct (truthy_str _); [|done]. simpl. by intros [= ->]. }
  unfold resolve_auth_token, first_present. split.
  - intros t.
    destruct (values_get "auth" (values r)) as [v|] eqn:H1.
    { intros [= ->]. left. exists "auth". split; [|by apply values_get_Some].
      apply list_elem_of_here. }
    destruct (values_get "api_key" (values r)) as [v|] eqn:H2.
    { intros [= ->]. left. exists "api_key". split; [|by apply values_get_Some].
      apply list_elem_of_further, list_elem_of_here. }
    destruct (values_get "token" (values r)) as [v|] eqn:H3.
    { intros [= ->]. left. exists "token". split; [|by apply values_get_Some].
      do 2 apply list_elem_of_further. apply list_elem_of_here. }
    destruct (authorization r) as [a|]; [|by right; right; apply Hbearer].
    case_bool_decide as Hu; [|by right; right; apply Hbearer].
    intros Hp. right. left. by exists a.
  - destruct (values_get "auth" (values r)) as [v|] eqn:H1; [done |].
    destruct (values_get "api_key" (values r)) as [v|] eqn:H2; [done |].
    destruct (values_get "token" (values r)) as [v|] eqn:H3; [done |].
    intros _ n v Hn. rewrite !elem_of_cons in Hn.
    destruct Hn as [->|[->|[->|Hn]]]; [by apply values_get_None..|].
    by apply elem_of_nil in Hn.
Qed.

End ResolvedToken.

Section PublicPrefix.

Import Security.

Variable URL_PREFIX : string.

(** X21. The allowlist is matched on the beginning of the path only: a
    request below a public path is public, whatever follows, also when what
    follows continues the last segment; and nothing but the path is
    looked at. *)
Theorem public_route_extends (r : Request) (more : string)
    (vs : list (string * string)) (a : option Authorization)
    (h : option string) :
  _is_public_route URL_PREFIX r = true →
  _is_public_route URL_PREFIX
    {| values := vs; authorization := a; header_Authorization := h;
       path := path r +:+ more |} = true.
Proof.
  rewrite !_is_public_route_spec.
  intros (route & rest & Hin & Hp). exists route, (rest +:+ more).
  split; [done |]. simpl. by rewrite Hp, !string_app_assoc.
Qed.

End PublicPrefix.

Section SecurityExamples.

Import Security.

(** A key that is revoked between two calls: the second call still returns
    the user of the first. *)
Lemma current_user_cached_witness :
  let find_user : option string → option string := λ k, k in
  let revoked : option string → option string := λ _, None in
  let m := {| hard_warning := 738658; soft_warning := 738644 |} in
  let c := {| request := {| values := [("api_key", "quidel_key")];
                            authorization := None;
                            header_Authorization := None;
                            path := "/epidata/covidcast/" |};
              g_user := None |} in
  (_get_current_user find_user c).1 = Some "quidel_key"
  ∧ (_get_current_user revoked c).1 = None
  ∧ (_get_current_user revoked (_get_current_user find_user c).2).1
    = Some "quidel_key".
Proof.
  intros find_user revoked m c.
  pose proof (current_user_cached find_user 738672 revoked m 738650 c)
    as (_ & _ & Hcached & _).
  split_and!; [done | done |]. by rewrite Hcached.
Defined.

(** A cutover on 2023-06-01 and an anonymous request on 2023-05-20, in the
    hard-warning period. *)
Lemma api_key_periods_partition_witness :
  let find_user : option string → option unit := λ _, None in
  let cutover := 738672 in
  let m := {| hard_warning := 738658; soft_warning := 738644 |} in
  let c := {| request := {| values := []; authorization := None;
                            header_Authorization := None;
                            path := "/epidata/covidcast/" |};
              g_user := None |} in
  load cutover = Ok m
  ∧ (_get_current_user find_user c).1 = None
  ∧ (show_soft_api_key_warning find_user m 738660 c).1
    || (show_hard_api_key_warning find_user cutover m 738660 c).1
    || require_api_key cutover 738660 = true.
Proof.
  intros find_user cutover m c.
  assert (load cutover = Ok m) as Hload by done.
  assert ((_get_current_user find_user c).1 = None) as Hanon by done.
  pose proof (api_key_periods_partition find_user cutover m 738660 c Hload Hanon)
    as (_ & _ & _ & Hsome).
  split_and!; [done | done |]. apply Hsome. unfold cutover. lia.
Defined.

(** A cutover on 0001-01-20 cannot be loaded; one on 2023-06-01 can. *)
Lemma load_overflow_witness :
  (date_min ≤ 20 ≤ date_max ∧ load 20 = Raise OverflowError)
  ∧ (date_min ≤ 738672 ≤ date_max
     ∧ load 738672 = Ok {| hard_warning := 738672 - 14;
                           soft_warning := 738672 - 28 |}).
Proof.
  assert (date_min ≤ 20 ≤ date_max) as H1 by (unfold date_min, date_max; lia).
  assert (date_min ≤ 738672 ≤ date_max) as H2 by (unfold date_min, date_max; lia).
  split; (split; [done |]).
  - apply (load_overflow 20 H1). lia.
  - apply (load_overflow 738672 H2). lia.
Defined.

(** A user with one of the two roles of a handler. *)
Lemma require_role_nested_witness :
  let find_user : option string → option string := λ k, k in
  let has_role : string → string → bool :=
    λ user role, bool_decide (role = "quidel") in
  let f : view string string := λ c, (Ok "epidata", c) in
  let c := {| request := {| values := [("api_key", "quidel_key")];
                            authorization := None;
                            header_Authorization := None;
                            path := "/epidata/covidcast/" |};
              g_user := None |} in
  "quidel" ≠ "" ∧ "sensors" ≠ ""
  ∧ (_get_current_user find_user c).1 = Some "quidel_key"
  ∧ has_role "quidel_key" "sensors" = false
  ∧ (require_role find_user has_role "quidel"
       (require_role find_user has_role "sensors" f) c).1
    = Raise Unauthorized.
Proof.
  intros find_user has_role f c.
  assert ("quidel" ≠ "") as H1 by done.
  assert ("sensors" ≠ "") as H2 by done.
  pose proof (require_role_nested find_user has_role "quidel" "sensors" f c)
    as [_ Hboth].
  destruct (Hboth H1 H2) as [_ Hlack].
  split_and!; [done.. |]. rewrite Hlack; [done |].
  right. exists "quidel_key". split; [done | by right].
Defined.

(** A bearer header: the token is what follows the scheme. *)
Lemma resolve_auth_token_from_request_witness :
  let r := {| values := [("signal", "sig")];
              authorization := None;
              header_Authorization := Some "Bearer abc";
              path := "/epidata/covidcast/" |} in
  resolve_auth_token r = Some "abc"
  ∧ header_Authorization r = Some ("Bearer " +:+ "abc").
Proof.
  intros r.
  assert (resolve_auth_token r = Some "abc") as Hr by done.
  split; [done |].
  destruct (resolve_auth_token_from_request r) as [Hfrom _].
  destruct (Hfrom "abc" Hr) as [(n & _ & Hin)|[(a & Ha & _)|Hh]]; [| done | done].
  exfalso. apply list_elem_of_singleton in Hin. by injection Hin as _ Habs.
Defined.

(** [/epidata/lib] is public, and so is [/epidata/library/x]. *)
Lemma public_route_extends_witness :
  let r := {| values := []; authorization := None;
              header_Authorization := None; path := "/epidata/lib" |} in
  _is_public_route "/epidata" r = true
  ∧ _is_public_route "/epidata"
      {| values := [("api_key", "k")]; authorization := None;
         header_Authorization := None; path := "/epidata/library/x" |} = true.
Proof.
  intros r.
  assert (_is_public_route "/epidata" r = true) as Hr by done.
  split; [done |].
  exact (public_route_extends "/epidata" r "rary/x" [("api_key", "k")]
           None None Hr).
Defined.

End SecurityExamples.
